(** * RoboSpec: validation, normalisation and bounded repair

    A shallow embedding of the validation engine of RoboSpec
    ([robospec/pipeline/validator.py], [robospec/pipeline/generator.py],
    [robospec/cli.py]) and the proofs of its specified properties,
    with the names and the responses of the generator and the writer
    of the reference documents ([scripts/extract_mdp_api.py]).

    Python [str] values are sequences of Unicode code points; they are
    modelled as [list N].  The regular expressions of the source are
    run by a small backtracking matcher with the semantics of Python's
    [re] module for the constructs the source uses.  What the code
    takes from the interpreter (the Unicode database, the parser,
    [difflib], the printing of constants) and from the network (the
    generator) is an interface; the registry cache and the log of
    repair requests are passed as state.

    The first part holds the model, the second its properties. *)

From Stdlib Require Import Ascii String SpecFloat.
From stdpp Require Import base decidable option list numbers countable gmap sets sorting.

Set Default Proof Using "Type".
Local Open Scope N_scope.

(** ** Text *)

Abbreviation text := (list N).

(** A string literal of the source as a sequence of code points. *)
Definition py (s : string) : text :=
  (λ a, Ascii.N_of_ascii a) <$> String.list_ascii_of_string s.

Arguments py : simpl never.

Definition NL : N := 10.      (* the line feed *)
Definition DQ : N := 34.      (* the double quote *)
Definition SQ : N := 39.      (* the single quote *)

Definition text_eqb (a b : text) : bool := bool_decide (a = b).

(** [sub in s] of Python, for strings. *)
Fixpoint starts_with (p s : text) : bool :=
  match p, s with
  | [], _ => true
  | _ :: _, [] => false
  | a :: p', b :: s' => (a =? b) && starts_with p' s'
  end.

Fixpoint contains (p s : text) : bool :=
  starts_with p s ||
  match s with
  | [] => false
  | _ :: s' => contains p s'
  end.

(** [s.count(c)] for a one-character [c]. *)
Definition count_char (c : N) (s : text) : nat :=
  length (filter (λ d, d = c) s).

(** [s.find(c, i)] for a one-character [c]: the index of the first [c]
    at or after [i], if any ([None] stands for [-1]). *)
Fixpoint find_from_aux (c : N) (s : text) (pos : nat) : option nat :=
  match s with
  | [] => None
  | d :: s' => if d =? c then Some pos else find_from_aux c s' (S pos)
  end.

Definition find_from (c : N) (s : text) (i : nat) : option nat :=
  find_from_aux c (drop i s) i.

(** [s.split(p)[0]]: the text before the first occurrence of [p]. *)
Fixpoint before_first (p s : text) : text :=
  if starts_with p s then []
  else match s with
       | [] => []
       | c :: s' => c :: before_first p s'
       end.

(** [str(n)] for a non-negative integer. *)
Fixpoint decimal_digits (fuel : nat) (n : N) (acc : text) : text :=
  match fuel with
  | O => acc
  | S fuel' =>
      let acc' := (48 + n `mod` 10) :: acc in
      if n <? 10 then acc' else decimal_digits fuel' (n `div` 10) acc'
  end.

Definition str_of_N (n : N) : text :=
  decimal_digits (S (N.to_nat (N.log2 n))) n [].

(** ** Character classes of [re] on [str] patterns *)

(** [\w] is Unicode aware: below 128 it is [[A-Za-z0-9_]]; above, it
    follows the Unicode database of the interpreter, which is taken as
    an interface. *)
Class Unicode := unicode_word : N → bool.

Definition ascii_word (c : N) : bool :=
  ((48 <=? c) && (c <=? 57)) || ((65 <=? c) && (c <=? 90))
  || ((97 <=? c) && (c <=? 122)) || (c =? 95).

Definition is_word `{Unicode} (c : N) : bool :=
  if c <? 128 then ascii_word c else unicode_word c.

(** [\s]: the white space of [str.isspace]. *)
Definition is_space (c : N) : bool :=
  ((9 <=? c) && (c <=? 13)) || ((28 <=? c) && (c <=? 32))
  || (c =? 133) || (c =? 160) || (c =? 5760)
  || ((8192 <=? c) && (c <=? 8202)) || (c =? 8232) || (c =? 8233)
  || (c =? 8239) || (c =? 8287) || (c =? 12288).

Definition not_space (c : N) : bool := negb (is_space c).
Definition is_upper_AZ (c : N) : bool := (65 <=? c) && (c <=? 90).
(** [.] without [re.DOTALL]. *)
Definition not_newline (c : N) : bool := negb (c =? NL).
(** [[^...]]. *)
Definition none_of (l : list N) (c : N) : bool := negb (existsb (N.eqb c) l).

Definition is_wordo `{Unicode} (o : option N) : bool :=
  match o with Some c => is_word c | None => false end.

(** ** Regular expressions *)

Module Re.

(** The constructs used by the patterns of the source.  Repetition is
    only ever applied to a character class there. *)
Inductive regex :=
  | Lit (s : text)              (* literal text *)
  | Cls (p : N → bool)          (* one character of a class *)
  | Star (p : N → bool)         (* p*, greedy *)
  | Plus (p : N → bool)         (* p+, greedy *)
  | Opt (r : regex)             (* r?, greedy *)
  | Seq (r1 r2 : regex)
  | Alt (r1 r2 : regex)
  | Bol                         (* ^ under re.MULTILINE *)
  | Eol                         (* $ under re.MULTILINE *)
  | WordB                       (* \b *)
  | NegLook (r : regex)         (* (?!r) *)
  | Group (r : regex).          (* the capturing group 1 *)

(** A match object: [start()], [end()] and the span of group 1. *)
Record rmatch := RMatch {
  m_start : nat;
  m_end : nat;
  m_group1 : option (nat * nat);
}.

Section Matcher.
Context `{Unicode}.

(** The matcher walks a cursor made of the position, the character
    before it (for [^] and [\b]) and the text that remains; [k] is
    the rest of the pattern.  [None] makes the caller backtrack. *)
Definition cont (R : Type) : Type :=
  nat → option N → text → option (nat * nat) → option R.

Fixpoint lit {R} (l : text) (pos : nat) (prev : option N) (s : text)
    (g : option (nat * nat)) (k : cont R) : option R :=
  match l with
  | [] => k pos prev s g
  | c :: l' =>
      match s with
      | d :: s' => if c =? d then lit l' (S pos) (Some d) s' g k else None
      | [] => None
      end
  end.

(** Greedy repetition of a class: take as many as possible, give
    them back one at a time while the rest of the pattern fails. *)
Fixpoint star {R} (p : N → bool) (pos : nat) (prev : option N) (s : text)
    (g : option (nat * nat)) (k : cont R) : option R :=
  match s with
  | d :: s' =>
      if p d then
        match star p (S pos) (Some d) s' g k with
        | Some r => Some r
        | None => k pos prev s g
        end
      else k pos prev s g
  | [] => k pos prev s g
  end.

Fixpoint run {R} (r : regex) (pos : nat) (prev : option N) (s : text)
    (g : option (nat * nat)) (k : cont R) {struct r} : option R :=
  match r with
  | Lit l => lit l pos prev s g k
  | Cls p =>
      match s with
      | d :: s' => if p d then k (S pos) (Some d) s' g else None
      | [] => None
      end
  | Star p => star p pos prev s g k
  | Plus p =>
      match s with
      | d :: s' => if p d then star p (S pos) (Some d) s' g k else None
      | [] => None
      end
  | Opt r1 =>
      match run r1 pos prev s g k with
      | Some x => Some x
      | None => k pos prev s g
      end
  | Seq r1 r2 =>
      run r1 pos prev s g (λ pos' prev' s' g', run r2 pos' prev' s' g' k)
  | Alt r1 r2 =>
      match run r1 pos prev s g k with
      | Some x => Some x
      | None => run r2 pos prev s g k
      end
  | Bol =>
      match prev with
      | None => k pos prev s g
      | Some c => if c =? NL then k pos prev s g else None
      end
  | Eol =>
      match s with
      | [] => k pos prev s g
      | d :: _ => if d =? NL then k pos prev s g else None
      end
  | WordB =>
      if xorb (is_wordo prev) (is_wordo (head s)) then k pos prev s g
      else None
  | NegLook r1 =>
      match run r1 pos prev s g (λ _ _ _ _, Some tt) with
      | Some _ => None
      | None => k pos prev s g
      end
  | Group r1 =>
      run r1 pos prev s g (λ pos' prev' s' _, k pos' prev' s' (Some (pos, pos')))
  end.

(** [pattern.match] at a cursor. *)
Definition match_here (r : regex) (pos : nat) (prev : option N) (s : text)
    : option rmatch :=
  run r pos prev s None (λ pos' _ _ g, Some (RMatch pos pos' g)).

(** [pattern.finditer(s)]: the leftmost matches, none overlapping.
    [skip] counts the characters still covered by the last match. *)
Fixpoint finditer_go (r : regex) (skip : nat) (pos : nat) (prev : option N)
    (s : text) : list rmatch :=
  match skip with
  | S skip' =>
      match s with
      | [] => []
      | d :: s' => finditer_go r skip' (S pos) (Some d) s'
      end
  | O =>
      match match_here r pos prev s with
      | Some m =>
          m :: match s with
               | [] => []
               | d :: s' =>
                   finditer_go r (pred (m_end m - pos)) (S pos) (Some d) s'
               end
      | None =>
          match s with
          | [] => []
          | d :: s' => finditer_go r 0 (S pos) (Some d) s'
          end
      end
  end.

Definition finditer (r : regex) (s : text) : list rmatch :=
  finditer_go r 0 0%nat None s.

(** [pattern.search(s)]: the first match, if any. *)
Fixpoint search_go (r : regex) (pos : nat) (prev : option N) (s : text)
    : option rmatch :=
  match match_here r pos prev s with
  | Some m => Some m
  | None =>
      match s with
      | [] => None
      | d :: s' => search_go r (S pos) (Some d) s'
      end
  end.

Definition search (r : regex) (s : text) : option rmatch :=
  search_go r 0%nat None s.

(** [pattern.sub(repl, s)] for a replacement without escapes. *)
Fixpoint sub_go (r : regex) (repl : text) (skip : nat) (pos : nat)
    (prev : option N) (s : text) : text :=
  match skip with
  | S skip' =>
      match s with
      | [] => []
      | d :: s' => sub_go r repl skip' (S pos) (Some d) s'
      end
  | O =>
      match match_here r pos prev s with
      | Some m =>
          repl ++
          match s with
          | [] => []
          | d :: s' =>
              match (m_end m - pos)%nat with
              | O => d :: sub_go r repl 0 (S pos) (Some d) s'
              | S n => sub_go r repl n (S pos) (Some d) s'
              end
          end
      | None =>
          match s with
          | [] => []
          | d :: s' => d :: sub_go r repl 0 (S pos) (Some d) s'
          end
      end
  end.

Definition sub (r : regex) (repl : text) (s : text) : text :=
  sub_go r repl 0 0%nat None s.

(** [m.group(0)] and [m.group(1)] of a match in [s]. *)
Definition group0 (m : rmatch) (s : text) : text :=
  take (m_end m - m_start m) (drop (m_start m) s).

Definition group1 (m : rmatch) (s : text) : text :=
  match m_group1 m with
  | Some (a, b) => take (b - a) (drop a s)
  | None => []
  end.
End Matcher.

End Re.

(** ** More of [str] *)

Module Str.

(** [s.replace(a, b)] for one-character [a] and [b]. *)
Definition replace_char (a b : N) (s : text) : text :=
  (λ c, if c =? a then b else c) <$> s.

(** [s.lstrip()], [s.rstrip()] and [s.strip()]: the white space of
    [str.isspace] is removed. *)
Fixpoint lstrip_with (p : N → bool) (s : text) : text :=
  match s with
  | [] => []
  | c :: s' => if p c then lstrip_with p s' else s
  end.

Definition rstrip_with (p : N → bool) (s : text) : text :=
  reverse (lstrip_with p (reverse s)).

Definition lstrip (s : text) : text := lstrip_with is_space s.
Definition rstrip (s : text) : text := rstrip_with is_space s.
Definition strip (s : text) : text := rstrip (lstrip s).

(** [s.rstrip(chars)] *)
Definition rstrip_chars (chars : text) (s : text) : text :=
  rstrip_with (λ c, existsb (N.eqb c) chars) s.

(** [s.split(sep, 1)] for a one-character [sep]: the text before the
    first [sep] and the text after it, or [s] alone. *)
Fixpoint split_once (sep : N) (s : text) : list text :=
  match s with
  | [] => [[]]
  | c :: s' =>
      if c =? sep then [[]; s']
      else match split_once sep s' with
           | first :: others => (c :: first) :: others
           | [] => [[c]]
           end
  end.

(** [s.replace(old, new)] for a non-empty [old]: the occurrences are
    taken from the left and do not overlap. *)
Fixpoint replace_go (old new : text) (skip : nat) (s : text) : text :=
  match skip with
  | S skip' =>
      match s with
      | [] => []
      | _ :: s' => replace_go old new skip' s'
      end
  | O =>
      if starts_with old s then
        new ++ match s with
               | [] => []
               | _ :: s' => replace_go old new (pred (length old)) s'
               end
      else
        match s with
        | [] => []
        | c :: s' => c :: replace_go old new 0 s'
        end
  end.

Definition replace (old new s : text) : text := replace_go old new 0 s.

(** What [str.lower] and [str.isdigit] take from the Unicode database
    above 128. *)
Class UnicodeData := {
  (** the lower-case mapping of the character at an index of a text
      (it depends on the text around it for the capital sigma) *)
  unicode_lower : text → nat → text;
  (** [c.isdigit()] *)
  unicode_digit : N → bool;
}.

Definition ascii_lower (c : N) : N :=
  if (65 <=? c) && (c <=? 90) then c + 32 else c.

(** [s.lower()]: every character is replaced by its lower-case
    mapping; below 128 that is the ASCII one. *)
Fixpoint lower_go `{UnicodeData} (whole : text) (i : nat) (s : text) : text :=
  match s with
  | [] => []
  | c :: s' =>
      (if c <? 128 then [ascii_lower c] else unicode_lower whole i)
      ++ lower_go whole (S i) s'
  end.

Definition lower `{UnicodeData} (s : text) : text := lower_go s 0 s.

(** [c.isdigit()] for one character. *)
Definition isdigit `{UnicodeData} (c : N) : bool :=
  if c <? 128 then (48 <=? c) && (c <=? 57) else unicode_digit c.

End Str.

(** ** [re.split] *)

Module ReSplit.
Import Re.

Section Split.
Context `{Unicode}.

(** [pattern.split(s)] for a pattern without groups: the texts
    between the matches [finditer] yields.  [piece] is the text read
    since the last match. *)
Fixpoint split_go (r : regex) (skip : nat) (pos : nat) (prev : option N)
    (s : text) (piece : text) : list text :=
  match skip with
  | S skip' =>
      match s with
      | [] => [piece]
      | d :: s' => split_go r skip' (S pos) (Some d) s' piece
      end
  | O =>
      match match_here r pos prev s with
      | Some m =>
          piece ::
          match s with
          | [] => [[]]
          | d :: s' =>
              match (m_end m - pos)%nat with
              | O => split_go r 0 (S pos) (Some d) s' [d]
              | S n => split_go r n (S pos) (Some d) s' []
              end
          end
      | None =>
          match s with
          | [] => [piece]
          | d :: s' => split_go r 0 (S pos) (Some d) s' (piece ++ [d])
          end
      end
  end.

Definition split (r : regex) (s : text) : list text :=
  split_go r 0 0%nat None s [].
End Split.

End ReSplit.

(** ** validator.py: tables *)

Module Validator.
Import Re.

(** [SUPPLEMENTAL_WHITELIST] *)
Definition SUPPLEMENTAL_WHITELIST : gset text :=
  list_to_set (py <$> [
    "position_command_error"; "position_command_error_tanh";
    "orientation_command_error";
    "joint_pos_target_l2";
    "feet_air_time";
    "UniformVelocityCommandCfg"; "UniformPoseCommandCfg"; "NullCommandCfg";
    "randomize_rigid_body_material"; "randomize_rigid_body_mass";
    "modify_reward_weight"; "terrain_levels_vel" ])%string.

(** [COMMON_CORRECTIONS], in the insertion order of the dictionary,
    which is the order [.items()] iterates in.  A value [None] marks an
    entry to skip. *)
Definition COMMON_CORRECTIONS : list (text * option text) :=
  (λ '(w, r), (py w, Some (py r))) <$> [
    ("joint_pos_l2", "joint_pos_target_l2");
    ("joint_pos_l1", "joint_deviation_l1");
    ("joint_vel_l2_asset", "joint_vel_l2");
    ("action_rate_l2_norm", "action_rate_l2");
    ("track_lin_vel_xy", "track_lin_vel_xy_exp");
    ("track_ang_vel_z", "track_ang_vel_z_exp");
    ("base_lin_vel_z_l2", "lin_vel_z_l2");
    ("base_ang_vel_xy_l2", "ang_vel_xy_l2");
    ("position_error_tanh", "position_command_error_tanh");
    ("position_error", "position_command_error");
    ("joint_pos_target_l1", "joint_pos_target_l2");
    ("action_rate_l1", "action_rate_l2");
    ("feet_air_time_biped_reward", "feet_air_time") ]%string.

(** The names the table flags as wrong. *)
Definition wrong_names : list text := COMMON_CORRECTIONS.*1.

Definition flagged (name : text) : bool := bool_decide (name ∈ wrong_names).

(** ** validator.py: the heuristic auto-corrector *)

Section AutoCorrect.
Context `{Unicode}.

(** The compiled pattern: [mdp\.], the wrong name (escaped), [\b]. *)
Definition correction_pattern (wrong : text) : regex :=
  Seq (Lit (py "mdp.")) (Seq (Lit wrong) WordB).

(** One turn of the loop of [auto_correct_code] on the state
    [(corrected, corrections)]. *)
Definition correction_step (st : text * list text)
    (entry : text * option text) : text * list text :=
  let '(corrected, corrections) := st in
  let '(wrong, right_) := entry in
  match right_ with
  | None => st
  | Some right_ =>
      let pattern := correction_pattern wrong in
      match search pattern corrected with
      | Some _ =>
          (sub pattern (py "mdp." ++ right_) corrected,
           corrections ++ [py "mdp." ++ wrong ++ py " -> mdp." ++ right_])
      | None => st
      end
  end.

Definition auto_correct_with (table : list (text * option text))
    (code : text) : text * list text :=
  foldl correction_step (code, []) table.

Definition auto_correct_code (code : text) : text * list text :=
  auto_correct_with COMMON_CORRECTIONS code.
End AutoCorrect.


(** ** validator.py: the API surface registry *)

(** The state of the directory [knowledge/api_reference]: [None] when
    it does not exist, otherwise the contents of its [*.md] files in
    the order [glob] yields them. *)
Definition api_dir := option (list text).

(** The memory of [@lru_cache(maxsize=1)] on a function without
    arguments: empty, or the set returned by the first call. *)
Definition cache := option (gset text).

Section Registry.
Context `{Unicode}.

(** The pattern [^###\s+mdp\.(\w+)] with [re.MULTILINE] *)
Definition function_heading : regex :=
  Seq Bol (Seq (Lit (py "###")) (Seq (Plus is_space)
    (Seq (Lit (py "mdp.")) (Group (Plus is_word))))).

(** The pattern [^###\s+([A-Z]\w+)] with [re.MULTILINE] *)
Definition class_heading : regex :=
  Seq Bol (Seq (Lit (py "###")) (Seq (Plus is_space)
    (Group (Seq (Cls is_upper_AZ) (Plus is_word))))).

Definition add_headings (pattern : regex) (contents : text)
    (symbols : gset text) : gset text :=
  foldl (λ acc m, {[ group1 m contents ]} ∪ acc) symbols
        (finditer pattern contents).

(** The body of the loop over the files. *)
Definition scan_file (symbols : gset text) (contents : text) : gset text :=
  add_headings class_heading contents
    (add_headings function_heading contents symbols).

(** The body of [load_api_whitelist]. *)
Definition load_api_whitelist_body (dir : api_dir) : gset text :=
  let symbols : gset text := ∅ in
  match dir with
  | None => symbols
  | Some files =>
      let symbols := foldl scan_file symbols files in
      symbols ∪ SUPPLEMENTAL_WHITELIST
  end.

(** [load_api_whitelist()] with its cache. *)
Definition load_api_whitelist (dir : api_dir) (c : cache)
    : gset text * cache :=
  match c with
  | Some symbols => (symbols, c)
  | None =>
      let symbols := load_api_whitelist_body dir in
      (symbols, Some symbols)
  end.
End Registry.

(** ** The parse trees of [ast] *)

(** The values a [Constant] node holds after [ast.parse].  A complex
    constant comes from an imaginary literal, so its real part is 0. *)
Inductive constant :=
  | CInt (z : Z)
  | CFloat (f : spec_float)
  | CImag (f : spec_float)
  | CBool (b : bool)
  | CStr (s : text)
  | CBytes (b : list N)
  | CNone
  | CEllipsis.

Inductive unaryop := UAdd | USub | Not | Invert.

(** The node classes the validator tells apart; every other class is
    [Other].  Lists of children are in the order of
    [ast.iter_child_nodes]. *)
Inductive node :=
  | ClassDef (name : text) (children : list node)
  | FunctionDef (name : text) (children : list node)
  | Import (names : list text)           (* the [name] of each alias *)
  | ImportFrom (module : option text) (names : list text)
  | Attribute (value : node) (attr : text)
  | Name (id : text)
  | keyword (arg : option text) (value : node)
  | Constant (value : constant)
  | UnaryOp (op : unaryop) (operand : node)
  | Other (children : list node).

(** The [alias], [expr_context] and operator nodes have no children and
    are inspected by no check. *)
Definition leaf : node := Other [].

Definition iter_child_nodes (n : node) : list node :=
  match n with
  | ClassDef _ children => children
  | FunctionDef _ children => children
  | Import names => (λ _, leaf) <$> names
  | ImportFrom _ names => (λ _, leaf) <$> names
  | Attribute value _ => [value; leaf]
  | Name _ => [leaf]
  | keyword _ value => [value]
  | Constant _ => []
  | UnaryOp _ operand => [leaf; operand]
  | Other children => children
  end.

(** The number of nodes of a tree, which bounds the turns of the loop
    of [ast.walk]. *)
Fixpoint node_count (n : node) : nat :=
  let fix forest (l : list node) : nat :=
    match l with
    | [] => O
    | x :: l' => (node_count x + forest l')%nat
    end in
  match n with
  | ClassDef _ children => S (forest children)
  | FunctionDef _ children => S (forest children)
  | Import names => S (length names)
  | ImportFrom _ names => S (length names)
  | Attribute value _ => S (S (node_count value))
  | Name _ => 2%nat
  | keyword _ value => S (node_count value)
  | Constant _ => 1%nat
  | UnaryOp _ operand => S (S (node_count operand))
  | Other children => S (forest children)
  end.

(** [ast.walk]: a queue of nodes, each popped from the left, yielded,
    and its children appended on the right. *)
Fixpoint walk_queue (fuel : nat) (todo : list node) : list node :=
  match fuel with
  | O => []
  | S fuel' =>
      match todo with
      | [] => []
      | n :: todo' => n :: walk_queue fuel' (todo' ++ iter_child_nodes n)
      end
  end.

Definition walk (tree : node) : list node :=
  walk_queue (node_count tree) [tree].

(** The number of nodes of a queue of trees. *)
Fixpoint forest_count (l : list node) : nat :=
  match l with
  | [] => O
  | x :: l' => (node_count x + forest_count l')%nat
  end.

(** ** The interpreter and its library *)

(** The attributes of a [SyntaxError] that the code reads. *)
Record syntax_error := { lineno : option N; msg : text }.

(** The exceptions, by class.  [SyntaxError] is the one class the
    code catches; every other one leaves the function it is raised
    in.  [OtherException] stands for the classes the code never
    names, such as the errors of the HTTP client. *)
Inductive exn :=
  | SyntaxError (e : syntax_error)
  | TypeError
  | ValueError
  | UnicodeEncodeError
  | RuntimeError
  | OtherException (class : text).

Inductive outcome (A : Type) :=
  | Return (a : A)
  | Raise (e : exn).
Arguments Return {A} a.
Arguments Raise {A} e.

(** What the code takes from the interpreter and its library: the
    parser, [difflib] and the conversion of a constant to text by an
    f-string.  [ast.parse] returns a tree or raises: [SyntaxError]
    on a text that is not a program, and other classes on a text it
    does not read at all ([ValueError] on a null character before
    Python 3.12, [UnicodeEncodeError] on a lone surrogate).  The
    conversion of an integer raises [ValueError] above the limit of
    [sys.set_int_max_str_digits].  The limits of the interpreter
    (its stack, its memory) are not part of the interface. *)
Class PyLib := {
  (** [ast.parse(code)]: the tree, or the exception it raises *)
  ast_parse : text → exn + node;
  (** [difflib.get_close_matches(word, possibilities, n=1, cutoff=0.6)] *)
  get_close_matches : text → gset text → list text;
  (** [str(value)], as an f-string calls it *)
  str_constant : constant → outcome text;
}.

(** Numbers, as [abs] returns them. *)
Inductive number := NInt (z : Z) | NFloat (f : spec_float).

(** [isinstance(v, (int, float))]; [bool] is a subclass of [int]. *)
Definition is_int_or_float (c : constant) : bool :=
  match c with
  | CInt _ | CFloat _ | CBool _ => true
  | _ => false
  end.

(** [abs(v)] *)
Definition py_abs (c : constant) : outcome number :=
  match c with
  | CInt z => Return (NInt (Z.abs z))
  | CBool b => Return (NInt (if b then 1 else 0)%Z)
  | CFloat f => Return (NFloat (SFabs f))
  | CImag f => Return (NFloat (SFabs f))
  | CStr _ | CBytes _ | CNone | CEllipsis => Raise TypeError
  end.

(** The double [10.0]. *)
Definition ten : spec_float := S754_finite false 5629499534213120 (-49).

(** [weight > 10.0] *)
Definition gt_ten (w : number) : bool :=
  match w with
  | NInt z => (10 <? z)%Z
  | NFloat f => SFltb ten f
  end.

(** ** validator.py: the whitelist symbol check *)

Record ValidationResult := {
  is_valid : bool;
  errors : list text;
  warnings : list text;
  corrections : list text;
}.

Section Checks.
Context `{Unicode} `{PyLib}.

(** The message appended for an unknown name. *)
Definition unknown_message (whitelist : gset text) (name : text) : text :=
  let suggestion :=
    match get_close_matches name whitelist with
    | [] => []
    | m :: _ => py " Did you mean: mdp." ++ m ++ py "?"
    end in
  py "Unknown MDP function: mdp." ++ name ++ py "." ++ suggestion.

(** One turn of the loop of [check_api_symbols] on the state
    [(unknown, seen)]. *)
Definition symbol_step (whitelist : gset text)
    (st : list text * gset text) (n : node) : list text * gset text :=
  let '(unknown, seen) := st in
  match n with
  | Attribute (Name id) attr =>
      if bool_decide (id = py "mdp") && negb (bool_decide (attr ∈ seen))
      then
        let name := attr in
        let seen := {[ name ]} ∪ seen in
        if negb (bool_decide (name ∈ whitelist))
        then (unknown ++ [unknown_message whitelist name], seen)
        else (unknown, seen)
      else st
  | _ => st
  end.

Definition check_api_symbols (code : text) (whitelist : gset text)
    : outcome (list text) :=
  match ast_parse code with
  | inl (SyntaxError _) => Return []
  | inl e => Raise e
  | inr tree => Return (fst (foldl (symbol_step whitelist) ([], ∅) (walk tree)))
  end.

(** What the loop amounts to: the names read on the alias, in the
    order of the walk; those met for the first time; and among them
    the ones the whitelist lacks. *)
Definition mdp_attr (n : node) : option text :=
  match n with
  | Attribute (Name id) attr =>
      if bool_decide (id = py "mdp") then Some attr else None
  | _ => None
  end.

Definition accessed (tree : node) : list text := omap mdp_attr (walk tree).

Fixpoint first_occurrences (seen : gset text) (l : list text) : list text :=
  match l with
  | [] => []
  | x :: l' =>
      if bool_decide (x ∈ seen) then first_occurrences seen l'
      else x :: first_occurrences ({[ x ]} ∪ seen) l'
  end.

Definition unknown_names (whitelist : gset text) (tree : node) : list text :=
  filter (λ n, n ∉ whitelist) (first_occurrences ∅ (accessed tree)).

(** ** validator.py: the structural validator *)

(** The pattern [import\s+isaaclab_tasks\.manager_based\.\S+\.mdp\s+as\s+mdp] *)
Definition task_mdp_pattern : regex :=
  Seq (Lit (py "import")) (Seq (Plus is_space)
  (Seq (Lit (py "isaaclab_tasks.manager_based.")) (Seq (Plus not_space)
  (Seq (Lit (py ".mdp")) (Seq (Plus is_space)
  (Seq (Lit (py "as")) (Seq (Plus is_space) (Lit (py "mdp"))))))))).

Definition is_isaac (name : text) : bool :=
  contains (py "isaaclab") name || contains (py "omni.isaac") name.

(** One turn of the loop of the import check. *)
Definition import_step (has_isaac_import : bool) (n : node) : bool :=
  match n with
  | Import names => if existsb is_isaac names then true else has_isaac_import
  | ImportFrom (Some module) _ =>
      if is_isaac module then true else has_isaac_import
  | _ => has_isaac_import
  end.

(** [result.warnings.append(f"{prefix}{value}")] *)
Definition append_weight (warnings : list text) (prefix : text) (c : constant)
    : outcome (list text) :=
  match str_constant c with
  | Raise e => Raise e
  | Return s => Return (warnings ++ [prefix ++ s])
  end.

(** One turn of the loop over the reward weights, on the list of
    warnings; it raises where [abs] or the f-string does. *)
Definition weight_step (warnings : list text) (n : node)
    : outcome (list text) :=
  match n with
  | keyword (Some arg) value =>
      if bool_decide (arg = py "weight") then
        match value with
        | Constant c =>
            if is_int_or_float c then
              match py_abs c with
              | Raise e => Raise e
              | Return weight =>
                  if gt_ten weight
                  then append_weight warnings
                         (py "Unusually large reward weight: ") c
                  else Return warnings
              end
            else Return warnings
        | UnaryOp USub (Constant c) =>
            match py_abs c with
            | Raise e => Raise e
            | Return weight =>
                if gt_ten weight
                then append_weight warnings
                       (py "Unusually large reward weight: -") c
                else Return warnings
            end
        | _ => Return warnings
        end
      else Return warnings
  | _ => Return warnings
  end.

Fixpoint weight_loop (warnings : list text) (nodes : list node)
    : outcome (list text) :=
  match nodes with
  | [] => Return warnings
  | n :: nodes' =>
      match weight_step warnings n with
      | Raise e => Raise e
      | Return warnings' => weight_loop warnings' nodes'
      end
  end.

Definition class_name (n : node) : option text :=
  match n with ClassDef name _ => Some name | _ => None end.
Definition method_name (n : node) : option text :=
  match n with FunctionDef name _ => Some name | _ => None end.

(** [result.is_valid = False; result.errors.append(e)] *)
Definition fail (e : text) (r : ValidationResult) : ValidationResult :=
  {| is_valid := false; errors := errors r ++ [e];
     warnings := warnings r; corrections := corrections r |}.

(** [result.is_valid = False; result.errors.extend(es)] *)
Definition fail_all (es : list text) (r : ValidationResult)
    : ValidationResult :=
  {| is_valid := false; errors := errors r ++ es;
     warnings := warnings r; corrections := corrections r |}.

Definition warn (w : text) (r : ValidationResult) : ValidationResult :=
  {| is_valid := is_valid r; errors := errors r;
     warnings := warnings r ++ [w]; corrections := corrections r |}.

Definition fresh_result : ValidationResult :=
  {| is_valid := true; errors := []; warnings := []; corrections := [] |}.

Definition validate_config (dir : api_dir) (code : text) (c : cache)
    : outcome ValidationResult * cache :=
  let result := fresh_result in
  (* 1. AST Parse *)
  match ast_parse code with
  | inl (SyntaxError e) =>
      (Return (fail (py "SyntaxError at line "
                     ++ from_option str_of_N (py "None") (lineno e)
                     ++ py ": " ++ msg e) result), c)
  | inl e => (Raise e, c)
  | inr tree =>
      let class_names := omap class_name (walk tree) in
      let method_names := omap method_name (walk tree) in
      (* 2. Class Check *)
      let has_env_cfg := existsb (contains (py "EnvCfg")) class_names in
      let result :=
        if negb has_env_cfg
        then fail (py "Missing environment config class: no class with 'EnvCfg' in name found") result
        else result in
      (* 3. Reward Check *)
      let has_rewards_cfg := existsb (contains (py "RewardsCfg")) class_names in
      let result :=
        if negb has_rewards_cfg
        then fail (py "Missing rewards config: no class with 'RewardsCfg' in name found") result
        else result in
      (* 4. Post-init Check *)
      let has_post_init := bool_decide (py "__post_init__" ∈ method_names) in
      let result :=
        if negb has_post_init
        then fail (py "Missing __post_init__ method") result
        else result in
      (* 5. Import Check *)
      let has_isaac_import := foldl import_step false (walk tree) in
      let result :=
        if negb has_isaac_import
        then fail (py "Missing Isaac Lab imports: no imports from 'isaaclab' or 'omni.isaac' found") result
        else result in
      (* 6. API Whitelist Check *)
      let '(whitelist, c) := load_api_whitelist dir c in
      match
        (if bool_decide (whitelist ≠ ∅) then
           match check_api_symbols code whitelist with
           | Raise e => Raise e
           | Return [] => Return result
           | Return unknown_symbols => Return (fail_all unknown_symbols result)
           end
         else Return result)
      with
      | Raise e => (Raise e, c)
      | Return result =>
      (* 7. Inline robot check *)
      let result :=
        if contains (DQ :: py "ISAACLAB_NUCLEUS_DIR/") code
           || contains (SQ :: py "ISAACLAB_NUCLEUS_DIR/") code
        then fail (py "Literal ISAACLAB_NUCLEUS_DIR string found " ++ [8212]
                   ++ py " use pre-built robot config (e.g. CARTPOLE_CFG.replace(prim_path='{ENV_REGEX_NS}/Robot')) instead")
                  result
        else result in
      (* 8. Task-specific mdp import check *)
      let result :=
        match search task_mdp_pattern code with
        | Some _ =>
            warn (py "Task-specific mdp import found (isaaclab_tasks.manager_based.*.mdp). Use 'import isaaclab.envs.mdp as mdp' for external configs.")
                 result
        | None => result
        end in
      (* Warnings: unusually large reward weights *)
      match weight_loop (warnings result) (walk tree) with
      | Raise e => (Raise e, c)
      | Return ws =>
          (Return {| is_valid := is_valid result; errors := errors result;
                     warnings := ws; corrections := corrections result |}, c)
      end
      end
  end.

(** The invariant of a verdict. *)
Definition coherent (r : ValidationResult) : Prop :=
  is_valid r = false ↔ errors r ≠ [].

(** A keyword [weight] whose value negates a constant that [abs]
    rejects. *)
Definition bad_weight (n : node) : bool :=
  match n with
  | keyword (Some arg) (UnaryOp USub (Constant c)) =>
      bool_decide (arg = py "weight")
      && match py_abs c with Raise _ => true | Return _ => false end
  | _ => false
  end.
End Checks.

End Validator.

(** ** analyzer.py: the task specification *)

Module Analyzer.

Inductive TaskCategory :=
  | MANIPULATION_REACH
  | CLASSIC_CARTPOLE
  | LOCOMOTION_FLAT
  | LOCOMOTION_ROUGH.

Inductive RobotType :=
  | FRANKA_PANDA
  | CARTPOLE
  | ANYMAL_D.

(** [category.value] *)
Definition category_value (c : TaskCategory) : text :=
  match c with
  | MANIPULATION_REACH => py "manipulation_reach"
  | CLASSIC_CARTPOLE => py "classic_cartpole"
  | LOCOMOTION_FLAT => py "locomotion_flat"
  | LOCOMOTION_ROUGH => py "locomotion_rough"
  end.

(** [robot.value] *)
Definition robot_value (r : RobotType) : text :=
  match r with
  | FRANKA_PANDA => py "franka_panda"
  | CARTPOLE => py "cartpole"
  | ANYMAL_D => py "anymal_d"
  end.

(** [TaskSpec], with the fields the generator derives names from and
    the texts that go into its prompt. *)
Record TaskSpec := {
  category : TaskCategory;
  robot : RobotType;
  description : text;
  objectives : list text;
  constraints : list text;
  difficulty : text;
  num_envs : Z;
}.

End Analyzer.

(** ** generator.py: the deterministic normaliser *)

Module Generator.
Import Re.

(** [RobotConfig] *)
Record RobotConfig := {
  import_line : text;
  cfg_name : text;
  robot_line : text;
}.

Definition replace_call (cfg : string) : text :=
  py cfg ++ py ".replace(prim_path=" ++ [DQ] ++ py "{ENV_REGEX_NS}/Robot"
  ++ [DQ] ++ py ")".

(** [CATEGORY_ROBOT_CONFIG] *)
Definition CATEGORY_ROBOT_CONFIG : gmap text RobotConfig :=
  list_to_map [
    (py "classic_cartpole",
     {| import_line := py "from isaaclab_assets.robots.cartpole import CARTPOLE_CFG  # isort:skip";
        cfg_name := py "CARTPOLE_CFG";
        robot_line := replace_call "CARTPOLE_CFG" |});
    (py "manipulation_reach",
     {| import_line := py "from isaaclab_assets.robots.franka import FRANKA_PANDA_HIGH_PD_CFG  # isort: skip";
        cfg_name := py "FRANKA_PANDA_HIGH_PD_CFG";
        robot_line := replace_call "FRANKA_PANDA_HIGH_PD_CFG" |});
    (py "locomotion_flat",
     {| import_line := py "from isaaclab_assets.robots.anymal import ANYMAL_D_CFG  # isort: skip";
        cfg_name := py "ANYMAL_D_CFG";
        robot_line := replace_call "ANYMAL_D_CFG" |});
    (py "locomotion_rough",
     {| import_line := py "from isaaclab_assets.robots.anymal import ANYMAL_D_CFG  # isort: skip";
        cfg_name := py "ANYMAL_D_CFG";
        robot_line := replace_call "ANYMAL_D_CFG" |}) ].

Section PostProcess.
Context `{Unicode}.

(** Pattern A:
    [import\s+isaaclab_tasks\.manager_based\.\S+\.mdp\s+as\s+mdp] *)
Definition task_mdp_pattern : regex :=
  Seq (Lit (py "import")) (Seq (Plus is_space)
  (Seq (Lit (py "isaaclab_tasks.manager_based.")) (Seq (Plus not_space)
  (Seq (Lit (py ".mdp")) (Seq (Plus is_space)
  (Seq (Lit (py "as")) (Seq (Plus is_space) (Lit (py "mdp"))))))))).

(** The common head of patterns B and C:
    [from\s+isaaclab_tasks\.manager_based\.\S+\.mdp\s+import\s+] *)
Definition from_task_mdp (tail : regex) : regex :=
  Seq (Lit (py "from")) (Seq (Plus is_space)
  (Seq (Lit (py "isaaclab_tasks.manager_based.")) (Seq (Plus not_space)
  (Seq (Lit (py ".mdp")) (Seq (Plus is_space)
  (Seq (Lit (py "import")) (Seq (Plus is_space) tail))))))).

(** Pattern B: the head, then [\([^)]*\)\s*\n?] *)
Definition task_mdp_from_pattern : regex :=
  from_task_mdp
    (Seq (Lit (py "(")) (Seq (Star (none_of [41])) (Seq (Lit (py ")"))
    (Seq (Star is_space) (Opt (Lit [NL])))))).

(** Pattern C: the head, then [[^\n(]+\n?] *)
Definition task_mdp_from_single : regex :=
  from_task_mdp (Seq (Plus (none_of [NL; 40])) (Opt (Lit [NL]))).

(** The pattern [^(?:from|import)\s+isaaclab(?!_tasks)\S*[^(\n]*$] with
    [re.MULTILINE] *)
Definition isaaclab_import_line : regex :=
  Seq Bol (Seq (Alt (Lit (py "from")) (Lit (py "import")))
  (Seq (Plus is_space) (Seq (Lit (py "isaaclab"))
  (Seq (NegLook (Lit (py "_tasks"))) (Seq (Star not_space)
  (Seq (Star (none_of [40; NL])) Eol)))))).

(** The pattern, under [re.MULTILINE], made of group 1, which is
    four spaces, [robot], [\s*], optionally a colon with [\s*],
    [ArticulationCfg] and [\s*], then [=] and [\s*]; of the negative
    lookahead for [.*] followed by [.replace] and an opening
    parenthesis; and of [.*$]. *)
Definition inline_robot_pattern : regex :=
  Seq (Group
         (Seq (Lit (py "    robot")) (Seq (Star is_space)
         (Seq (Opt (Seq (Lit (py ":")) (Seq (Star is_space)
                   (Seq (Lit (py "ArticulationCfg")) (Star is_space)))))
         (Seq (Lit (py "=")) (Star is_space))))))
  (Seq (NegLook (Seq (Star not_newline) (Lit (py ".replace("))))
  (Seq (Star not_newline) Eol)).

(** The pattern [ISAACLAB_NUCLEUS_DIR/], between double quotes, of
    the characters other than a double quote *)
Definition literal_nucleus : regex :=
  Seq (Lit (DQ :: py "ISAACLAB_NUCLEUS_DIR/"))
      (Seq (Star (none_of [DQ])) (Lit [DQ])).

Definition core_import : text := py "import isaaclab.envs.mdp as mdp".

(** The loop that counts parentheses over [rest], from character
    [i] on: the offset added to [match.end()] at the [break], or
    [None] when the loop runs to its end. *)
Fixpoint paren_scan (rest tail : text) (i : nat) (paren_depth : Z)
    : option nat :=
  match tail with
  | [] => None
  | char :: tail' =>
      let paren_depth :=
        if char =? 40 then (paren_depth + 1)%Z
        else if char =? 41 then (paren_depth - 1)%Z
        else paren_depth in
      if (paren_depth <=? 0)%Z
      then Some (from_option id (length rest) (find_from NL rest i))
      else paren_scan rest tail' (S i) paren_depth
  end.

(** Step 1, for patterns B and C. *)
Definition replace_from_import (pattern : regex) (fix_note : text)
    (st : text * list text) : text * list text :=
  let '(result, fixes) := st in
  match search pattern result with
  | Some _ =>
      (if negb (contains core_import result)
       then sub pattern (core_import ++ [NL]) result
       else sub pattern [] result,
       fixes ++ [fix_note])
  | None => st
  end.

(** Step 2: the import of the robot configuration. *)
Definition inject_robot_import (robot_cfg : option RobotConfig)
    (st : text * list text) : text * list text :=
  let '(result, fixes) := st in
  match robot_cfg with
  | Some cfg =>
      if negb (contains (cfg_name cfg) result) then
        let import_section_end :=
          foldl (λ _ m, m_end m) 0%nat (finditer isaaclab_import_line result) in
        if (0 <? import_section_end)%nat then
          (take import_section_end result
             ++ [NL; NL] ++ import_line cfg
             ++ drop import_section_end result,
           fixes ++ [py "Injected robot config import: " ++ cfg_name cfg])
        else st
      else st
  | None => st
  end.

(** Step 3: the inline definition of the robot. *)
Definition replace_inline_robot (robot_cfg : option RobotConfig)
    (st : text * list text) : text * list text :=
  let '(result, fixes) := st in
  match robot_cfg with
  | Some cfg =>
      match search inline_robot_pattern result with
      | Some m =>
          if negb (contains (cfg_name cfg) (group0 m result)) then
            let start := m_start m in
            let rest := drop (m_end m) result in
            let head := take (m_end m - start) (drop start result) in
            let paren_depth :=
              (Z.of_nat (count_char 40 head) - Z.of_nat (count_char 41 head))%Z in
            let end_ :=
              (m_end m + from_option id O (paren_scan rest rest 0 paren_depth))%nat in
            let indent := before_first (py "robot") (group1 m result) in
            let replacement :=
              indent ++ py "robot: ArticulationCfg = " ++ robot_line cfg in
            (take start result ++ replacement ++ drop end_ result,
             fixes ++ [py "Replaced inline robot definition with "
                       ++ cfg_name cfg ++ py ".replace()"])
          else st
      | None => st
      end
  | None => st
  end.

(** Step 1, pattern A. *)
Definition replace_task_import (st : text * list text) : text * list text :=
  let '(result, fixes) := st in
  match search task_mdp_pattern result with
  | Some _ =>
      (sub task_mdp_pattern core_import result,
       fixes ++ [py "Replaced task-specific mdp import with isaaclab.envs.mdp"])
  | None => st
  end.

(** Step 4: the literal path that remains is noted, not rewritten. *)
Definition note_literal_nucleus (st : text * list text) : text * list text :=
  let '(result, fixes) := st in
  match search literal_nucleus result with
  | Some _ =>
      (result, fixes ++ [py "Warning: literal ISAACLAB_NUCLEUS_DIR string found in code"])
  | None => st
  end.

Definition post_process_env_cfg (code category : text) : text * list text :=
  let fixes : list text := [] in
  let result := code in
  (* 1. Fix mdp imports: patterns A, B and C *)
  let st := replace_task_import (result, fixes) in
  let st := replace_from_import task_mdp_from_pattern
              (py "Replaced task-specific from-import mdp block with isaaclab.envs.mdp") st in
  let st := replace_from_import task_mdp_from_single
              (py "Replaced task-specific from-import mdp line with isaaclab.envs.mdp") st in
  (* 2. Ensure robot config import exists *)
  let robot_cfg := CATEGORY_ROBOT_CONFIG !! category in
  let st := inject_robot_import robot_cfg st in
  (* 3. Replace inline robot definitions *)
  let st := replace_inline_robot robot_cfg st in
  (* 4. Literal ISAACLAB_NUCLEUS_DIR strings *)
  note_literal_nucleus st.

(** The text holds none of the three shapes of a task-scoped [mdp]
    import and no literal path in double quotes. *)
Definition nothing_to_fix (x : text) : Prop :=
  search task_mdp_pattern x = None
  ∧ search task_mdp_from_pattern x = None
  ∧ search task_mdp_from_single x = None
  ∧ search literal_nucleus x = None.
End PostProcess.

(** ** generator.py: names, responses and files *)

Import ReSplit Str Analyzer.

(** [TASK_ID_MAP] *)
Definition TASK_ID_MAP : gmap text text :=
  list_to_map [
    (py "manipulation_reach", py "RoboSpec-Reach-{robot}-v0");
    (py "classic_cartpole", py "RoboSpec-Cartpole-v0");
    (py "locomotion_flat", py "RoboSpec-Velocity-Flat-{robot}-v0");
    (py "locomotion_rough", py "RoboSpec-Velocity-Rough-{robot}-v0") ].

(** [ROBOT_ID_MAP] *)
Definition ROBOT_ID_MAP : gmap text text :=
  list_to_map [
    (py "franka_panda", py "Franka");
    (py "cartpole", py "Cartpole");
    (py "anymal_d", py "Anymal-D") ].

(** [CATEGORY_APPROVED_FUNCTIONS], each dictionary in its insertion
    order. *)
Definition sections (l : list (string * list string))
    : list (text * list text) :=
  (λ p : string * list string, (py p.1, py <$> p.2)) <$> l.

Definition reach_functions : list (text * list text) :=
  sections [
    ("rewards",
     ["position_command_error"; "position_command_error_tanh";
      "orientation_command_error"; "action_rate_l2"; "joint_vel_l2";
      "joint_acc_l2"; "is_terminated"]);
    ("observations",
     ["joint_pos_rel"; "joint_vel_rel"; "generated_commands"; "last_action"]);
    ("terminations", ["time_out"]);
    ("events", ["reset_joints_by_scale"; "reset_scene_to_default"]);
    ("actions",
     ["JointPositionActionCfg"; "DifferentialInverseKinematicsActionCfg"]);
    ("commands", ["UniformPoseCommandCfg"]) ]%string.

Definition cartpole_functions : list (text * list text) :=
  sections [
    ("rewards",
     ["is_alive"; "is_terminated"; "joint_pos_target_l2";
      "joint_vel_l1"; "joint_vel_l2"; "action_l2"]);
    ("observations", ["joint_pos_rel"; "joint_vel_rel"]);
    ("terminations", ["time_out"; "joint_pos_out_of_manual_limit"]);
    ("events", ["reset_joints_by_offset"]);
    ("actions", ["JointEffortActionCfg"]);
    ("commands", []) ]%string.

Definition locomotion_functions (observations : list string)
    : list (text * list text) :=
  sections [
    ("rewards",
     ["track_lin_vel_xy_exp"; "track_ang_vel_z_exp";
      "lin_vel_z_l2"; "ang_vel_xy_l2"; "flat_orientation_l2";
      "joint_torques_l2"; "action_rate_l2"; "joint_acc_l2";
      "feet_air_time"; "undesired_contacts"; "is_terminated";
      "joint_pos_limits"]);
    ("observations", observations);
    ("terminations", ["time_out"; "illegal_contact"]);
    ("events",
     ["reset_root_state_uniform"; "reset_joints_by_scale";
      "push_by_setting_velocity"; "apply_external_force_torque";
      "randomize_rigid_body_material"; "randomize_rigid_body_mass";
      "randomize_rigid_body_com"]);
    ("actions", ["JointPositionActionCfg"]);
    ("commands", ["UniformVelocityCommandCfg"]) ]%string.

Definition CATEGORY_APPROVED_FUNCTIONS : list (text * list (text * list text)) :=
  [ (py "manipulation_reach", reach_functions);
    (py "classic_cartpole", cartpole_functions);
    (py "locomotion_flat",
     locomotion_functions
       ["base_lin_vel"; "base_ang_vel"; "projected_gravity";
        "joint_pos_rel"; "joint_vel_rel"; "generated_commands";
        "last_action"]%string);
    (py "locomotion_rough",
     locomotion_functions
       ["base_lin_vel"; "base_ang_vel"; "projected_gravity";
        "joint_pos_rel"; "joint_vel_rel"; "generated_commands";
        "last_action"; "height_scan"]%string) ].

(** The characters [[a-z0-9_]]. *)
Definition module_char (c : N) : bool :=
  ((97 <=? c) && (c <=? 122)) || ((48 <=? c) && (c <=? 57)) || (c =? 95).

Section Names.
Context `{Unicode} `{UnicodeData}.

(** The pattern [[^a-z0-9_]] *)
Definition not_module_char : regex := Cls (λ c, negb (module_char c)).

Definition sanitize_module_name (name : text) : text :=
  let name := lower name in
  let name := replace_char 32 95 (replace_char 45 95 name) in
  let name := sub not_module_char [] name in
  match name with
  | c :: _ => if isdigit c then 95 :: name else name
  | [] => name
  end.

Definition _make_task_name (task_spec : TaskSpec) : text :=
  let robot := robot_value (robot task_spec) in
  let category :=
    List.last (split_once 95 (category_value (category task_spec))) [] in
  sanitize_module_name (robot ++ py "_" ++ category).

(** [pattern.format(robot=robot_pretty)] for a pattern whose only
    braces are those of the field [{robot}], as are the values of
    [TASK_ID_MAP] and the default. *)
Definition format_robot (pattern robot_pretty : text) : text :=
  Str.replace (py "{robot}") robot_pretty pattern.

Definition _make_task_id (task_spec : TaskSpec) : text :=
  let pattern :=
    default (py "RoboSpec-Custom-v0")
            (TASK_ID_MAP !! category_value (category task_spec)) in
  let robot_pretty :=
    default (py "Robot") (ROBOT_ID_MAP !! robot_value (robot task_spec)) in
  format_robot pattern robot_pretty.
End Names.

Section Responses.
Context `{Unicode} `{UnicodeData} `{Validator.PyLib}.

(** The loop of [_find_env_cfg_class] over the walk. *)
Fixpoint first_env_cfg_class (nodes : list Validator.node) : option text :=
  match nodes with
  | [] => None
  | Validator.ClassDef name _ :: nodes' =>
      if contains (py "EnvCfg") name then Some name
      else first_env_cfg_class nodes'
  | _ :: nodes' => first_env_cfg_class nodes'
  end.

Definition _find_env_cfg_class (code : text)
    : Validator.outcome (option text) :=
  match Validator.ast_parse code with
  | inl (Validator.SyntaxError _) => Validator.Return None
  | inl e => Validator.Raise e
  | inr tree => Validator.Return (first_env_cfg_class (Validator.walk tree))
  end.

(** The pattern, under [re.MULTILINE], of three backquotes at the
    start of a line, then optionally [python], [bash] or [sh], then
    [\s*] and optionally a line feed *)
Definition opening_fence : regex :=
  Seq Bol (Seq (Lit (py "```"))
    (Seq (Opt (Alt (Lit (py "python")) (Alt (Lit (py "bash")) (Lit (py "sh")))))
    (Seq (Star is_space) (Opt (Lit [NL]))))).

(** The pattern, under [re.MULTILINE], of an optional line feed,
    three backquotes and [\s*] at the end of a line *)
Definition closing_fence : regex :=
  Seq (Opt (Lit [NL])) (Seq (Lit (py "```")) (Seq (Star is_space) Eol)).

Definition _strip_code_fences (code : text) : text :=
  let code := sub opening_fence [] code in
  let code := sub closing_fence [] code in
  strip code.

(** The pattern [###\s*FILE:\s*] *)
Definition file_marker : regex :=
  Seq (Lit (py "###")) (Seq (Star is_space)
    (Seq (Lit (py "FILE:")) (Star is_space))).

(** [files[filename] = content] on a dictionary kept in insertion
    order: a key that is present keeps its place. *)
Fixpoint dict_set (key value : text) (files : list (text * text))
    : list (text * text) :=
  match files with
  | [] => [(key, value)]
  | (k, v) :: files' =>
      if bool_decide (k = key) then (k, value) :: files'
      else (k, v) :: dict_set key value files'
  end.

(** [files.get(key)] *)
Fixpoint dict_get (key : text) (files : list (text * text)) : option text :=
  match files with
  | [] => None
  | (k, v) :: files' =>
      if bool_decide (k = key) then Some v else dict_get key files'
  end.

(** One turn of the loop of [_parse_response]. *)
Definition parse_part (files : list (text * text)) (part : text)
    : list (text * text) :=
  let lines := split_once NL (strip part) in
  match lines with
  | [] => files                                            (* continue *)
  | first :: others =>
      let filename := rstrip_chars (py ":") (strip first) in
      let content := match others with c :: _ => c | [] => [] end in
      dict_set filename (_strip_code_fences content) files
  end.

Definition _parse_response (response task_name : text)
    : list (text * text) :=
  let files : list (text * text) := [] in
  let parts := split file_marker response in
  if (length parts <=? 1)%nat then
    [(task_name ++ py "_env_cfg.py", _strip_code_fences response)]
  else foldl parse_part files (tail parts).

Definition _extract_env_cfg (response task_name : text) : text :=
  let files := _parse_response response task_name in
  let env_cfg_key :=
    head (filter (λ k, contains (py "env_cfg") (lower k) = true) files.*1) in
  match env_cfg_key with
  | Some (c :: k) => default [] (dict_get (c :: k) files)
  | _ => _strip_code_fences response
  end.
End Responses.


End Generator.

(** ** cli.py: the repair orchestrator *)

Module Cli.
Import Re Validator Generator.

Definition MAX_REPAIR_ATTEMPTS : nat := 2.

(** A call of [repair_config]: the code, the errors and the hint it is
    given (the context is the same at every call). *)
Record request := {
  original_code : text;
  error_list : list text;
  whitelist_hint : text;
}.

(** The generator collaborator: the text [repair_config] returns, or
    the exception it raises (with no API key, or when the HTTP call
    fails); either may depend on the requests already served. *)
Class Collaborator := repair_config : list request → request → outcome text.

(** What the pipeline changes outside its variables: the cache of the
    registry and the requests sent to the generator, oldest first. *)
Record world := {
  registry : cache;
  requests : list request;
}.

(** The order of [str], by code points. *)
Fixpoint text_leb (a b : text) : bool :=
  match a, b with
  | [], _ => true
  | _ :: _, [] => false
  | x :: a', y :: b' => (x <? y) || ((x =? y) && text_leb a' b')
  end.

(** [sep.join(l)] *)
Fixpoint join (sep : text) (l : list text) : text :=
  match l with
  | [] => []
  | [x] => x
  | x :: l' => x ++ sep ++ join sep l'
  end.

(** [sorted(s)] for a set of strings. *)
Definition text_le (a b : text) : Prop := text_leb a b = true.

#[export] Instance text_le_dec : RelDecision text_le :=
  λ a b, decide (text_leb a b = true).

Definition sorted (s : gset text) : list text :=
  merge_sort text_le (elements s).

Section Orchestrator.
Context `{Unicode} `{PyLib} `{Collaborator}.
Variable dir : api_dir.

(** [_build_whitelist_hint] *)
Definition _build_whitelist_hint (errors : list text) (c : cache)
    : text * cache :=
  let has_api_errors := existsb (contains (py "Unknown MDP function")) errors in
  if negb has_api_errors then ([], c)
  else
    let '(whitelist, c) := load_api_whitelist dir c in
    (py "AVAILABLE MDP FUNCTIONS (use ONLY these):" ++ [NL]
       ++ join (py ", ") (sorted whitelist), c).

(** The loop [for attempt in range(MAX_REPAIR_ATTEMPTS)] on the
    variables [best_code] and [result]. *)
Fixpoint repair_loop (attempts : list nat) (best_code : text)
    (result : ValidationResult) (w : world)
    : outcome (text * ValidationResult) * world :=
  match attempts with
  | [] => (Return (best_code, result), w)
  | attempt :: attempts' =>
      if is_valid result then (Return (best_code, result), w)   (* break *)
      else
        let '(hint, c) := _build_whitelist_hint (errors result) (registry w) in
        let req := {| original_code := best_code;
                      error_list := errors result;
                      whitelist_hint := hint |} in
        let repaired := repair_config (requests w) req in
        let w := {| registry := c; requests := requests w ++ [req] |} in
        match repaired with
        | Raise e => (Raise e, w)
        | Return repaired_code =>
        let '(best_code, repair_corrections) := auto_correct_code repaired_code in
        match validate_config dir best_code (registry w) with
        | (Raise e, c) =>
            (Raise e, {| registry := c; requests := requests w |})
        | (Return result, c) =>
            repair_loop attempts' best_code result
                        {| registry := c; requests := requests w |}
        end
        end
  end.

(** What step 4 of [_run_pipeline] hands to the later steps: the
    code the loop ends with, its verdict, and the configuration
    text [_build_config] makes of it. *)
Record repaired := {
  final_code : text;
  final_result : ValidationResult;
  env_cfg : text;
}.

(** Step 4 of [_run_pipeline]: auto-correct, validate, repair. *)
Definition run_repair (generated_env_cfg category : text) (w : world)
    : outcome repaired * world :=
  let '(best_code, corrections) := auto_correct_code generated_env_cfg in
  match validate_config dir best_code (registry w) with
  | (Raise e, c) => (Raise e, {| registry := c; requests := requests w |})
  | (Return result, c) =>
      match repair_loop (seq 0 MAX_REPAIR_ATTEMPTS) best_code result
              {| registry := c; requests := requests w |} with
      | (Raise e, w) => (Raise e, w)
      | (Return (best_code, result), w) =>
          (Return {| final_code := best_code;
                     final_result := result;
                     env_cfg := fst (post_process_env_cfg best_code category) |},
           w)
      end
  end.
End Orchestrator.

End Cli.


(** ** scripts/extract_mdp_api.py: the writer of the reference documents *)

Module ExtractMdpApi.
Import Str.

(** An entry of the list [extract_functions_from_file] returns. *)
Record function_doc := {
  name : text;
  signature : text;
  docstring : text;
  params : list (text * text);
}.

(** An entry of the list [extract_classes_from_file] returns. *)
Record class_doc := {
  class_name : text;
  bases : list text;
  class_docstring : text;
}.

(** [doc.split("\n\n")[0].strip()] *)
Definition first_paragraph (doc : text) : text :=
  strip (before_first [NL; NL] doc).

Definition format_function_md (func : function_doc) : text :=
  let lines := [py "### mdp." ++ name func ++ [NL]] in
  let lines := lines ++ [py "**Signature:** `" ++ signature func ++ py "`" ++ [NL]] in
  let first_para := first_paragraph (docstring func) in
  let lines := lines ++ [py "**Description:** " ++ first_para ++ [NL]] in
  let lines :=
    match params func with
    | [] => lines
    | _ :: _ =>
        lines ++ [py "**Parameters:**"]
        ++ ((λ '(name, annotation), py "- `" ++ name ++ py "`: " ++ annotation)
              <$> params func)
        ++ [[]]
    end in
  Cli.join [NL] lines.

Definition format_class_md (cls : class_doc) : text :=
  let lines := [py "### " ++ class_name cls ++ [NL]] in
  let lines :=
    match bases cls with
    | [] => lines
    | _ :: _ =>
        lines ++ [py "**Inherits from:** " ++ Cli.join (py ", ") (bases cls) ++ [NL]]
    end in
  let first_para := first_paragraph (class_docstring cls) in
  let lines := lines ++ [py "**Description:** " ++ first_para ++ [NL]] in
  Cli.join [NL] lines.

(** [md_lines.append(format_function_md(func)); md_lines.append("---\n")]
    for every function. *)
Definition function_lines (functions : list function_doc) : list text :=
  functions ≫= (λ func, [format_function_md func; py "---" ++ [NL]]).

Definition class_lines (classes : list class_doc) : list text :=
  classes ≫= (λ cls, [format_class_md cls; py "---" ++ [NL]]).

(** The text [main] writes for one source file of functions;
    [category] is the title made of the file name and [module] the
    file name without its extension. *)
Definition functions_page (category module : text)
    (functions : list function_doc) : text :=
  let md_lines := [py "# Isaac Lab MDP " ++ category ++ [NL]] in
  let md_lines :=
    md_lines ++ [py "Extracted from `isaaclab.envs.mdp." ++ module ++ py "`" ++ [NL]] in
  let md_lines :=
    md_lines ++ [py "Total functions: "
                 ++ str_of_N (N.of_nat (length functions)) ++ [NL]] in
  let md_lines := md_lines ++ [py "---" ++ [NL]] in
  let md_lines := md_lines ++ function_lines functions in
  Cli.join [NL] md_lines.

(** The text [main] writes for the directory of actions. *)
Definition actions_page (all_classes : list class_doc)
    (all_functions : list function_doc) : text :=
  let md_lines := [py "# Isaac Lab MDP Actions" ++ [NL]] in
  let md_lines :=
    md_lines ++ [py "Extracted from `isaaclab.envs.mdp.actions`" ++ [NL]] in
  let md_lines :=
    md_lines ++ [py "Total action classes: "
                 ++ str_of_N (N.of_nat (length all_classes)) ++ [NL]] in
  let md_lines := md_lines ++ [py "---" ++ [NL]] in
  let md_lines := md_lines ++ class_lines all_classes in
  let md_lines :=
    match all_functions with
    | [] => md_lines
    | _ :: _ =>
        md_lines ++ [[NL] ++ py "## Helper Functions" ++ [NL]]
        ++ function_lines all_functions
    end in
  Cli.join [NL] md_lines.

End ExtractMdpApi.

(** ** Literal patterns: what the matcher computes on them

    The patterns of the auto-corrector are a literal followed by
    [\b].  The functions below say directly what the matcher finds and
    builds for such a pattern, and the checks decide, on a table, the
    conditions under which rewriting by one entry cannot make or
    break a match of another. *)

Module Literal.
Import Validator.

Section Literal.
Context `{Unicode}.

(** [p] followed by a character that is not a word character, or by
    the end of the text: what [p\b] matches when [p] ends with a
    word character. *)
Fixpoint matches_then (p s : text) : bool :=
  match p with
  | [] => negb (is_wordo (head s))
  | c :: p' =>
      match s with
      | d :: s' => (c =? d) && matches_then p' s'
      | [] => false
      end
  end.

Fixpoint occurs (p s : text) : bool :=
  matches_then p s ||
  match s with
  | [] => false
  | _ :: s' => occurs p s'
  end.

(** The text [sub] builds for such a pattern. *)
Fixpoint rewrite_go (p repl : text) (skip : nat) (s : text) : text :=
  match skip with
  | S skip' =>
      match s with
      | [] => []
      | _ :: s' => rewrite_go p repl skip' s'
      end
  | O =>
      if matches_then p s then
        repl ++ match s with
                | [] => []
                | _ :: s' => rewrite_go p repl (pred (length p)) s'
                end
      else
        match s with
        | [] => []
        | d :: s' => d :: rewrite_go p repl 0 s'
        end
  end.

Definition ends_with_word (w : text) : bool := is_wordo (last w).

(** The alias and the dot that every pattern of the table starts with. *)
Definition alias_dot : text := py "mdp.".

(** Can [q], then a boundary, match at the start of [r ++ x] for some
    [x] that does not start with a word character?  (An upper
    bound, decided on [q] and [r] alone.) *)
Fixpoint may_match (q r : text) : bool :=
  match q, r with
  | [], [] => true
  | [], c :: _ => negb (is_word c)
  | c :: _, [] => negb (is_word c)
  | c :: q', d :: r' => (c =? d) && may_match q' r'
  end.

(** The same for some [x] whatsoever. *)
Fixpoint may_match_open (q r : text) : bool :=
  match q, r with
  | [], [] => true
  | [], c :: _ => negb (is_word c)
  | _ :: _, [] => true
  | c :: q', d :: r' => (c =? d) && may_match_open q' r'
  end.

(** No non-empty suffix of [q] can match at the start of [r ++ x]. *)
Fixpoint suffixes_miss (q r : text) : bool :=
  match q with
  | [] => true
  | _ :: q' => negb (may_match q r) && suffixes_miss q' r
  end.

Fixpoint suffixes_miss_open (q r : text) : bool :=
  match q with
  | [] => true
  | _ :: q' => negb (may_match_open q r) && suffixes_miss_open q' r
  end.

(** [q] can match at no non-empty suffix of [r], followed by [x]. *)
Fixpoint misses_inside (q r : text) : bool :=
  match r with
  | [] => true
  | _ :: r' => negb (may_match q r) && misses_inside q r'
  end.

Definition wrong_pattern (w : text) : text := alias_dot ++ w.

(** A wrong name is not empty and ends with a word character. *)
Definition entry_ok (e : text * option text) : bool :=
  match e with
  | (w, Some _) => negb (text_eqb w []) && ends_with_word w
  | (_, None) => true
  end.

(** Rewriting by [e1] makes no occurrence of the pattern of [e2]. *)
Definition pair_ok (e1 e2 : text * option text) : bool :=
  match e1, e2 with
  | (w1, Some r1), (w2, Some _) =>
      suffixes_miss (wrong_pattern w2) (alias_dot ++ r1)
      && misses_inside (wrong_pattern w2) (alias_dot ++ r1)
  | _, _ => true
  end.

Definition table_ok (table : list (text * option text)) : bool :=
  forallb entry_ok table
  && forallb (λ e1, forallb (pair_ok e1) table) table.

(** No pattern of the table occurs in [s]. *)
Definition clean (table : list (text * option text)) (s : text) : Prop :=
  ∀ w r, (w, Some r) ∈ table → occurs (wrong_pattern w) s = false.

(** What the occurrence needs of an entry of the table. *)
Definition entry_local (e : text * option text) : bool :=
  match e with
  | (w, Some _) =>
      entry_ok e && forallb is_word w
      && suffixes_miss_open (tail (wrong_pattern w)) alias_dot
  | (_, None) => true
  end.

(** The text after one turn of the loop of [auto_correct_code]. *)
Definition text_step (s : text) (e : text * option text) : text :=
  match e with
  | (w, Some r) => rewrite_go (wrong_pattern w) (alias_dot ++ r) 0 s
  | (_, None) => s
  end.

Definition table_local (table : list (text * option text)) : bool :=
  forallb entry_local table.
End Literal.

End Literal.


(** ** The verdict, check by check

    The messages of the checks of [validate_config] and, for each
    check, what it looks for in the tree. *)

Module Verdict.
Import Validator.

Definition missing_env_cfg : text :=
  py "Missing environment config class: no class with 'EnvCfg' in name found".
Definition missing_rewards_cfg : text :=
  py "Missing rewards config: no class with 'RewardsCfg' in name found".
Definition missing_post_init : text := py "Missing __post_init__ method".
Definition missing_isaac_import : text :=
  py "Missing Isaac Lab imports: no imports from 'isaaclab' or 'omni.isaac' found".
Definition literal_path : text :=
  py "Literal ISAACLAB_NUCLEUS_DIR string found " ++ [8212]
  ++ py " use pre-built robot config (e.g. CARTPOLE_CFG.replace(prim_path='{ENV_REGEX_NS}/Robot')) instead".

Definition task_import_warning : text :=
  py "Task-specific mdp import found (isaaclab_tasks.manager_based.*.mdp). Use 'import isaaclab.envs.mdp as mdp' for external configs.".

(** The first line of the hint of a repair request. *)
Definition hint_header : text := py "AVAILABLE MDP FUNCTIONS (use ONLY these):".

(** An import statement that names Isaac Lab. *)
Definition isaac_import (n : node) : bool :=
  match n with
  | Import names => existsb is_isaac names
  | ImportFrom (Some module) _ => is_isaac module
  | _ => false
  end.

(** The code holds the reserved path at the start of a string
    literal. *)
Definition has_literal_path (code : text) : bool :=
  contains (DQ :: py "ISAACLAB_NUCLEUS_DIR/") code
  || contains (SQ :: py "ISAACLAB_NUCLEUS_DIR/") code.

(** The number a text of decimal digits writes. *)
Definition is_decimal (c : N) : bool := (48 <=? c) && (c <=? 57).
Definition decimal_value (s : text) : N :=
  foldl (λ a d, 10 * a + (d - 48)) 0 s.

(** The line of a syntax error, as the message writes it: [None], or
    the decimal digits of the number. *)
Definition names_line (line : text) (l : option N) : Prop :=
  match l with
  | None => line = py "None"
  | Some n =>
      line ≠ [] ∧ Forall (λ d, is_decimal d = true) line
      ∧ decimal_value line = n
  end.

(** The exception the loop over the reward weights raises at a
    node, if any: that of [abs] on the operand of a unary minus, or
    that of the f-string on the constant of a large weight. *)
Definition weight_raise `{PyLib} (n : node) : option exn :=
  match n with
  | keyword (Some arg) value =>
      if bool_decide (arg = py "weight") then
        match value with
        | Constant c =>
            if is_int_or_float c then
              match py_abs c with
              | Raise e => Some e
              | Return weight =>
                  if gt_ten weight
                  then match str_constant c with
                       | Raise e => Some e
                       | Return _ => None
                       end
                  else None
              end
            else None
        | UnaryOp USub (Constant c) =>
            match py_abs c with
            | Raise e => Some e
            | Return weight =>
                if gt_ten weight
                then match str_constant c with
                     | Raise e => Some e
                     | Return _ => None
                     end
                else None
            end
        | _ => None
        end
      else None
  | _ => None
  end.

(** The invariant of the checks: the errors so far, a flag that is
    true while there is none, and the warnings so far. *)
Definition tracks (r : ValidationResult) (es ws : list text) : Prop :=
  errors r = es ∧ is_valid r = bool_decide (es = [])
  ∧ warnings r = ws ∧ corrections r = [].

Section Verdict.
Context `{Unicode} `{PyLib}.

(** The errors of a verdict on a text that parses, check by check,
    in the order of the checks. *)
Definition errors_of (tree : node) (code : text) (whitelist : gset text)
    : list text :=
  let class_names := omap class_name (walk tree) in
  let method_names := omap method_name (walk tree) in
  (if existsb (contains (py "EnvCfg")) class_names then [] else [missing_env_cfg])
  ++ (if existsb (contains (py "RewardsCfg")) class_names then []
      else [missing_rewards_cfg])
  ++ (if bool_decide (py "__post_init__" ∈ method_names) then []
      else [missing_post_init])
  ++ (if foldl import_step false (walk tree) then [] else [missing_isaac_import])
  ++ (if bool_decide (whitelist ≠ ∅)
      then unknown_message whitelist <$> unknown_names whitelist tree else [])
  ++ (if has_literal_path code then [literal_path] else []).
End Verdict.

End Verdict.

(** ** The repair requests, and the verdict of a text *)

Module Pipeline.
Import Validator Cli.

Section Pipeline.
Context `{Unicode} `{PyLib}.

(** [result] is the verdict of [code] under the registry [c],
    whatever the reference directory holds. *)
Definition verdict_of (code : text) (result : ValidationResult) (c : cache)
    : Prop :=
  ∀ dir, validate_config dir code c = (Return result, c).

(** A request about a text the auto-corrector leaves alone, with
    the errors of its verdict, which is invalid, and the hint made
    of them. *)
Definition sound_request (dir : api_dir) (req : request) : Prop :=
  auto_correct_code (original_code req) = (original_code req, [])
  ∧ (∃ c v, verdict_of (original_code req) v c
            ∧ is_valid v = false ∧ error_list req = errors v)
  ∧ ∃ c, whitelist_hint req
         = fst (_build_whitelist_hint dir (error_list req) c).
End Pipeline.

End Pipeline.

(** ** Steps that report what they rewrite *)

Module Reporting.

(** A step of the normaliser only appends to the list of fixes, and
    it changes the text only when it appends. *)
Definition reports (step : text * list text → text * list text) : Prop :=
  ∀ st, ∃ new, snd (step st) = snd st ++ new
               ∧ (new = [] → fst (step st) = fst st).

End Reporting.

(** ** The shape of a module name *)

Module NameShape.
Import Str Generator.

(** Characters of [[a-z0-9_]], and no digit in front. *)
Definition sanitized `{UnicodeData} (s : text) : Prop :=
  Forall (λ c, module_char c = true) s
  ∧ ∀ c, head s = Some c → isdigit c = false.

End NameShape.

(** ** The format of a response with files *)

Module ResponseFormat.
Import Str.

(** A file of a response: its name, its text and the white space
    that follows it. *)
Record file_section := {
  file_name : text;
  block : text;
  gap : text;
}.

Definition marker : text := py "### FILE: ".

(** The part of the response after the marker. *)
Definition body_of (f : file_section) : text :=
  file_name f ++ [NL] ++ block f ++ gap f.

(** The marker, the name on its line, the text, the white space. *)
Definition render (f : file_section) : text := marker ++ body_of f.

(** A text without three number signs in a row that does not end
    with one: no marker can start in it or across its end. *)
Definition hash_free (s : text) : Prop :=
  contains (py "###") s = false ∧ last s ≠ Some 35.

(** A name on one line, without white space at its ends and without
    a colon at its end. *)
Definition plain_name (n : text) : Prop :=
  n ≠ [] ∧ strip n = n ∧ (NL ∉ n) ∧ (last n ≠ Some 58)
  ∧ contains (py "###") n = false.

(** A text that is not empty and does not end with white space,
    followed by white space only. *)
Definition plain_section (f : file_section) : Prop :=
  plain_name (file_name f)
  ∧ block f ≠ [] ∧ rstrip (block f) = block f ∧ hash_free (block f)
  ∧ Forall (λ c, is_space c = true) (gap f).

End ResponseFormat.

(** ** The shape of a heading *)

Module HeadingShape.
Import Re.

(** A match of a heading pattern is made of three number signs and
    of characters that are not number signs. *)
Definition heading_shaped `{Unicode} (r : regex) : Prop :=
  ∀ pos prev (s : text) m,
    match_here r pos prev s = Some m →
    ∃ M rest, s = py "###" ++ M ++ rest ∧ Forall (λ c, c ≠ 35) M
              ∧ m_end m = (pos + 3 + length M)%nat.

End HeadingShape.

(** ** Sample instances, to run the definitions *)

Module Samples.
Import Validator Cli.

(** The word characters of Latin-1 above 128: the letters and the
    characters that [str.isalnum] takes for numbers (the superscripts
    and the fractions). *)
#[export] Instance latin1_word : Unicode := λ c,
  (c =? 170) || (c =? 178) || (c =? 179) || (c =? 181) || (c =? 185)
  || (c =? 186) || ((188 <=? c) && (c <=? 190))
  || ((192 <=? c) && (c <=? 214)) || ((216 <=? c) && (c <=? 246))
  || ((248 <=? c) && (c <=? 255)).

(** The characters of Latin-1 that an identifier of Python holds
    after its first character ([str.isidentifier]): above 128, the
    letters and the middle dot [U+00B7], which is no word
    character. *)
Definition latin1_identifier (c : N) : bool :=
  if c <? 128 then ascii_word c
  else (c =? 170) || (c =? 181) || (c =? 183) || (c =? 186)
       || ((192 <=? c) && (c <=? 214)) || ((216 <=? c) && (c <=? 246))
       || ((248 <=? c) && (c <=? 255)).

(** [track_lin_vel_xy], a wrong name of the table, extended by a
    middle dot and [exp]. *)
Definition dotted_name : text := py "track_lin_vel_xy" ++ 183 :: py "exp".

(** [class Broken(], which does not parse. *)
Definition src_broken : text := py "class Broken(".

(** The same after eleven empty lines. *)
Definition src_broken_late : text := replicate 11 NL ++ py "class Broken(".

(** [x = mdp.fake_func] *)
Definition src_fake : text := py "x = mdp.fake_func".
Definition tree_fake : node :=
  Other [Other [Name (py "x"); Attribute (Name (py "mdp")) (py "fake_func")]].

(** [x = mdp.fake_func] and [y = mdp.fake_func] on two lines. *)
Definition src_twice : text :=
  py "x = mdp.fake_func" ++ [NL] ++ py "y = mdp.fake_func".
Definition tree_twice : node :=
  Other [Other [Name (py "x"); Attribute (Name (py "mdp")) (py "fake_func")];
         Other [Name (py "y"); Attribute (Name (py "mdp")) (py "fake_func")]].

(** [f(weight=-'a')]: a call with a keyword [weight] whose value is
    the negation of a string. *)
Definition src_weight : text := py "f(weight=-'a')".
Definition tree_weight : node :=
  Other [Other [Other [Name (py "f");
                       keyword (Some (py "weight"))
                               (UnaryOp USub (Constant (CStr (py "a"))))]]].

(** [f(weight='a')]: the same string, not negated. *)
Definition src_weight_str : text := py "f(weight='a')".
Definition tree_weight_str : node :=
  Other [Other [Other [Name (py "f");
                       keyword (Some (py "weight")) (Constant (CStr (py "a")))]]].

(** [f(weight=50)] and [f(weight=-50)] *)
Definition src_weight_50 : text := py "f(weight=50)".
Definition tree_weight_50 : node :=
  Other [Other [Other [Name (py "f");
                       keyword (Some (py "weight")) (Constant (CInt 50))]]].
Definition src_weight_minus_50 : text := py "f(weight=-50)".
Definition tree_weight_minus_50 : node :=
  Other [Other [Other [Name (py "f");
                       keyword (Some (py "weight"))
                               (UnaryOp USub (Constant (CInt 50)))]]].

(** A configuration that passes the structural checks: an import of
    [isaaclab.envs], a class [RewardsCfg] and a class [MyEnvCfg] with
    a method [__post_init__]. *)
Definition src_valid : text := concat ((λ s, py s ++ [NL]) <$> [
  "from isaaclab.envs import X";
  "class RewardsCfg:";
  "    pass";
  "class MyEnvCfg:";
  "    def __post_init__(self):";
  "        pass" ]%string).
Definition tree_valid : node :=
  Other [ImportFrom (Some (py "isaaclab.envs")) [py "X"];
         ClassDef (py "RewardsCfg") [leaf];
         ClassDef (py "MyEnvCfg")
           [FunctionDef (py "__post_init__") [Other [leaf]; leaf]]].

(** [f(weight=0x1000...0)], with 3600 zeros: an integer of 4335
    digits, above the default limit of the conversion to text. *)
Definition huge : Z := (2 ^ 14400)%Z.
Definition src_weight_huge : text :=
  py "f(weight=0x1" ++ replicate 3600 48 ++ py ")".
Definition tree_weight_huge : node :=
  Other [Other [Other [Name (py "f");
                       keyword (Some (py "weight")) (Constant (CInt huge))]]].

(** A lone surrogate, and a null character. *)
Definition src_surrogate : text := [55296].
Definition src_null : text := [0].

Definition is_surrogate (c : N) : bool := (55296 <=? c) && (c <=? 57343).

(** The parser on the sample sources, as CPython 3.11 parses them:
    it raises [UnicodeEncodeError] on a text with a surrogate and
    [ValueError] on a text with a null character; the sample treats
    every other text as a syntax error. *)
Definition sample_parse (code : text) : exn + node :=
  if existsb is_surrogate code then inl UnicodeEncodeError
  else if existsb (N.eqb 0) code then inl ValueError
  else if text_eqb code src_broken
  then inl (SyntaxError {| lineno := Some 1; msg := py "'(' was never closed" |})
  else if text_eqb code src_broken_late
  then inl (SyntaxError {| lineno := Some 12; msg := py "'(' was never closed" |})
  else if text_eqb code src_weight_huge then inr tree_weight_huge
  else if text_eqb code src_fake then inr tree_fake
  else if text_eqb code src_twice then inr tree_twice
  else if text_eqb code src_weight then inr tree_weight
  else if text_eqb code src_weight_str then inr tree_weight_str
  else if text_eqb code src_weight_50 then inr tree_weight_50
  else if text_eqb code src_weight_minus_50 then inr tree_weight_minus_50
  else if text_eqb code src_valid then inr tree_valid
  else inl (SyntaxError {| lineno := Some 1; msg := py "invalid syntax" |}).

(** The text of a constant, for the integers, booleans, strings and
    [None]; the sample prints no other constant.  An integer of more
    than 4300 digits raises [ValueError], as under the default of
    [sys.set_int_max_str_digits]. *)
Definition sample_str (c : constant) : outcome text :=
  match c with
  | CInt z => if (10 ^ 4300 <=? Z.abs z)%Z then Raise ValueError
              else if (z <? 0)%Z then Return (py "-" ++ str_of_N (Z.to_N (- z)))
              else Return (str_of_N (Z.to_N z))
  | CBool b => Return (if b then py "True" else py "False")
  | CStr s => Return s
  | CNone => Return (py "None")
  | _ => Return []
  end.

(** A library whose [difflib] finds no close match. *)
#[export] Instance sample_lib : PyLib := {|
  ast_parse := sample_parse;
  get_close_matches := λ _ _, [];
  str_constant := sample_str;
|}.

(** A library whose [difflib] offers [action_rate_l2] for
    [action_rate_l3], as the real one does. *)
Definition suggesting_lib : PyLib := {|
  ast_parse := sample_parse;
  get_close_matches := λ word _,
    if text_eqb word (py "action_rate_l3") then [py "action_rate_l2"] else [];
  str_constant := sample_str;
|}.

(** A generator that answers every request with [f(weight=-'a')]. *)
#[export] Instance sample_generator : Collaborator :=
  λ _ _, Return src_weight.

(** Generators that answer every request with the configuration
    that passes, and with [x = mdp.fake_func]. *)
Definition helpful_generator : Collaborator := λ _ _, Return src_valid.
Definition stubborn_generator : Collaborator := λ _ _, Return src_fake.

(** A generator without an API key. *)
Definition keyless_generator : Collaborator := λ _ _, Raise RuntimeError.

Definition empty_world : world := {| registry := None; requests := [] |}.

Definition unknown_category : text := py "unknown_category".

(** An import of a task-scoped [mdp] module. *)
Definition src_task_import : text :=
  py "import isaaclab_tasks.manager_based.classic.cartpole.mdp as mdp".

(** The text of [test_unknown_category_is_noop]. *)
Definition src_plain : text :=
  py "import isaaclab.envs.mdp as mdp" ++ [NL] ++ py "class Foo:" ++ [NL]
  ++ py "    pass" ++ [NL].

Definition sample_whitelist : gset text := {[ py "is_alive" ]}.

(** The verdict on [x = mdp.fake_func] without a registry: the four
    structural errors. *)
Definition verdict_fake : ValidationResult :=
  {| is_valid := false;
     errors := [
       py "Missing environment config class: no class with 'EnvCfg' in name found";
       py "Missing rewards config: no class with 'RewardsCfg' in name found";
       py "Missing __post_init__ method";
       py "Missing Isaac Lab imports: no imports from 'isaaclab' or 'omni.isaac' found" ];
     warnings := [];
     corrections := [] |}.

(** A reference document with two function headings and a class
    heading. *)
Definition sample_reference : text :=
  py "# Rewards" ++ [NL] ++ py "### mdp.is_alive" ++ [NL] ++ py "Alive bonus." ++ [NL]
  ++ py "###  mdp.lin_vel_z_l2(env)" ++ [NL] ++ py "### JointEffortActionCfg" ++ [NL]
  ++ py "#### mdp.not_a_heading" ++ [NL].

(** The sources of the tests of [post_process_env_cfg]. *)
Definition lines (l : list string) : text :=
  concat ((λ s, py s ++ [NL]) <$> l).

Definition src_cartpole_task_import : text := lines [
  "import isaaclab_tasks.manager_based.classic.cartpole.mdp as mdp";
  "class RewardsCfg:";
  "    alive = RewTerm(func=mdp.is_alive)" ]%string.

Definition src_missing_robot : text := lines [
  "from isaaclab.envs import ManagerBasedRLEnvCfg";
  "from isaaclab.utils import configclass";
  "";
  "@configclass";
  "class MySceneCfg:";
  "    robot: ArticulationCfg = MISSING" ]%string.

Definition src_inline_robot : text :=
  lines [
    "from isaaclab.envs import ManagerBasedRLEnvCfg";
    "from isaaclab_assets.robots.cartpole import CARTPOLE_CFG  # isort:skip";
    "";
    "class MySceneCfg:";
    "    robot: ArticulationCfg = AssetBaseCfg(" ]%string
  ++ py "        asset_path=" ++ [DQ]
  ++ py "ISAACLAB_NUCLEUS_DIR/Robots/Classic/Cartpole/cartpole.usd" ++ [DQ]
  ++ py "," ++ [NL] ++ py "    )" ++ [NL].

Definition src_correct_franka : text :=
  lines [
    "from isaaclab.envs import ManagerBasedRLEnvCfg";
    "from isaaclab_assets.robots.franka import FRANKA_PANDA_HIGH_PD_CFG  # isort: skip";
    "import isaaclab.envs.mdp as mdp";
    "";
    "class MySceneCfg:" ]%string
  ++ py "    robot: ArticulationCfg = "
  ++ Generator.replace_call "FRANKA_PANDA_HIGH_PD_CFG" ++ [NL].

End Samples.

(** ** More sample instances and texts *)

Module MoreSamples.
Import Validator Cli Str Analyzer ExtractMdpApi ResponseFormat Samples.

(** Unicode data for texts that are ASCII: a character above 128 is
    its own lower case and is no digit. *)
#[export] Instance ascii_data : UnicodeData := {|
  unicode_lower := λ s i, from_option (λ c, [c]) [] (s !! i);
  unicode_digit := λ _, false;
|}.

(** A verdict with one unknown function. *)
Definition unknown_fake : text := py "Unknown MDP function: mdp.fake_func.".

(** [print("hello")], alone and fenced, as in the tests. *)
Definition src_hello : text :=
  py "print(" ++ [DQ] ++ py "hello" ++ [DQ] ++ py ")".

Definition fenced (lang body : text) : text :=
  py "```" ++ lang ++ [NL] ++ body ++ [NL] ++ py "```".

(** The response of [test_no_markers_fallback]. *)
Definition response_plain : text :=
  py "import isaaclab" ++ [NL] ++ py "class MyEnvCfg:" ++ [NL] ++ py "    pass".

(** The files of the response of [test_multi_file_response]. *)
Definition src_reach : text :=
  py "import isaaclab" ++ [NL] ++ py "class ReachEnvCfg:" ++ [NL] ++ py "    pass".

Definition file_reach : file_section :=
  {| file_name := py "reach_env_cfg.py";
     block := fenced (py "python") src_reach;
     gap := [NL; NL] |}.

Definition file_init : file_section :=
  {| file_name := py "__init__.py"; block := py "import gym"; gap := [NL; NL] |}.

Definition file_train : file_section :=
  {| file_name := py "train.sh";
     block := fenced (py "bash") (py "python train.py");
     gap := [] |}.

Definition response_files : list file_section :=
  [file_reach; file_init; file_train].

(** Two functions and a class as the extraction script records
    them. *)
Definition doc_is_alive : function_doc := {|
  name := py "is_alive";
  signature := py "is_alive(env: ManagerBasedRLEnv) -> torch.Tensor";
  docstring := py "Reward for being alive." ++ [NL; NL] ++ py "More.";
  params := [(py "env", py "ManagerBasedRLEnv")];
|}.

Definition doc_action_l2 : function_doc := {|
  name := py "action_l2";
  signature := py "action_l2(env)";
  docstring := py "No description available.";
  params := [];
|}.

Definition doc_joint_effort : class_doc := {|
  class_name := py "JointEffortActionCfg";
  bases := [py "JointActionCfg"];
  class_docstring := py "Configuration for the joint effort action term.";
|}.

Definition sample_task : TaskSpec := {|
  category := LOCOMOTION_FLAT;
  robot := ANYMAL_D;
  description := py "Walk forward on flat ground";
  objectives := [];
  constraints := [];
  difficulty := py "medium";
  num_envs := 4096;
|}.

End MoreSamples.

(** * Properties *)


(** ** The matcher on the patterns of the auto-corrector *)

Module ReFacts.
Import Re Literal.

Section Literal.
Context `{Unicode}.


Lemma lit_app {R} (l1 l2 : text) pos prev s g (k : cont R) :
  lit (l1 ++ l2) pos prev s g k
  = lit l1 pos prev s g (λ pos' prev' s' g', lit l2 pos' prev' s' g' k).
Proof.
  revert pos prev s. induction l1 as [|c l1 IH]; intros pos prev s; [done|].
  simpl. destruct s as [|d s]; [done|]. destruct (c =? d); [apply IH|done].
Qed.

(** A literal that ends with a word character, then [\b]. *)
Lemma lit_boundary {R} (w : text) pos prev s g (k : cont R) :
  w ≠ [] → ends_with_word w = true →
  lit w pos prev s g
    (λ pos' prev' s' g',
       if xorb (is_wordo prev') (is_wordo (head s')) then k pos' prev' s' g'
       else None)
  = if matches_then w s
    then k (pos + length w)%nat (last w) (drop (length w) s) g
    else None.
Proof.
  revert pos prev s. induction w as [|c w IH]; intros pos prev s Hne Hw; [done|].
  destruct s as [|d s]; [done|]. simpl.
  destruct (N.eqb_spec c d) as [->|Hcd]; [|done]. simpl.
  destruct w as [|c' w].
  - simpl. unfold ends_with_word in Hw. simpl in Hw. rewrite Hw. simpl.
    replace (pos + 1)%nat with (S pos) by lia. done.
  - rewrite IH; [|done|done].
    replace (S pos + length (c' :: w))%nat with (pos + S (length (c' :: w)))%nat by lia.
    done.
Qed.

Lemma matches_then_app (a b s : text) :
  matches_then (a ++ b) s
  = starts_with a s && matches_then b (drop (length a) s).
Proof.
  revert s. induction a as [|c a IH]; intros s; [done|].
  destruct s as [|d s]; [done|]. simpl. rewrite IH. by rewrite andb_assoc.
Qed.

Lemma lit_starts {R} (l : text) pos prev s g (k : cont R) :
  l ≠ [] →
  lit l pos prev s g k
  = if starts_with l s
    then k (pos + length l)%nat (last l) (drop (length l) s) g
    else None.
Proof.
  revert pos prev s. induction l as [|c l IH]; intros pos prev s Hne; [done|].
  destruct s as [|d s]; [done|]. simpl.
  destruct (N.eqb_spec c d) as [->|Hcd]; [|done]. simpl.
  destruct l as [|c' l].
  - simpl. replace (pos + 1)%nat with (S pos) by lia. done.
  - rewrite IH; [|done].
    replace (S pos + length (c' :: l))%nat with (pos + S (length (c' :: l)))%nat by lia.
    done.
Qed.


Lemma match_here_correction (w : text) pos prev s :
  w ≠ [] → ends_with_word w = true →
  match_here (Validator.correction_pattern w) pos prev s
  = if matches_then (alias_dot ++ w) s
    then Some (RMatch pos (pos + length (alias_dot ++ w)) None)
    else None.
Proof.
  intros Hne Hw. unfold match_here, Validator.correction_pattern.
  cbn [run]. rewrite lit_starts; [|done].
  rewrite matches_then_app. fold alias_dot.
  destruct (starts_with alias_dot s); [|done]. simpl andb.
  rewrite lit_boundary; [|done|done].
  destruct (matches_then w _); [|done].
  rewrite length_app. f_equal. f_equal. lia.
Qed.

Lemma search_go_correction (w : text) pos prev s :
  w ≠ [] → ends_with_word w = true →
  is_Some (search_go (Validator.correction_pattern w) pos prev s)
  ↔ occurs (alias_dot ++ w) s = true.
Proof.
  intros Hne Hw. revert pos prev.
  induction s as [|d s IH]; intros pos prev.
  - cbn [search_go occurs]. rewrite match_here_correction by done.
    destruct (matches_then _ _); simpl; [by split; eauto|].
    split; [by intros [? ?]|done].
  - cbn [search_go occurs]. rewrite match_here_correction by done.
    destruct (matches_then _ _); simpl; [by split; eauto|].
    apply IH.
Qed.

Lemma sub_go_correction (w repl : text) skip pos prev s :
  w ≠ [] → ends_with_word w = true →
  sub_go (Validator.correction_pattern w) repl skip pos prev s
  = rewrite_go (alias_dot ++ w) repl skip s.
Proof.
  intros Hne Hw. revert skip pos prev.
  induction s as [|d s IH]; intros skip pos prev.
  - destruct skip; [|done]. cbn [sub_go rewrite_go].
    rewrite match_here_correction by done.
    by destruct (matches_then _ _).
  - destruct skip as [|skip]; [|apply IH]. cbn [sub_go rewrite_go].
    rewrite match_here_correction by done.
    destruct (matches_then _ _); [|by rewrite IH].
    cbn [m_end]. f_equal.
    replace (pos + length (alias_dot ++ w) - pos)%nat
      with (S (pred (length (alias_dot ++ w)))) by (rewrite length_app; simpl; lia).
    apply IH.
Qed.
End Literal.

End ReFacts.

(** ** Rewriting one literal pattern *)

Module RewriteFacts.
Import Re Literal ReFacts.

Section Checks.
Context `{Unicode}.


Lemma may_match_sound (q r x : text) :
  is_wordo (head x) = false →
  matches_then q (r ++ x) = true → may_match q r = true.
Proof.
  intros Hx. revert q. induction r as [|d r IH]; intros q.
  - destruct q as [|c q]; [done|]. simpl.
    destruct x as [|e x]; [done|]. simpl in Hx.
    destruct (N.eqb_spec c e) as [->|]; [|done]. by rewrite Hx.
  - destruct q as [|c q]; [done|]. simpl.
    destruct (c =? d); [apply IH|done].
Qed.

Lemma may_match_open_sound (q r x : text) :
  matches_then q (r ++ x) = true → may_match_open q r = true.
Proof.
  revert q. induction r as [|d r IH]; intros q.
  - by destruct q.
  - destruct q as [|c q]; [done|]. simpl.
    destruct (c =? d); [apply IH|done].
Qed.
End Checks.

Section Rewrite.
Context `{Unicode}.

Lemma matches_then_nil q : q ≠ [] → matches_then q [] = false.
Proof. by destruct q. Qed.

Lemma drop_length_cons (q : text) d (s : text) :
  q ≠ [] → drop (length q) (d :: s) = drop (pred (length q)) s.
Proof. by destruct q. Qed.

Lemma head_app_same (a b x y : text) :
  a ≠ [] → head b = head a → head (b ++ x) = head (a ++ y).
Proof. by destruct a, b. Qed.

Variables p repl : text.
Hypothesis p_nonempty : p ≠ [].
Hypothesis same_head : head repl = head p.

Local Abbreviation rw := (rewrite_go p repl).

Lemma rw_nil skip : rw skip [] = [].
Proof using p_nonempty.
  destruct skip; [|done]. simpl. by rewrite matches_then_nil.
Qed.

Lemma rw_skip skip s : rw skip s = rw 0 (drop skip s).
Proof using p_nonempty.
  revert s. induction skip as [|skip IH]; intros s; [done|].
  destruct s as [|d s]; [by rewrite drop_nil, !rw_nil|]. apply IH.
Qed.

Lemma matches_then_inv q s :
  matches_then q s = true →
  s = q ++ drop (length q) s ∧ is_wordo (head (drop (length q) s)) = false.
Proof.
  revert s. induction q as [|c q IH]; intros s Hm.
  - simpl in *. split; [done|]. by apply negb_true_iff.
  - destruct s as [|d s]; [done|]. simpl in Hm.
    apply andb_true_iff in Hm as [Hc Hm]. apply N.eqb_eq in Hc as ->.
    destruct (IH _ Hm) as [Hs Hw]. simpl. split; [by f_equal|done].
Qed.

Lemma rw_match s :
  matches_then p s = true →
  rw 0 s = repl ++ rw 0 (drop (length p) s).
Proof using p_nonempty.
  intros Hm. destruct s as [|d s]; [by rewrite matches_then_nil in Hm|].
  cbn [rewrite_go]. rewrite Hm. f_equal. rewrite rw_skip.
  by rewrite drop_length_cons.
Qed.

Lemma rw_miss d s :
  matches_then p (d :: s) = false → rw 0 (d :: s) = d :: rw 0 s.
Proof. intros Hm. cbn [rewrite_go]. by rewrite Hm. Qed.

(** The first character is kept. *)
Lemma rw_head s : head (rw 0 s) = head s.
Proof using p_nonempty same_head.
  destruct (matches_then p s) eqn:Hm.
  - rewrite rw_match by done. apply matches_then_inv in Hm as [Hs _].
    rewrite Hs. by apply head_app_same.
  - destruct s as [|d s]; [by rewrite rw_nil|]. by rewrite rw_miss.
Qed.

(** A match at the start of the rewritten text was there before. *)
Lemma matches_then_rw q s :
  suffixes_miss q repl = true →
  matches_then q (rw 0 s) = true → matches_then q s = true.
Proof using p_nonempty same_head.
  revert s. induction q as [|c q IH]; intros s Hq Hm.
  - simpl in *. by rewrite rw_head in Hm.
  - simpl in Hq. apply andb_true_iff in Hq as [Hq1 Hq2].
    apply negb_true_iff in Hq1.
    destruct (matches_then p s) eqn:Hp.
    + rewrite rw_match in Hm by done.
      apply matches_then_inv in Hp as [_ Hw].
      apply may_match_sound in Hm; [|by rewrite rw_head].
      simpl in Hm. congruence.
    + destruct s as [|d s]; [by rewrite rw_nil in Hm|].
      rewrite rw_miss in Hm by done. simpl in *.
      apply andb_true_iff in Hm as [-> Hm]. simpl. by apply IH.
Qed.

Lemma occurs_app_miss q r x :
  misses_inside q r = true → is_wordo (head x) = false →
  occurs q (r ++ x) = occurs q x.
Proof.
  intros Hr Hx. induction r as [|d r IH]; [done|].
  simpl in Hr. apply andb_true_iff in Hr as [Hr1 Hr2].
  apply negb_true_iff in Hr1.
  change ((d :: r) ++ x) with (d :: (r ++ x)). cbn [occurs].
  destruct (matches_then q (d :: (r ++ x))) eqn:Hm.
  - change (d :: (r ++ x)) with ((d :: r) ++ x) in Hm.
    apply may_match_sound in Hm; [congruence|done].
  - simpl. by apply IH.
Qed.

(** An occurrence of [q] in the rewritten text is an occurrence of
    [q] in the text, at a place where [p] does not match. *)
Lemma occurs_rw q skip s :
  suffixes_miss q repl = true → misses_inside q repl = true →
  occurs q (rw skip s) = true →
  ∃ t, t `suffix_of` s ∧ matches_then p t = false ∧ matches_then q t = true.
Proof using p_nonempty same_head.
  intros Hq Hr. revert skip. induction s as [|d s IH]; intros skip Ho.
  - rewrite rw_nil in Ho. simpl in Ho. rewrite orb_false_r in Ho.
    exists []. split; [done|]. split; [by apply matches_then_nil|done].
  - destruct skip as [|skip].
    + destruct (matches_then p (d :: s)) eqn:Hp.
      * rewrite rw_match in Ho by done.
        pose proof (matches_then_inv _ _ Hp) as [_ Hw].
        rewrite occurs_app_miss in Ho; [|done|by rewrite rw_head].
        rewrite drop_length_cons in Ho by done.
        rewrite <- rw_skip in Ho.
        destruct (IH _ Ho) as (t & Ht & H1 & H2).
        exists t. split; [by apply suffix_cons_r|done].
      * rewrite rw_miss in Ho by done. cbn [occurs] in Ho.
        apply orb_true_iff in Ho as [Ho|Ho].
        -- exists (d :: s). split; [done|]. split; [done|].
           apply matches_then_rw; [done|]. by rewrite rw_miss.
        -- destruct (IH _ Ho) as (t & Ht & H1 & H2).
           exists t. split; [by apply suffix_cons_r|done].
    + cbn [rewrite_go] in Ho.
      destruct (IH _ Ho) as (t & Ht & H1 & H2).
      exists t. split; [by apply suffix_cons_r|done].
Qed.

Lemma occurs_suffix q t s :
  t `suffix_of` s → matches_then q t = true → occurs q s = true.
Proof.
  intros [l ->] Hm. induction l as [|d l IH]; simpl.
  - destruct t; simpl in *; by rewrite Hm.
  - rewrite IH. apply orb_true_r.
Qed.

(** Rewriting removes every occurrence of the pattern. *)
Lemma occurs_rw_self s :
  suffixes_miss p repl = true → misses_inside p repl = true →
  occurs p (rw 0 s) = false.
Proof using p_nonempty same_head.
  intros Hq Hr. destruct (occurs p (rw 0 s)) eqn:Ho; [|done].
  apply occurs_rw in Ho as (t & _ & H1 & H2); [congruence|done|done].
Qed.

(** Rewriting makes no occurrence of another pattern. *)
Lemma occurs_rw_other q s :
  suffixes_miss q repl = true → misses_inside q repl = true →
  occurs q s = false → occurs q (rw 0 s) = false.
Proof using p_nonempty same_head.
  intros Hq Hr Hs. destruct (occurs q (rw 0 s)) eqn:Ho; [|done].
  apply occurs_rw in Ho as (t & Ht & H1 & H2); [|done|done].
  by rewrite (occurs_suffix q t s) in Hs.
Qed.

(** Without an occurrence, nothing is rewritten. *)
Lemma rw_id s : occurs p s = false → rw 0 s = s.
Proof using p_nonempty.
  induction s as [|d s IH]; intros Ho; [by rewrite rw_nil|].
  cbn [occurs] in Ho. apply orb_false_iff in Ho as [Hm Ho].
  rewrite rw_miss by done. by rewrite IH.
Qed.
End Rewrite.

End RewriteFacts.

(** ** The auto-corrector *)

Module AutoCorrectFacts.
Import Re Literal ReFacts RewriteFacts Validator.

Section Table.
Context `{Unicode}.


Lemma entry_ok_inv w r :
  entry_ok (w, Some r) = true → w ≠ [] ∧ ends_with_word w = true.
Proof.
  simpl. intros [Hw ?]%andb_true_iff. split; [|done].
  intros ->. by vm_compute in Hw.
Qed.

Lemma wrong_pattern_nonempty w : wrong_pattern w ≠ [].
Proof. done. Qed.

Lemma search_correction w s :
  w ≠ [] → ends_with_word w = true →
  is_Some (search (correction_pattern w) s) ↔ occurs (wrong_pattern w) s = true.
Proof. intros. by apply search_go_correction. Qed.

Lemma sub_correction w r s :
  w ≠ [] → ends_with_word w = true →
  sub (correction_pattern w) (alias_dot ++ r) s
  = rewrite_go (wrong_pattern w) (alias_dot ++ r) 0 s.
Proof. intros. by apply sub_go_correction. Qed.

(** The text after one turn of the loop. *)
Lemma correction_step_text w r s l :
  entry_ok (w, Some r) = true →
  fst (correction_step (s, l) (w, Some r))
  = rewrite_go (wrong_pattern w) (alias_dot ++ r) 0 s.
Proof.
  intros [Hne Hw]%entry_ok_inv. simpl.
  pose proof (search_correction w s Hne Hw) as Hs.
  destruct (search (correction_pattern w) s) as [m|].
  - simpl. by apply sub_correction.
  - simpl. symmetry. apply rw_id; [done|].
    destruct (occurs (wrong_pattern w) s); [|done].
    destruct Hs as [_ Hs]. by destruct Hs.
Qed.

(** A turn of the loop on a text without the pattern. *)
Lemma correction_step_clean w r s l :
  entry_ok (w, Some r) = true → occurs (wrong_pattern w) s = false →
  correction_step (s, l) (w, Some r) = (s, l).
Proof.
  intros [Hne Hw]%entry_ok_inv Ho. simpl.
  pose proof (search_correction w s Hne Hw) as Hs.
  destruct (search (correction_pattern w) s) as [m|]; [|done].
  destruct Hs as [Hs _]. rewrite Hs in Ho; [done|by eexists].
Qed.

Lemma table_ok_entry table e :
  table_ok table = true → e ∈ table → entry_ok e = true.
Proof.
  intros [Ht _]%andb_true_iff He.
  rewrite List.forallb_forall in Ht. by apply Ht, list_elem_of_In.
Qed.

Lemma table_ok_pair table e1 e2 :
  table_ok table = true → e1 ∈ table → e2 ∈ table → pair_ok e1 e2 = true.
Proof.
  intros [_ Ht]%andb_true_iff H1 H2.
  rewrite List.forallb_forall in Ht.
  specialize (Ht e1 (proj1 (list_elem_of_In _ _) H1)).
  rewrite List.forallb_forall in Ht. by apply Ht, list_elem_of_In.
Qed.

(** The loop leaves no occurrence of the patterns it has gone
    through. *)
Lemma pass_clean table todo processed s l :
  table_ok table = true → processed ++ todo = table →
  clean processed s →
  clean table (fst (foldl correction_step (s, l) todo)).
Proof.
  intros Hok. revert processed s l.
  induction todo as [|[w r] todo IH]; intros processed s l Ht Hc.
  - rewrite app_nil_r in Ht. by subst.
  - cbn [foldl].
    assert ((w, r) ∈ table) as Hin.
    { rewrite <- Ht. apply elem_of_app. right. by left. }
    destruct (correction_step (s, l) (w, r)) as [s' l'] eqn:Hstep.
    apply (IH (processed ++ [(w, r)])); [by rewrite <- app_assoc|].
    destruct r as [r|].
    2:{ simpl in Hstep. injection Hstep as <- <-.
        intros w2 r2 [Hin2|Hin2]%elem_of_app; [by eapply Hc|].
        apply list_elem_of_singleton in Hin2. congruence. }
    pose proof (table_ok_entry _ _ Hok Hin) as He.
    assert (s' = rewrite_go (wrong_pattern w) (alias_dot ++ r) 0 s) as ->.
    { rewrite <- (correction_step_text w r s l He). by rewrite Hstep. }
    intros w2 r2 [Hin2|Hin2]%elem_of_app.
    + assert ((w2, Some r2) ∈ table) as Hin2'.
      { rewrite <- Ht. apply elem_of_app. by left. }
      pose proof (table_ok_pair _ _ _ Hok Hin Hin2') as Hp.
      simpl in Hp. apply andb_true_iff in Hp as [Hp1 Hp2].
      apply occurs_rw_other; [done|done|done|done|by eapply Hc].
    + apply list_elem_of_singleton in Hin2. simplify_eq.
      pose proof (table_ok_pair _ _ _ Hok Hin Hin) as Hp.
      simpl in Hp. apply andb_true_iff in Hp as [Hp1 Hp2].
      by apply occurs_rw_self.
Qed.

(** The loop changes nothing in a text without the patterns. *)
Lemma clean_pass todo s l :
  (∀ e, e ∈ todo → entry_ok e = true) → clean todo s →
  foldl correction_step (s, l) todo = (s, l).
Proof.
  induction todo as [|[w r] todo IH]; intros Hok Hc; [done|].
  cbn [foldl].
  assert (correction_step (s, l) (w, r) = (s, l)) as ->.
  { destruct r as [r|]; [|done].
    apply correction_step_clean; [apply Hok; by left|].
    apply (Hc w r). by left. }
  apply IH; [intros; apply Hok; by right|].
  intros w' r' Hin. apply (Hc w' r'). by right.
Qed.

Lemma common_corrections_ok : table_ok COMMON_CORRECTIONS = true.
Proof. vm_compute. reflexivity. Qed.

Lemma auto_correct_with_idempotent table x :
  table_ok table = true →
  auto_correct_with table (fst (auto_correct_with table x))
  = (fst (auto_correct_with table x), []).
Proof.
  intros Hok. unfold auto_correct_with at 1.
  apply clean_pass.
  - intros e He. by eapply table_ok_entry.
  - apply (pass_clean table table []); [done|done|].
    intros w r Hin. by apply elem_of_nil in Hin.
Qed.

(** C6: the auto-corrector is idempotent: run on its own output, it
    returns that text unchanged and reports no correction. *)
Theorem auto_correct_code_idempotent (x : text) :
  auto_correct_code (fst (auto_correct_code x))
  = (fst (auto_correct_code x), []).
Proof.
  apply auto_correct_with_idempotent, common_corrections_ok.
Qed.
End Table.

End AutoCorrectFacts.

(** ** An occurrence of the alias that no pattern matches *)

Module BoundaryFacts.
Import Re Literal ReFacts RewriteFacts Validator AutoCorrectFacts.

Section Locality.
Context `{Unicode}.

Lemma alias_dot_eq : alias_dot = [109; 100; 112; 46].
Proof. reflexivity. Qed.

(** A match that starts before [a] ends before [a]: whether [q]
    matches at the start of [pre ++ a ++ y] does not depend on [y]. *)
Lemma matches_then_before (a q pre y1 y2 : text) :
  a ≠ [] → is_wordo (head a) = true →
  suffixes_miss_open q a = true →
  matches_then q (pre ++ a ++ y1) = matches_then q (pre ++ a ++ y2)
  ∧ (matches_then q (pre ++ a ++ y1) = true → length q ≤ length pre)%nat.
Proof.
  intros Ha Hw. revert q. induction pre as [|d pre IH]; intros q Hq.
  - destruct q as [|c q].
    + simpl. destruct a as [|e a]; [done|]. simpl in *. rewrite Hw. done.
    + cbn [suffixes_miss_open] in Hq. apply andb_true_iff in Hq as [Hq _].
      apply negb_true_iff in Hq.
      assert (∀ y, matches_then (c :: q) (a ++ y) = false) as Hf.
      { intros y. destruct (matches_then (c :: q) (a ++ y)) eqn:Hm; [|done].
        apply may_match_open_sound in Hm. congruence. }
      simpl app. rewrite !Hf. done.
  - destruct q as [|c q].
    + simpl. split; [done|lia].
    + cbn [suffixes_miss_open] in Hq. apply andb_true_iff in Hq as [_ Hq].
      destruct (IH q Hq) as [IH1 IH2]. simpl.
      rewrite IH1. split; [done|].
      intros [_ Hm]%andb_true_iff. rewrite <- IH1 in Hm.
      apply IH2 in Hm. lia.
Qed.

(** The text before [a] is rewritten without regard for what
    follows [a]. *)
Lemma rewrite_before (a p repl pre : text) skip :
  a ≠ [] → is_wordo (head a) = true →
  p ≠ [] → suffixes_miss_open (tail p) a = true →
  (skip ≤ length pre)%nat →
  ∃ x, ∀ y, rewrite_go p repl skip (pre ++ a ++ y)
            = x ++ rewrite_go p repl 0 (a ++ y).
Proof.
  intros Ha Hw Hp Hq. revert skip.
  induction pre as [|d pre IH]; intros skip Hskip.
  - exists []. simpl in Hskip. by replace skip with O by lia.
  - destruct skip as [|skip].
    + destruct p as [|c p']; [done|]. simpl in Hq.
      destruct (matches_then_before a p' pre [] [] Ha Hw Hq) as [_ Hlen].
      destruct (matches_then (c :: p') (d :: (pre ++ a ++ [])) ) eqn:Hm.
      * simpl in Hm. apply andb_true_iff in Hm as [Hc Hm].
        destruct (IH (length p')) as [x Hx]; [by apply Hlen|].
        exists (repl ++ x). intros y.
        change ((d :: pre) ++ a ++ y) with (d :: (pre ++ a ++ y)).
        cbn [rewrite_go matches_then]. rewrite Hc.
        destruct (matches_then_before a p' pre y [] Ha Hw Hq) as [-> _].
        rewrite Hm. simpl. rewrite Hx. by rewrite <- app_assoc.
      * destruct (IH O) as [x Hx]; [lia|].
        exists (d :: x). intros y.
        change ((d :: pre) ++ a ++ y) with (d :: (pre ++ a ++ y)).
        cbn [rewrite_go matches_then].
        destruct (matches_then_before a p' pre y [] Ha Hw Hq) as [-> _].
        simpl in Hm. rewrite Hm. simpl. by rewrite Hx.
    + destruct (IH skip) as [x Hx]; [simpl in Hskip; lia|].
      exists x. intros y. apply Hx.
Qed.

(** A word followed by a boundary is matched by itself only. *)
Lemma matches_then_word (w n post : text) :
  forallb is_word w = true → forallb is_word n = true →
  is_wordo (head post) = false →
  matches_then w (n ++ post) = true → w = n.
Proof.
  intros Hw Hn Hpost. revert n Hn.
  induction w as [|c w IH]; intros n Hn Hm.
  - destruct n as [|d n]; [done|]. simpl in *.
    apply andb_true_iff in Hn as [Hd _]. by rewrite Hd in Hm.
  - simpl in Hw. apply andb_true_iff in Hw as [Hc Hw].
    destruct n as [|d n].
    + simpl in Hm. destruct post as [|e post]; [done|].
      apply andb_true_iff in Hm as [->%N.eqb_eq _]. simpl in Hpost. congruence.
    + simpl in Hn, Hm. apply andb_true_iff in Hn as [_ Hn].
      apply andb_true_iff in Hm as [->%N.eqb_eq Hm]. f_equal. by apply IH.
Qed.
End Locality.

Section Occurrence.
Context `{Unicode}.


Variables w r : text.
Hypothesis w_local : entry_local (w, Some r) = true.

Local Abbreviation rw := (rewrite_go (wrong_pattern w) (alias_dot ++ r)).

Lemma w_nonempty : w ≠ [].
Proof using w_local.
  simpl in w_local. apply andb_true_iff in w_local as [[[Hw ?]%andb_true_iff ?]%andb_true_iff ?].
  intros ->. by vm_compute in Hw.
Qed.

Lemma w_word : forallb is_word w = true.
Proof using w_local.
  simpl in w_local. by apply andb_true_iff in w_local as [[? ?]%andb_true_iff ?].
Qed.

Lemma w_open : suffixes_miss_open (tail (wrong_pattern w)) alias_dot = true.
Proof using w_local.
  simpl in w_local. by apply andb_true_iff in w_local as [? ?].
Qed.

Lemma is_word_d : is_word 100 = true. Proof. reflexivity. Qed.
Lemma is_word_p : is_word 112 = true. Proof. reflexivity. Qed.
Lemma is_word_dot : is_word 46 = false. Proof. reflexivity. Qed.

(** The alias alone is kept. *)
Lemma rw_alias : rw 0 alias_dot = alias_dot.
Proof using w_local.
  pose proof w_nonempty as Hw. unfold wrong_pattern. rewrite alias_dot_eq.
  destruct w as [|c w']; [done|]. reflexivity.
Qed.

(** The alias before a name that is not the wrong name is kept. *)
Lemma rw_alias_name (n post : text) :
  forallb is_word n = true → n ≠ w → is_wordo (head post) = false →
  rw 0 (alias_dot ++ n ++ post) = alias_dot ++ rw 0 (n ++ post).
Proof using w_local.
  intros Hn Hne Hpost. unfold wrong_pattern. rewrite alias_dot_eq.
  cbn [app rewrite_go matches_then N.eqb Pos.eqb andb].
  destruct (matches_then w (n ++ post)) eqn:Hm; [|done].
  apply matches_then_word in Hm; [congruence|apply w_word|done|done].
Qed.

(** A run of word characters is kept, and so is the first character
    after it. *)
Lemma rw_word (t post : text) :
  forallb is_word t = true → is_wordo (head post) = false →
  ∃ post', rw 0 (t ++ post) = t ++ post' ∧ head post' = head post.
Proof using w_local.
  intros Ht Hpost. induction t as [|c t IH].
  - exists (rw 0 post). split; [done|]. by apply rw_head.
  - simpl in Ht. apply andb_true_iff in Ht as [Hc Ht].
    destruct (IH Ht) as (post' & IH1 & IH2).
    destruct (matches_then (wrong_pattern w) ((c :: t) ++ post)) eqn:Hm.
    + rewrite rw_match by done.
      apply matches_then_inv in Hm as [Hs _].
      unfold wrong_pattern in Hs. rewrite alias_dot_eq in Hs.
      set (rest := drop _ _) in *. clearbody rest.
      rewrite alias_dot_eq. simpl in Hs.
      injection Hs as -> Hs.
      destruct t as [|c2 t].
      { simpl in Hs. subst post. simpl in Hpost. by rewrite is_word_d in Hpost. }
      injection Hs as -> Hs.
      destruct t as [|c3 t].
      { simpl in Hs. subst post. simpl in Hpost. by rewrite is_word_p in Hpost. }
      injection Hs as -> Hs.
      destruct t as [|c4 t].
      { simpl in Hs. subst post. eexists. split; [reflexivity|done]. }
      injection Hs as -> Hs. cbn [forallb] in Ht.
      apply andb_true_iff in Ht as [_ [_ [Hd _]%andb_true_iff]%andb_true_iff].
      by rewrite is_word_dot in Hd.
    + change ((c :: t) ++ post) with (c :: (t ++ post)) in *.
      rewrite rw_miss by done. rewrite IH1. by exists post'.
Qed.

(** One entry of the table on an occurrence of the alias followed by
    a name other than its wrong name. *)
Lemma rw_occurrence (pre n post : text) :
  forallb is_word n = true → n ≠ w → is_wordo (head post) = false →
  ∃ pre' post',
    rw 0 (pre ++ alias_dot ++ n ++ post) = pre' ++ alias_dot ++ n ++ post'
    ∧ rw 0 (pre ++ alias_dot) = pre' ++ alias_dot
    ∧ rw 0 (n ++ post) = n ++ post'
    ∧ head post' = head post.
Proof using w_local.
  intros Hn Hne Hpost.
  destruct (rewrite_before alias_dot (wrong_pattern w) (alias_dot ++ r) pre 0)
    as [x Hx]; [done|done|done|apply w_open|lia|].
  destruct (rw_word n post Hn Hpost) as (post' & Hp1 & Hp2).
  exists x, post'. split; [|split; [|done]].
  - rewrite Hx, rw_alias_name by done. by rewrite Hp1.
  - specialize (Hx []). rewrite !app_nil_r in Hx. by rewrite Hx, rw_alias.
Qed.
End Occurrence.

End BoundaryFacts.

Module WordBoundary.
Import Re Literal ReFacts RewriteFacts Validator AutoCorrectFacts BoundaryFacts.

Section Pass.
Context `{Unicode}.


Lemma auto_correct_with_text table s l :
  (∀ e, e ∈ table → entry_ok e = true) →
  fst (foldl correction_step (s, l) table) = foldl text_step s table.
Proof.
  revert s l. induction table as [|[w r] table IH]; intros s l Hok; [done|].
  cbn [foldl].
  destruct (correction_step (s, l) (w, r)) as [s' l'] eqn:Hstep.
  rewrite IH by (intros; apply Hok; by right). f_equal.
  destruct r as [r|]; [|simpl in *; congruence].
  cbn [text_step].
  rewrite <- (correction_step_text w r s l); [by rewrite Hstep|].
  apply Hok. by left.
Qed.


Lemma entry_local_ok e : entry_local e = true → entry_ok e = true.
Proof.
  destruct e as [w [r|]]; [|done]. cbn [entry_local].
  by intros [[? _]%andb_true_iff _]%andb_true_iff.
Qed.

Lemma pass_occurrence table (pre n post : text) :
  table_local table = true →
  (∀ w r, (w, Some r) ∈ table → n ≠ w) →
  forallb is_word n = true → is_wordo (head post) = false →
  ∃ pre' post',
    foldl text_step (pre ++ alias_dot ++ n ++ post) table
      = pre' ++ alias_dot ++ n ++ post'
    ∧ foldl text_step (pre ++ alias_dot) table = pre' ++ alias_dot
    ∧ foldl text_step (n ++ post) table = n ++ post'.
Proof.
  intros Hloc Hne Hn. revert pre post.
  induction table as [|[w r] table IH]; intros pre post Hpost.
  - by exists pre, post.
  - cbn [table_local forallb] in Hloc. apply andb_true_iff in Hloc as [He Hloc].
    cbn [foldl]. destruct r as [r|].
    + destruct (rw_occurrence w r He pre n post) as (pre1 & post1 & H1 & H2 & H3 & H4);
        [done|apply (Hne w r); by left|done|].
      cbn [text_step]. rewrite H1, H2, H3.
      apply IH; [done|intros; eapply Hne; by right|by rewrite H4].
    + cbn [text_step].
      apply IH; [done|intros; eapply Hne; by right|done].
Qed.

Lemma common_corrections_local : table_local COMMON_CORRECTIONS = true.
Proof. vm_compute. reflexivity. Qed.

Lemma auto_correct_code_text s :
  fst (auto_correct_code s) = foldl text_step s COMMON_CORRECTIONS.
Proof.
  apply auto_correct_with_text. intros e He. apply entry_local_ok.
  pose proof common_corrections_local as Hl. unfold table_local in Hl.
  rewrite List.forallb_forall in Hl. by apply Hl, list_elem_of_In.
Qed.

Lemma not_flagged_ne n w r :
  flagged n = false → (w, Some r) ∈ COMMON_CORRECTIONS → n ≠ w.
Proof.
  intros Hf Hin ->. unfold flagged in Hf.
  apply bool_decide_eq_false in Hf. apply Hf.
  unfold wrong_names. apply list_elem_of_fmap. by exists (w, Some r).
Qed.

Lemma wrong_names_words : forallb (forallb is_word) wrong_names = true.
Proof. vm_compute. reflexivity. Qed.

(** C7, amended: word-boundary safety.  Where the text holds the
    alias and a dot followed by a name that extends a wrong name of
    the table with further word characters of [re] (the class [\w]),
    that is not itself flagged by the table and that ends there, the
    auto-corrector leaves this occurrence as it is: the corrected
    text is the corrected text before it, the occurrence unaltered,
    and the corrected text after it.  (A character of an identifier
    that is no word character puts a boundary after the wrong name.) *)
Theorem auto_correct_word_boundary_safe (pre w ext post : text) :
  flagged w = true →
  ext ≠ [] → forallb is_word ext = true →
  flagged (w ++ ext) = false →
  is_wordo (head post) = false →
  ∃ pre' post',
    fst (auto_correct_code (pre ++ alias_dot ++ (w ++ ext) ++ post))
      = pre' ++ alias_dot ++ (w ++ ext) ++ post'
    ∧ fst (auto_correct_code (pre ++ alias_dot)) = pre' ++ alias_dot
    ∧ fst (auto_correct_code ((w ++ ext) ++ post)) = (w ++ ext) ++ post'.
Proof.
  intros Hw Hext Hword Hvalid Hpost. rewrite !auto_correct_code_text.
  apply pass_occurrence; [apply common_corrections_local| | |done].
  - intros w' r'. by apply not_flagged_ne.
  - rewrite forallb_app, Hword, andb_true_r.
    pose proof wrong_names_words as Hl.
    rewrite List.forallb_forall in Hl. apply Hl, list_elem_of_In.
    by apply bool_decide_eq_true in Hw.
Qed.
End Pass.

End WordBoundary.

(** ** The walk of a tree *)

Module WalkFacts.
Import Validator.


Lemma forest_count_app l1 l2 :
  forest_count (l1 ++ l2) = (forest_count l1 + forest_count l2)%nat.
Proof. induction l1 as [|x l1 IH]; simpl; [done|]. rewrite IH. lia. Qed.

Lemma forest_count_leaves (names : list text) :
  forest_count ((λ _, leaf) <$> names) = length names.
Proof. induction names as [|x names IH]; simpl; [done|]. f_equal. apply IH. Qed.

(** A node counts for one more than its children. *)
Lemma node_count_children n :
  node_count n = S (forest_count (iter_child_nodes n)).
Proof.
  assert (∀ l, (fix forest (l : list node) : nat :=
                  match l with
                  | [] => O
                  | x :: l' => (node_count x + forest l')%nat
                  end) l = forest_count l) as Hf.
  { induction l as [|x l IH]; [done|]. simpl. by rewrite IH. }
  destruct n; simpl; rewrite ?Hf, ?forest_count_leaves; lia.
Qed.

Lemma node_count_pos n : (0 < node_count n)%nat.
Proof. rewrite node_count_children. lia. Qed.

(** With fuel for every node of the queue, the walk yields as many
    nodes: the fuel does not cut it short. *)
Lemma walk_queue_length fuel todo :
  (forest_count todo ≤ fuel)%nat →
  length (walk_queue fuel todo) = forest_count todo.
Proof.
  revert todo. induction fuel as [|fuel IH]; intros todo Hle.
  - destruct todo as [|n todo]; [done|]. simpl in Hle.
    pose proof (node_count_pos n). lia.
  - destruct todo as [|n todo]; [done|]. simpl in *.
    rewrite node_count_children in Hle |- *.
    rewrite IH; rewrite forest_count_app; lia.
Qed.

Lemma walk_length tree : length (walk tree) = node_count tree.
Proof.
  unfold walk. rewrite walk_queue_length; simpl; lia.
Qed.

(** The walk starts with the root. *)
Lemma walk_root tree : head (walk tree) = Some tree.
Proof.
  unfold walk. rewrite node_count_children. done.
Qed.

End WalkFacts.

(** ** Containment of texts *)

Module TextFacts.

Lemma starts_with_app (p s : text) : starts_with p (p ++ s) = true.
Proof. induction p as [|c p IH]; simpl; [done|]. by rewrite N.eqb_refl. Qed.

Lemma contains_app (p a b : text) : contains p (a ++ p ++ b) = true.
Proof.
  induction a as [|c a IH].
  - simpl. destruct (p ++ b) eqn:E; simpl; rewrite <- ?E, starts_with_app; done.
  - change ((c :: a) ++ p ++ b) with (c :: (a ++ p ++ b)). cbn [contains].
    rewrite IH. apply orb_true_r.
Qed.

End TextFacts.

(** ** The whitelist symbol check *)

Module SymbolFacts.
Import Validator WalkFacts TextFacts.

Section Symbols.
Context `{Unicode} `{PyLib}.

Lemma symbol_step_attr whitelist unknown seen n :
  symbol_step whitelist (unknown, seen) n
  = match mdp_attr n with
    | Some name =>
        if bool_decide (name ∈ seen) then (unknown, seen)
        else if bool_decide (name ∈ whitelist) then (unknown, {[ name ]} ∪ seen)
        else (unknown ++ [unknown_message whitelist name], {[ name ]} ∪ seen)
    | None => (unknown, seen)
    end.
Proof.
  destruct n as [| | | |v a| | | | |]; try done.
  destruct v as [| | | | |i| | | |]; try done.
  simpl. destruct (bool_decide (i = py "mdp")); [|done].
  destruct (bool_decide (a ∈ seen)); [done|]. simpl.
  by destruct (bool_decide (a ∈ whitelist)).
Qed.

(** The loop, from any state. *)
Lemma symbol_loop whitelist unknown seen nodes :
  fst (foldl (symbol_step whitelist) (unknown, seen) nodes)
  = unknown ++ (unknown_message whitelist <$>
      filter (λ n, n ∉ whitelist) (first_occurrences seen (omap mdp_attr nodes))).
Proof.
  revert unknown seen. induction nodes as [|n nodes IH]; intros unknown seen.
  - simpl. by rewrite app_nil_r.
  - cbn [foldl]. rewrite symbol_step_attr. cbn [omap list_omap].
    fold (omap mdp_attr nodes).
    destruct (mdp_attr n) as [name|]; [|apply IH].
    cbn [first_occurrences].
    destruct (bool_decide (name ∈ seen)); [apply IH|].
    rewrite filter_cons.
    destruct (bool_decide_reflect (name ∈ whitelist)) as [Hin|Hin].
    + rewrite IH. rewrite decide_False by tauto. done.
    + rewrite IH. rewrite decide_True by done.
      rewrite fmap_cons. by rewrite <- app_assoc.
Qed.

(** [check_api_symbols] is the specification: one message per
    unknown name, in the order of the first occurrences. *)
Lemma check_api_symbols_spec code whitelist tree :
  ast_parse code = inr tree →
  check_api_symbols code whitelist
  = Return (unknown_message whitelist <$> unknown_names whitelist tree).
Proof.
  intros Hp. unfold check_api_symbols. rewrite Hp. by rewrite symbol_loop.
Qed.

Lemma first_occurrences_elem seen l x :
  x ∈ first_occurrences seen l ↔ x ∈ l ∧ x ∉ seen.
Proof.
  revert seen. induction l as [|y l IH]; intros seen.
  - simpl. split; [by intros ?%elem_of_nil|by intros [?%elem_of_nil _]].
  - cbn [first_occurrences].
    destruct (bool_decide_reflect (y ∈ seen)) as [Hy|Hy].
    + rewrite IH, elem_of_cons. split; [tauto|].
      intros [[->|Hx] Hs]; [done|tauto].
    + rewrite !elem_of_cons, IH, not_elem_of_union, not_elem_of_singleton.
      destruct (decide (x = y)) as [->|Hne]; tauto.
Qed.

Lemma first_occurrences_NoDup seen l : NoDup (first_occurrences seen l).
Proof.
  revert seen. induction l as [|y l IH]; intros seen; [constructor|].
  cbn [first_occurrences].
  destruct (bool_decide (y ∈ seen)); [apply IH|].
  constructor; [|apply IH].
  rewrite first_occurrences_elem, not_elem_of_union, not_elem_of_singleton.
  tauto.
Qed.

Lemma unknown_names_NoDup whitelist tree :
  NoDup (unknown_names whitelist tree).
Proof. apply NoDup_filter, first_occurrences_NoDup. Qed.

Lemma unknown_names_elem whitelist tree n :
  n ∈ unknown_names whitelist tree ↔ n ∈ accessed tree ∧ n ∉ whitelist.
Proof.
  unfold unknown_names. rewrite list_elem_of_filter, first_occurrences_elem.
  pose proof (not_elem_of_empty (C := gset text) n). tauto.
Qed.

(** A list without duplicates whose elements are all [x] is [[x]]. *)
Lemma NoDup_only {A} (x : A) (l : list A) :
  NoDup l → x ∈ l → (∀ y, y ∈ l → y = x) → l = [x].
Proof.
  intros Hnd Hin Hall. destruct l as [|a l]; [by apply elem_of_nil in Hin|].
  assert (a = x) as -> by (apply Hall; by left).
  destruct l as [|b l]; [done|].
  assert (b = x) as -> by (apply Hall; right; by left).
  apply NoDup_cons in Hnd as [Hnd _]. exfalso. apply Hnd. by left.
Qed.

Lemma unknown_message_shape whitelist n :
  ∃ suggestion,
    unknown_message whitelist n
      = py "Unknown MDP function: mdp." ++ n ++ py "." ++ suggestion
    ∧ (suggestion = []
       ∨ ∃ m, suggestion = py " Did you mean: mdp." ++ m ++ py "?").
Proof.
  unfold unknown_message.
  destruct (get_close_matches n whitelist) as [|m ms]; eauto.
Qed.

(** C9: on a text that parses, the whitelist check reports the names
    read on the alias that the whitelist lacks, once each, in the
    order of their first occurrence; the message of a name contains
    it and carries at most one suggestion; and where a single unknown
    name is read, there is exactly one message. *)
Theorem check_api_symbols_once code whitelist tree :
  ast_parse code = inr tree →
  ∃ names,
    check_api_symbols code whitelist
      = Return (unknown_message whitelist <$> names)
    ∧ names = unknown_names whitelist tree
    ∧ NoDup names
    ∧ (∀ n, n ∈ names ↔ n ∈ accessed tree ∧ n ∉ whitelist)
    ∧ (∀ n, contains n (unknown_message whitelist n) = true
            ∧ ∃ suggestion,
                unknown_message whitelist n
                  = py "Unknown MDP function: mdp." ++ n ++ py "." ++ suggestion
                ∧ (suggestion = []
                   ∨ ∃ m, suggestion = py " Did you mean: mdp." ++ m ++ py "?"))
    ∧ (∀ n, n ∈ accessed tree → n ∉ whitelist →
            (∀ n', n' ∈ accessed tree → n' ∉ whitelist → n' = n) →
            check_api_symbols code whitelist
              = Return [unknown_message whitelist n]).
Proof.
  intros Hp. exists (unknown_names whitelist tree).
  split; [by apply check_api_symbols_spec|]. split; [done|].
  split; [apply unknown_names_NoDup|].
  split; [apply unknown_names_elem|]. split.
  - intros n. destruct (unknown_message_shape whitelist n) as (sg & Hm & Hs).
    split; [|by exists sg]. rewrite Hm. apply contains_app.
  - intros n Hn Hw Hall. rewrite (check_api_symbols_spec _ _ _ Hp).
    rewrite (NoDup_only n (unknown_names whitelist tree)); [done| | |].
    + apply unknown_names_NoDup.
    + by apply unknown_names_elem.
    + intros y [? ?]%unknown_names_elem. by apply Hall.
Qed.

(** Where [ast.parse] raises another exception than [SyntaxError],
    the whitelist check raises it. *)
(** C10, amended: on a text on which [ast.parse] raises
    [SyntaxError], the whitelist check returns the empty list,
    whatever the whitelist, and the failure is reported by the main
    validator, whose verdict holds the one error of the parse. *)
Theorem check_api_symbols_unparsed code whitelist e :
  ast_parse code = inl (SyntaxError e) →
  check_api_symbols code whitelist = Return []
  ∧ ∀ dir c, ∃ v,
      validate_config dir code c = (Return v, c)
      ∧ is_valid v = false
      ∧ errors v = [py "SyntaxError at line "
                    ++ from_option str_of_N (py "None") (lineno e)
                    ++ py ": " ++ msg e].
Proof.
  intros Hp. split; [unfold check_api_symbols; by rewrite Hp|].
  intros dir c. unfold validate_config. rewrite Hp. by eexists.
Qed.

Lemma check_api_symbols_parse_raises code whitelist e :
  ast_parse code = inl e → (∀ se, e ≠ SyntaxError se) →
  check_api_symbols code whitelist = Raise e.
Proof.
  intros Hp Hne. unfold check_api_symbols. rewrite Hp.
  destruct e; [by destruct (Hne e)|done..].
Qed.
End Symbols.

End SymbolFacts.

(** ** The structural validator *)

Module ValidateFacts.
Import Re Validator Verdict WalkFacts SymbolFacts.

Section Validate.
Context `{Unicode} `{PyLib}.

Lemma coherent_fresh : coherent fresh_result.
Proof. unfold coherent. simpl. split; [discriminate|tauto]. Qed.

Lemma coherent_fail e r : coherent (fail e r).
Proof.
  unfold coherent. simpl. split; [|done].
  intros _ Hnil. by apply app_nil in Hnil as [_ ?].
Qed.

Lemma coherent_fail_all e es r : coherent (fail_all (e :: es) r).
Proof.
  unfold coherent. simpl. split; [|done].
  intros _ Hnil. by apply app_nil in Hnil as [_ ?].
Qed.

Lemma coherent_warn w r : coherent r → coherent (warn w r).
Proof. done. Qed.

Lemma coherent_warnings r ws :
  coherent r →
  coherent {| is_valid := is_valid r; errors := errors r;
              warnings := ws; corrections := corrections r |}.
Proof. done. Qed.

Lemma coherent_if (b : bool) r1 r2 :
  coherent r1 → coherent r2 → coherent (if b then r1 else r2).
Proof. by destruct b. Qed.

(** Each check keeps the invariant. *)
Ltac coherent_step :=
  first
    [ apply coherent_fresh
    | apply coherent_fail
    | apply coherent_fail_all
    | apply coherent_warn
    | apply coherent_warnings
    | apply coherent_if
    | match goal with
      | |- coherent (match ?x with _ => _ end) => destruct x
      end ].

(** C4: the verdict [validate_config] returns has [is_valid] false
    exactly when its list of errors is not empty. *)
Theorem validate_config_coherent dir code c v :
  fst (validate_config dir code c) = Return v →
  is_valid v = false ↔ errors v ≠ [].
Proof.
  unfold validate_config. intros Hv. change (coherent v).
  destruct (ast_parse code) as [e|tree].
  - destruct e; simpl in Hv; try done.
    injection Hv as <-. apply coherent_fail.
  - destruct (load_api_whitelist dir c) as [whitelist c'].
    match type of Hv with
    | fst (match ?x with _ => _ end) = _ => destruct x as [r|e] eqn:Hr
    end; [|done].
    assert (coherent r) as Hc.
    { destruct (bool_decide (whitelist ≠ ∅)).
      - destruct (check_api_symbols code whitelist) as [[|u us]|e];
          [| |done]; injection Hr as <-; repeat coherent_step.
      - injection Hr as <-. repeat coherent_step. }
    match type of Hv with
    | fst (match ?w with _ => _ end) = _ => destruct w as [ws|e]
    end; simpl in Hv; [|done].
    injection Hv as <-. repeat first [exact Hc|coherent_step].
Qed.

(** The digits [str_of_N] writes. *)
Lemma decimal_digits_app fuel n acc :
  decimal_digits fuel n acc = decimal_digits fuel n [] ++ acc.
Proof.
  revert n acc. induction fuel as [|fuel IH]; intros n acc; [done|].
  cbn [decimal_digits]. destruct (n <? 10); [done|].
  rewrite (IH _ (_ :: acc)), (IH _ [_]). by rewrite <- app_assoc.
Qed.

Lemma log2_tenth n : 10 <= n → N.log2 (n `div` 10) < N.log2 n.
Proof.
  intros Hn.
  assert (N.log2 (n `div` 10) <= N.log2 (n `div` 2)) as Hle.
  { apply N.log2_le_mono.
    apply N.div_le_lower_bound; [lia|].
    pose proof (N.Div0.mul_div_le n 10). pose proof (N.Div0.mul_div_le n 2).
    pose proof (N.mod_upper_bound n 2). pose proof (N.div_mod n 2).
    pose proof (N.div_mod n 10). lia. }
  assert (N.log2 n = N.succ (N.log2 (n `div` 2))) as ->; [|lia].
  pose proof (N.div_mod n 2 ltac:(lia)) as Hd.
  pose proof (N.mod_upper_bound n 2 ltac:(lia)) as Hm.
  assert (0 < n `div` 2) as Hpos.
  { apply N.div_str_pos. lia. }
  destruct (N.eq_dec (n `mod` 2) 0) as [Hz|Ho].
  - rewrite Hd at 1. rewrite Hz, N.add_0_r. by apply N.log2_double.
  - rewrite Hd at 1.
    assert (n `mod` 2 = 1) as ->
      by (clear -Hm Ho; generalize dependent (n `mod` 2); intros; lia).
    by apply N.log2_succ_double.
Qed.

Lemma decimal_digits_value fuel n :
  (N.to_nat (N.log2 n) < fuel)%nat →
  decimal_digits fuel n [] ≠ []
  ∧ Forall (λ d, is_decimal d = true) (decimal_digits fuel n [])
  ∧ decimal_value (decimal_digits fuel n []) = n.
Proof.
  revert n. induction fuel as [|fuel IH]; intros n Hf; [lia|].
  cbn [decimal_digits].
  pose proof (N.mod_upper_bound n 10 ltac:(lia)) as Hm.
  pose proof (N.div_mod n 10 ltac:(lia)) as Hdm.
  pose proof (log2_tenth n) as Hlog.
  destruct (N.ltb_spec n 10) as [Hlt|Hge].
  - assert (n `mod` 10 = n) as -> by (by apply N.mod_small).
    split; [done|]. split.
    + constructor; [|done]. unfold is_decimal. apply andb_true_iff.
      split; apply N.leb_le; lia.
    + unfold decimal_value. cbn [foldl]. lia.
  - specialize (Hlog Hge).
    assert (N.to_nat (N.log2 (n `div` 10)) < fuel)%nat as Hq by lia.
    rewrite decimal_digits_app.
    destruct (IH _ Hq) as (Hne & Hall & Hval).
    split; [by intros [? _]%app_eq_nil|]. split.
    + apply Forall_app. split; [done|]. constructor; [|done].
      clear -Hm. generalize dependent (n `mod` 10). intros r Hr.
      unfold is_decimal. apply andb_true_iff. split; apply N.leb_le; lia.
    + unfold decimal_value in *. rewrite foldl_app. cbn [foldl].
      rewrite Hval. clear -Hm Hdm.
      generalize dependent (n `mod` 10). generalize dependent (n `div` 10).
      intros q r Hr Hn. lia.
Qed.

Lemma str_of_N_names_line l :
  names_line (from_option str_of_N (py "None") l) l.
Proof.
  destruct l as [n|]; [|done]. apply decimal_digits_value. lia.
Qed.

(** C8, amended: on a text on which [ast.parse] raises
    [SyntaxError], [validate_config] returns at once: the verdict is
    invalid, its only error names the line, in decimal digits, and
    the reason, it has no warning, and the registry is not read. *)
Theorem validate_config_syntax_error dir code c e :
  ast_parse code = inl (SyntaxError e) →
  ∃ line,
    validate_config dir code c
    = (Return {| is_valid := false;
                 errors := [py "SyntaxError at line " ++ line
                            ++ py ": " ++ msg e];
                 warnings := [];
                 corrections := [] |}, c)
    ∧ names_line line (lineno e).
Proof.
  intros Hp. exists (from_option str_of_N (py "None") (lineno e)).
  split; [|apply str_of_N_names_line].
  unfold validate_config. by rewrite Hp.
Qed.


(** A turn of the loop over the weights raises what [weight_raise]
    tells, and returns otherwise. *)
Lemma weight_step_cases ws n :
  match weight_raise n with
  | Some e => weight_step ws n = Raise e
  | None => ∃ ws', weight_step ws n = Return ws'
  end.
Proof.
  unfold weight_raise, weight_step, append_weight.
  repeat case_match; simplify_eq; eauto.
Qed.

Lemma weight_loop_cases ws nodes :
  match head (omap weight_raise nodes) with
  | Some e => weight_loop ws nodes = Raise e
  | None => ∃ ws', weight_loop ws nodes = Return ws'
  end.
Proof.
  revert ws. induction nodes as [|n nodes IH]; intros ws; [by eexists|].
  cbn [weight_loop omap list_omap].
  pose proof (weight_step_cases ws n) as Hn.
  destruct (weight_raise n) as [e|]; [simpl; by rewrite Hn|].
  destruct Hn as [ws' ->]. apply IH.
Qed.

Lemma bad_weight_raise n :
  bad_weight n = true → weight_raise n = Some TypeError.
Proof.
  destruct n as [| | | | | |arg v| | |]; try done.
  destruct arg as [arg|]; [|done].
  destruct v as [| | | | | | | |op o|]; try done.
  destruct op; try done. destruct o as [| | | | | | |k| |]; try done.
  simpl. intros [-> Hk]%andb_true_iff.
  by destruct k.
Qed.

(** The first keyword at which the loop raises, when some keyword
    is a bad weight. *)
Lemma first_raise_bad nodes :
  existsb bad_weight nodes = true →
  ∃ e, head (omap weight_raise nodes) = Some e
       ∧ (Forall (λ n, weight_raise n = None ∨ bad_weight n = true) nodes →
          e = TypeError).
Proof.
  induction nodes as [|n nodes IH]; [done|].
  cbn [existsb omap list_omap]. intros Hb.
  destruct (weight_raise n) as [e|] eqn:Hn.
  - exists e. split; [done|]. intros [[?|Hbad] _]%Forall_cons; [congruence|].
    apply bad_weight_raise in Hbad. congruence.
  - destruct (bad_weight n) eqn:Hbad.
    { apply bad_weight_raise in Hbad. congruence. }
    destruct (IH Hb) as (e & He & Hty). exists e. split; [done|].
    intros [_ ?]%Forall_cons. by apply Hty.
Qed.

(** On a text that parses, [validate_config] raises what the loop
    over the weights raises, and returns where the loop does. *)
Lemma validate_config_weights dir code c tree :
  ast_parse code = inr tree →
  match head (omap weight_raise (walk tree)) with
  | Some e => fst (validate_config dir code c) = Raise e
  | None => ∃ v, fst (validate_config dir code c) = Return v
  end.
Proof.
  intros Hp. unfold validate_config. rewrite Hp.
  destruct (load_api_whitelist dir c) as [whitelist c'].
  rewrite (check_api_symbols_spec _ _ _ Hp).
  destruct (bool_decide (whitelist ≠ ∅));
    [destruct (unknown_message whitelist <$> unknown_names whitelist tree)|];
    cbv beta iota;
    match goal with
    | |- context [weight_loop ?ws (walk tree)] =>
        pose proof (weight_loop_cases ws (walk tree)) as Hl
    end;
    (destruct (head (omap weight_raise (walk tree))) as [e|];
     [by rewrite Hl|destruct Hl as [ws' ->]; by eexists]).
Qed.

(** C3, at the inputs where it fails: when the text parses and some
    keyword argument [weight] negates a constant that is not a
    number, [validate_config] raises and returns no verdict; what it
    raises is [TypeError], unless the loop over the weights raises
    at another keyword as well. *)
Theorem validate_config_raises dir code c tree :
  ast_parse code = inr tree →
  existsb bad_weight (walk tree) = true →
  (∃ e, fst (validate_config dir code c) = Raise e)
  ∧ (Forall (λ n, weight_raise n = None ∨ bad_weight n = true) (walk tree) →
     fst (validate_config dir code c) = Raise TypeError).
Proof.
  intros Hp Hb. pose proof (validate_config_weights dir code c tree Hp) as Hw.
  destruct (first_raise_bad _ Hb) as (e & He & Hty). rewrite He in Hw.
  split; [by exists e|]. intros Hall. by rewrite <- (Hty Hall).
Qed.
End Validate.

End ValidateFacts.

(** ** The registry *)

Module RegistryFacts.
Import Validator.

Section Registry.
Context `{Unicode}.



(** Without the directory, the first call returns the empty set and
    caches it. *)
Lemma load_api_whitelist_absent_empty :
  load_api_whitelist None None = (∅, Some ∅).
Proof. done. Qed.
End Registry.

End RegistryFacts.

(** ** The normaliser on an unknown category *)

Module GeneratorFacts.
Import Re Generator.

Section Unknown.
Context `{Unicode}.

(** A step that has left no fix has found nothing and changed
    nothing. *)
Lemma replace_task_import_quiet st :
  snd (replace_task_import st) = [] →
  search task_mdp_pattern (fst st) = None ∧ replace_task_import st = st.
Proof.
  destruct st as [x fixes]. unfold replace_task_import. cbn [fst].
  destruct (search task_mdp_pattern x); cbn [snd]; [|done].
  by intros [_ ?]%app_nil.
Qed.

Lemma replace_from_import_quiet pattern note st :
  snd (replace_from_import pattern note st) = [] →
  search pattern (fst st) = None ∧ replace_from_import pattern note st = st.
Proof.
  destruct st as [x fixes]. unfold replace_from_import. cbn [fst].
  destruct (search pattern x); cbn [snd]; [|done].
  by intros [_ ?]%app_nil.
Qed.

Lemma note_literal_nucleus_quiet st :
  snd (note_literal_nucleus st) = [] →
  search literal_nucleus (fst st) = None ∧ note_literal_nucleus st = st.
Proof.
  destruct st as [x fixes]. unfold note_literal_nucleus. cbn [fst].
  destruct (search literal_nucleus x); cbn [snd]; [|done].
  by intros [_ ?]%app_nil.
Qed.

(** Without a robot configuration, steps 2 and 3 do nothing. *)
Lemma robot_steps_skipped st :
  replace_inline_robot None (inject_robot_import None st) = st.
Proof. by destruct st. Qed.

(** For a category that is not a key of [CATEGORY_ROBOT_CONFIG],
    the normaliser returns the text unchanged with no fix exactly
    when the text holds no task-scoped [mdp] import and no literal
    path in double quotes. *)
Lemma post_process_unknown_category (x category : text) :
  CATEGORY_ROBOT_CONFIG !! category = None →
  post_process_env_cfg x category = (x, []) ↔ nothing_to_fix x.
Proof.
  intros Hc. unfold post_process_env_cfg, nothing_to_fix. rewrite Hc.
  rewrite robot_steps_skipped. split.
  - intros Heq.
    pose proof (f_equal snd Heq) as H4. cbn [snd] in H4.
    apply note_literal_nucleus_quiet in H4 as [HD E4].
    rewrite E4 in Heq.
    pose proof (f_equal snd Heq) as H3. cbn [snd] in H3.
    apply replace_from_import_quiet in H3 as [HC E3].
    rewrite E3 in Heq, HD.
    pose proof (f_equal snd Heq) as H2. cbn [snd] in H2.
    apply replace_from_import_quiet in H2 as [HB E2].
    rewrite E2 in Heq, HC, HD.
    pose proof (f_equal snd Heq) as H1. cbn [snd] in H1.
    apply replace_task_import_quiet in H1 as [HA E1].
    rewrite E1 in HB, HC, HD. done.
  - intros (HA & HB & HC & HD).
    unfold replace_task_import. rewrite HA.
    unfold replace_from_import. rewrite HB, HC.
    unfold note_literal_nucleus. by rewrite HD.
Qed.

(** C1, at the inputs where it fails: for a category that is not a
    key of [CATEGORY_ROBOT_CONFIG] and a text that holds a
    task-scoped [mdp] import or a literal path in double quotes, the
    normaliser does not return the text unchanged with no fix: the
    import canonicalisation and the note of the literal path run
    whatever the category. *)
Theorem post_process_unknown_category_fails (x category : text) :
  CATEGORY_ROBOT_CONFIG !! category = None →
  ¬ nothing_to_fix x →
  post_process_env_cfg x category ≠ (x, []).
Proof.
  intros Hc Hx Heq. by apply Hx, (post_process_unknown_category x category Hc).
Qed.
End Unknown.

End GeneratorFacts.

(** ** The repair loop *)

Module CliFacts.
Import Re Validator Generator Cli Verdict ValidateFacts.

Section Loop.
Context `{Unicode} `{PyLib} `{Collaborator}.
Variable dir : api_dir.

(** Each turn of the loop sends at most one request. *)
Lemma repair_loop_requests attempts best_code result w :
  (length (requests (snd (repair_loop dir attempts best_code result w)))
   ≤ length (requests w) + length attempts)%nat.
Proof.
  revert best_code result w.
  induction attempts as [|attempt attempts IH]; intros best_code result w.
  - simpl. lia.
  - cbn [repair_loop]. destruct (is_valid result); [simpl; lia|].
    destruct (_build_whitelist_hint dir (errors result) (registry w)) as [hint c].
    destruct (repair_config _ _) as [repaired_code|e];
      [|cbn [snd requests]; rewrite length_app; simpl; lia].
    destruct (auto_correct_code _) as [best_code' cs].
    cbn [registry requests].
    destruct (validate_config dir best_code' c) as [[result'|e] c'].
    + etrans; [apply IH|]. cbn [requests length]. rewrite length_app. simpl. lia.
    + cbn [snd requests]. rewrite length_app. simpl. lia.
Qed.

(** The orchestrator sends at most [MAX_REPAIR_ATTEMPTS] requests,
    whether it returns or raises. *)
Lemma run_repair_requests_bounded generated category w :
  (length (requests (snd (run_repair dir generated category w)))
   ≤ length (requests w) + MAX_REPAIR_ATTEMPTS)%nat.
Proof.
  unfold run_repair. destruct (auto_correct_code generated) as [best_code cs].
  destruct (validate_config dir best_code (registry w)) as [[result|e] c].
  - pose proof (repair_loop_requests (seq 0 MAX_REPAIR_ATTEMPTS) best_code result
                  {| registry := c; requests := requests w |}) as Hle.
    destruct (repair_loop _ _ _ _ _) as [[[best_code' result']|e] w'];
      cbn [snd requests] in *; rewrite length_seq in Hle; exact Hle.
  - cbn [snd requests]. lia.
Qed.

(** What the orchestrator does with what the first validation
    raises. *)
Lemma run_repair_first_raise generated category w e :
  fst (validate_config dir (fst (auto_correct_code generated)) (registry w))
  = Raise e →
  fst (run_repair dir generated category w) = Raise e
  ∧ requests (snd (run_repair dir generated category w)) = requests w.
Proof.
  intros Hr. unfold run_repair.
  destruct (auto_correct_code generated) as [best_code cs]. cbn [fst] in Hr.
  destruct (validate_config dir best_code (registry w)) as [[result|e'] c];
    cbn [fst] in Hr; [done|].
  by injection Hr as ->.
Qed.

(** C5, at the inputs where it fails: when the generated text, once
    auto-corrected, parses and holds a keyword argument [weight]
    that negates a constant that is not a number, the orchestrator
    raises: it returns no artifact and no verdict (and has sent no
    request).  What it raises is [TypeError], unless the loop over
    the weights raises at another keyword as well. *)
Theorem run_repair_raises generated category w tree :
  ast_parse (fst (auto_correct_code generated)) = inr tree →
  existsb bad_weight (walk tree) = true →
  (∃ e, fst (run_repair dir generated category w) = Raise e)
  ∧ (Forall (λ n, weight_raise n = None ∨ bad_weight n = true) (walk tree) →
     fst (run_repair dir generated category w) = Raise TypeError)
  ∧ requests (snd (run_repair dir generated category w)) = requests w.
Proof.
  intros Hp Hb.
  pose proof (validate_config_weights dir _ (registry w) tree Hp) as Hw.
  destruct (first_raise_bad _ Hb) as (e & He & Hty). rewrite He in Hw.
  destruct (run_repair_first_raise generated category w e Hw) as [Hr Hq].
  split; [by exists e|]. split; [|done].
  intros Hall. by rewrite <- (Hty Hall).
Qed.
End Loop.

End CliFacts.

(** ** Scanning a text for a pattern *)

Module ScanFacts.
Import Re ReSplit ReFacts TextFacts.

Section Scan.
Context `{Unicode}.

(** The equations of the matcher. *)
Lemma run_Seq {R} r1 r2 pos prev (s : text) g (k : cont R) :
  run (Seq r1 r2) pos prev s g k
  = run r1 pos prev s g (λ pos' prev' s' g', run r2 pos' prev' s' g' k).
Proof. done. Qed.

Lemma run_Lit {R} l pos prev (s : text) g (k : cont R) :
  run (Lit l) pos prev s g k = lit l pos prev s g k.
Proof. done. Qed.

Lemma run_Group {R} r1 pos prev (s : text) g (k : cont R) :
  run (Group r1) pos prev s g k
  = run r1 pos prev s g (λ pos' prev' s' _, k pos' prev' s' (Some (pos, pos'))).
Proof. done. Qed.

Lemma run_Bol {R} pos prev (s : text) g (k : cont R) :
  run Bol pos prev s g k
  = match prev with
    | None => k pos prev s g
    | Some c => if c =? NL then k pos prev s g else None
    end.
Proof. done. Qed.

Lemma run_Cls {R} p pos prev (s : text) g (k : cont R) :
  run (Cls p) pos prev s g k
  = match s with
    | d :: s' => if p d then k (S pos) (Some d) s' g else None
    | [] => None
    end.
Proof. done. Qed.

(** Where the pattern is found nowhere, [sub] and [split] leave the
    text whole. *)
Lemma sub_go_none r repl pos prev (s : text) :
  search_go r pos prev s = None → sub_go r repl 0 pos prev s = s.
Proof.
  revert pos prev. induction s as [|d s IH]; intros pos prev;
    cbn [search_go sub_go]; destruct (match_here r pos prev _); try done.
  intros Hs. f_equal. by apply IH.
Qed.

Lemma split_go_none r pos prev (s piece : text) :
  search_go r pos prev s = None →
  split_go r 0 pos prev s piece = [piece ++ s].
Proof.
  revert pos prev piece. induction s as [|d s IH]; intros pos prev piece;
    cbn [search_go split_go]; destruct (match_here r pos prev _); try done.
  - by rewrite app_nil_r.
  - intros Hs. rewrite (IH _ _ _ Hs). by rewrite <- app_assoc.
Qed.

(** A pattern that matches only where [p] can be read is found in
    no text without [p]. *)
Lemma search_go_needs r (p : text) pos prev (s : text) :
  (∀ pos prev s, is_Some (match_here r pos prev s) → contains p s = true) →
  contains p s = false → search_go r pos prev s = None.
Proof.
  intros Hneeds. revert pos prev.
  induction s as [|d s IH]; intros pos prev Hc; cbn [search_go].
  - destruct (match_here r pos prev []) eqn:Hm; [|done].
    rewrite (Hneeds pos prev) in Hc; [done|by rewrite Hm].
  - destruct (match_here r pos prev (d :: s)) eqn:Hm.
    + rewrite (Hneeds pos prev) in Hc; [done|by rewrite Hm].
    + apply IH. cbn [contains] in Hc. by apply orb_false_iff in Hc as [_ ?].
Qed.

(** The character before the cursor, once [a] is read. *)
Lemma prev_cons (prev : option N) (c : N) (a : text) :
  from_option Some (Some c) (last a) = from_option Some prev (last (c :: a)).
Proof. rewrite last_cons. by destruct (last a). Qed.

(** The characters a match covers are skipped. *)
Lemma sub_go_skip r repl (a b : text) pos prev :
  sub_go r repl (length a) pos prev (a ++ b)
  = sub_go r repl 0 (pos + length a) (from_option Some prev (last a)) b.
Proof.
  revert pos prev. induction a as [|c a IH]; intros pos prev.
  - simpl. by rewrite Nat.add_0_r.
  - cbn [length app sub_go]. rewrite IH. f_equal; [lia|].
    apply prev_cons.
Qed.

Lemma sub_go_match r repl (a b : text) pos prev m :
  a ≠ [] →
  match_here r pos prev (a ++ b) = Some m →
  m_end m = (pos + length a)%nat →
  sub_go r repl 0 pos prev (a ++ b)
  = repl ++ sub_go r repl 0 (pos + length a) (from_option Some prev (last a)) b.
Proof.
  intros Ha Hm He. destruct a as [|c a]; [done|].
  cbn [app sub_go]. change (c :: a ++ b) with ((c :: a) ++ b). rewrite Hm, He.
  cbn [length]. replace (pos + S (length a) - pos)%nat with (S (length a)) by lia.
  f_equal. rewrite sub_go_skip. f_equal; [lia|]. apply prev_cons.
Qed.

(** The characters where no match starts are copied. *)
Lemma sub_go_copy r repl (a b : text) pos prev :
  (∀ a1 a2 pos' prev', a = a1 ++ a2 → a2 ≠ [] →
                       match_here r pos' prev' (a2 ++ b) = None) →
  sub_go r repl 0 pos prev (a ++ b)
  = a ++ sub_go r repl 0 (pos + length a) (from_option Some prev (last a)) b.
Proof.
  revert pos prev. induction a as [|c a IH]; intros pos prev Hno.
  - simpl. by rewrite Nat.add_0_r.
  - cbn [app sub_go]. change (c :: a ++ b) with ((c :: a) ++ b).
    rewrite (Hno [] (c :: a)); [|done|done]. cbn [app]. f_equal.
    rewrite IH.
    + f_equal. f_equal; [simpl; lia|apply prev_cons].
    + intros a1 a2 pos' prev' -> Hne. by apply (Hno (c :: a1) a2).
Qed.

(** The same for [split]. *)
Lemma split_go_skip r (a b piece : text) pos prev :
  split_go r (length a) pos prev (a ++ b) piece
  = split_go r 0 (pos + length a) (from_option Some prev (last a)) b piece.
Proof.
  revert pos prev. induction a as [|c a IH]; intros pos prev.
  - simpl. by rewrite Nat.add_0_r.
  - cbn [length app split_go]. rewrite IH. f_equal; [lia|].
    apply prev_cons.
Qed.

Lemma split_go_match r (a b piece : text) pos prev m :
  a ≠ [] →
  match_here r pos prev (a ++ b) = Some m →
  m_end m = (pos + length a)%nat →
  split_go r 0 pos prev (a ++ b) piece
  = piece :: split_go r 0 (pos + length a)
               (from_option Some prev (last a)) b [].
Proof.
  intros Ha Hm He. destruct a as [|c a]; [done|].
  cbn [app split_go]. change (c :: a ++ b) with ((c :: a) ++ b). rewrite Hm, He.
  cbn [length]. replace (pos + S (length a) - pos)%nat with (S (length a)) by lia.
  f_equal. rewrite split_go_skip. f_equal; [lia|]. apply prev_cons.
Qed.

Lemma split_go_copy r (a b piece : text) pos prev :
  (∀ a1 a2 pos' prev', a = a1 ++ a2 → a2 ≠ [] →
                       match_here r pos' prev' (a2 ++ b) = None) →
  split_go r 0 pos prev (a ++ b) piece
  = split_go r 0 (pos + length a) (from_option Some prev (last a)) b
      (piece ++ a).
Proof.
  revert pos prev piece. induction a as [|c a IH]; intros pos prev piece Hno.
  - simpl. by rewrite Nat.add_0_r, app_nil_r.
  - cbn [app split_go]. change (c :: a ++ b) with ((c :: a) ++ b).
    rewrite (Hno [] (c :: a)); [|done|done]. cbn [app].
    rewrite IH.
    + rewrite <- app_assoc. f_equal; [simpl; lia|apply prev_cons].
    + intros a1 a2 pos' prev' -> Hne. by apply (Hno (c :: a1) a2).
Qed.

(** A greedy repetition followed by what always succeeds takes
    every character of the class. *)
Lemma star_greedy {R} (p : N → bool) (ws rest : text) pos prev g
    (k : cont R) (r : R) :
  Forall (λ c, p c = true) ws →
  match rest with [] => True | c :: _ => p c = false end →
  (∀ prev', k (pos + length ws)%nat prev' rest g = Some r) →
  star p pos prev (ws ++ rest) g k = Some r.
Proof.
  revert pos prev. induction ws as [|c ws IH]; intros pos prev Hws Hrest Hk.
  - cbn [app]. rewrite Nat.add_0_r in Hk.
    destruct rest as [|d rest]; cbn [star]; [apply Hk|].
    rewrite Hrest. apply Hk.
  - apply Forall_cons in Hws as [Hc Hws]. cbn [app star]. rewrite Hc.
    rewrite (IH (S pos) (Some c)); [done|done|done|].
    intros prev'. rewrite <- (Hk prev'). f_equal. simpl. lia.
Qed.

Lemma plus_greedy {R} (p : N → bool) (ws rest : text) pos prev g
    (k : cont R) (r : R) :
  ws ≠ [] → Forall (λ c, p c = true) ws →
  match rest with [] => True | c :: _ => p c = false end →
  (∀ prev', k (pos + length ws)%nat prev' rest g = Some r) →
  run (Plus p) pos prev (ws ++ rest) g k = Some r.
Proof.
  intros Hne Hws Hrest Hk. destruct ws as [|c ws]; [done|].
  apply Forall_cons in Hws as [Hc Hws]. cbn [run app]. rewrite Hc.
  apply star_greedy; [done|done|].
  intros prev'. rewrite <- (Hk prev'). f_equal. simpl. lia.
Qed.

(** A text read across the end of [t] holds the character that
    follows [t]. *)
Lemma starts_with_across (p t u : text) (c : N) :
  c ∉ p → starts_with p (t ++ c :: u) = true → starts_with p t = true.
Proof.
  revert t. induction p as [|x p IH]; intros t Hc; [done|].
  destruct t as [|y t]; cbn [app starts_with].
  - intros [Hx _]%andb_true_iff. apply N.eqb_eq in Hx. subst.
    exfalso. apply Hc. by left.
  - intros [Hx Hp]%andb_true_iff. rewrite Hx. simpl.
    apply IH; [|done]. intros ?. apply Hc. by right.
Qed.

Lemma contains_starts (p s : text) :
  starts_with p s = true → contains p s = true.
Proof. intros Hs. destruct s; simpl in *; by rewrite Hs. Qed.

Lemma contains_suffix (p a b : text) :
  contains p b = true → contains p (a ++ b) = true.
Proof.
  intros Hb. induction a as [|c a IH]; [done|].
  cbn [app contains]. rewrite IH. apply orb_true_r.
Qed.

Lemma contains_snoc (p s : text) (c : N) :
  p ≠ [] → c ∉ p → contains p (s ++ [c]) = true → contains p s = true.
Proof.
  intros Hp Hc. induction s as [|d s IH].
  - cbn [app contains]. destruct p as [|x p]; [done|].
    cbn [starts_with]. destruct (N.eqb_spec x c) as [->|_].
    + exfalso. apply Hc. by left.
    + by destruct p.
  - cbn [app contains]. intros [Hs|Hs]%orb_true_iff.
    + change (d :: s ++ [c]) with ((d :: s) ++ [c]) in Hs.
      apply starts_with_across in Hs; [|done].
      by rewrite Hs.
    + rewrite (IH Hs). apply orb_true_r.
Qed.
End Scan.

End ScanFacts.

(** ** What the auto-corrector reports and what it leaves *)

Module ReportFacts.
Import Re Literal ReFacts RewriteFacts Validator AutoCorrectFacts.

Section Report.
Context `{Unicode}.

(** A turn of the loop only appends to the report, and it changes
    the text only when it appends. *)
Lemma correction_step_report s l e :
  ∃ new, snd (correction_step (s, l) e) = l ++ new
         ∧ (new = [] → fst (correction_step (s, l) e) = s).
Proof.
  destruct e as [w [r|]]; simpl.
  - destruct (search (correction_pattern w) s); simpl.
    + eexists. split; [done|discriminate].
    + exists []. by rewrite app_nil_r.
  - exists []. by rewrite app_nil_r.
Qed.

Lemma correction_loop_report todo s l :
  ∃ new, snd (foldl correction_step (s, l) todo) = l ++ new
         ∧ (new = [] → fst (foldl correction_step (s, l) todo) = s).
Proof.
  revert s l. induction todo as [|e todo IH]; intros s l.
  - exists []. by rewrite app_nil_r.
  - cbn [foldl].
    destruct (correction_step_report s l e) as (new1 & Hl1 & Hs1).
    destruct (correction_step (s, l) e) as [s1 l1]. cbn [fst snd] in *.
    destruct (IH s1 l1) as (new2 & Hl2 & Hs2).
    exists (new1 ++ new2). split.
    + rewrite Hl2, Hl1. by rewrite app_assoc.
    + intros [-> ->]%app_nil. rewrite Hs2, Hs1; done.
Qed.

Lemma common_corrections_all_some :
  forallb (λ e : text * option text, bool_decide (is_Some e.2))
          COMMON_CORRECTIONS = true.
Proof. vm_compute. reflexivity. Qed.

(** X1: the text [auto_correct_code] returns holds no occurrence
    of the pattern of any entry of [COMMON_CORRECTIONS]: no wrong
    name is left on the alias at a word boundary. *)
Theorem auto_correct_code_leaves_no_wrong_name (x : text) :
  Forall (λ e : text * option text,
            search (correction_pattern e.1) (fst (auto_correct_code x)) = None)
         COMMON_CORRECTIONS.
Proof.
  apply Forall_forall. intros [w r] Hin. cbn [fst].
  pose proof common_corrections_all_some as Hall.
  rewrite List.forallb_forall in Hall.
  specialize (Hall _ (proj1 (list_elem_of_In _ _) Hin)).
  apply bool_decide_eq_true in Hall as [r' Hr]. cbn [snd] in Hr. subst r.
  pose proof (table_ok_entry _ _ common_corrections_ok Hin) as He.
  apply entry_ok_inv in He as [Hne Hw].
  assert (clean COMMON_CORRECTIONS (fst (auto_correct_code x))) as Hc.
  { apply (pass_clean COMMON_CORRECTIONS COMMON_CORRECTIONS []);
      [apply common_corrections_ok|done|].
    intros w2 r2 Hin2. by apply elem_of_nil in Hin2. }
  specialize (Hc w r' Hin).
  pose proof (search_correction w (fst (auto_correct_code x)) Hne Hw) as Hs.
  destruct (search (correction_pattern w) (fst (auto_correct_code x)));
    [|done].
  destruct Hs as [Hs _]. rewrite Hs in Hc; [done|by eexists].
Qed.

(** X2: [auto_correct_code] reports a correction exactly when it
    changes the text: the text comes back as it was if and only if
    the list of corrections is empty. *)
Theorem auto_correct_code_reports_changes (x : text) :
  fst (auto_correct_code x) = x ↔ snd (auto_correct_code x) = [].
Proof.
  split.
  - intros Hx.
    pose proof (auto_correct_with_idempotent COMMON_CORRECTIONS x
                  common_corrections_ok) as Hi.
    fold (auto_correct_code x) in Hi. rewrite Hx in Hi.
    fold (auto_correct_code x) in Hi. by rewrite Hi.
  - intros Hl.
    destruct (correction_loop_report COMMON_CORRECTIONS x [])
      as (new & Hnew & Hs).
    apply Hs. unfold auto_correct_code, auto_correct_with in Hl.
    rewrite Hl in Hnew. done.
Qed.
End Report.

End ReportFacts.

(** ** The verdict of the structural validator *)

Module VerdictFacts.
Import Re Validator Verdict WalkFacts TextFacts SymbolFacts ValidateFacts.

Section Verdicts.
Context `{Unicode} `{PyLib}.

(** The registry after a call is the cache of the whitelist it
    used. *)
Lemma load_api_whitelist_again dir dir' c :
  load_api_whitelist dir' (snd (load_api_whitelist dir c))
  = (fst (load_api_whitelist dir c), snd (load_api_whitelist dir c)).
Proof. by destruct c. Qed.

Lemma tracks_fresh : tracks fresh_result [] [].
Proof. done. Qed.

Lemma tracks_fail_unless (b : bool) m r es ws :
  tracks r es ws →
  tracks (if negb b then fail m r else r) (es ++ if b then [] else [m]) ws.
Proof.
  intros (<- & Hv & Hw & Hc). destruct b; cbn [negb].
  - by rewrite app_nil_r.
  - repeat split; [|done|done]. cbn [fail is_valid]. symmetry.
    apply bool_decide_eq_false. intros [_ ?]%app_nil. done.
Qed.

Lemma tracks_fail_if (b : bool) m r es ws :
  tracks r es ws →
  tracks (if b then fail m r else r) (es ++ if b then [m] else []) ws.
Proof.
  intros (<- & Hv & Hw & Hc). destruct b.
  - repeat split; [|done|done]. cbn [fail is_valid]. symmetry.
    apply bool_decide_eq_false. intros [_ ?]%app_nil. done.
  - by rewrite app_nil_r.
Qed.

Lemma tracks_warn {A} (o : option A) w r es :
  tracks r es [] →
  tracks (match o with Some _ => warn w r | None => r end) es
         (match o with Some _ => [w] | None => [] end).
Proof. intros (<- & Hv & Hw & Hc). destruct o; [|done]. split; [done|].
       split; [done|]. split; [|done]. cbn [warn warnings]. by rewrite Hw. Qed.

Lemma tracks_fail_all u us r es ws :
  tracks r es ws → tracks (fail_all (u :: us) r) (es ++ u :: us) ws.
Proof.
  intros (<- & Hv & Hw & Hc). repeat split; [|done|done].
  cbn [fail_all is_valid]. symmetry.
  apply bool_decide_eq_false. intros [_ ?]%app_nil. done.
Qed.

(** [validate_config] on a text that parses: the errors are those
    of the checks, in their order; the verdict is valid exactly when
    there is none; the registry is loaded. *)
Lemma validate_config_parsed dir code c tree :
  ast_parse code = inr tree →
  validate_config dir code c
  = (match weight_loop (match search task_mdp_pattern code with
                        | Some _ => [task_import_warning]
                        | None => []
                        end) (walk tree) with
     | Raise e => Raise e
     | Return ws =>
         Return {| is_valid :=
                     bool_decide (errors_of tree code
                                    (fst (load_api_whitelist dir c)) = []);
                   errors := errors_of tree code (fst (load_api_whitelist dir c));
                   warnings := ws;
                   corrections := [] |}
     end, snd (load_api_whitelist dir c)).
Proof.
  intros Hp. unfold validate_config, errors_of. rewrite Hp.
  destruct (load_api_whitelist dir c) as [whitelist c'].
  rewrite (check_api_symbols_spec _ _ _ Hp).
  cbn [fst snd]. cbv zeta.
  generalize (unknown_message whitelist <$> unknown_names whitelist tree).
  intros us.
  destruct (bool_decide (whitelist ≠ ∅)); [destruct us as [|u us]|];
    cbv beta iota;
    (match goal with
     | |- context [weight_loop (warnings ?r) _] =>
         match goal with
         | |- context [bool_decide (?E = [])] =>
             assert (tracks r E
                       (match search task_mdp_pattern code with
                        | Some _ => [task_import_warning]
                        | None => []
                        end)) as (He & Hv & Hw & Hc)
         end
     end;
     [rewrite !app_assoc; apply tracks_warn, tracks_fail_if;
      first [apply tracks_fail_all|rewrite app_nil_r];
      rewrite <- (app_nil_l (if existsb _ _ then _ else _));
      repeat apply tracks_fail_unless; apply tracks_fresh
     |rewrite He, Hv, Hw, Hc; by destruct (weight_loop _ _)]).
Qed.

Lemma validate_config_unparsed dir code c e :
  ast_parse code = inl (SyntaxError e) →
  snd (validate_config dir code c) = c
  ∧ ∃ v, fst (validate_config dir code c) = Return v ∧ is_valid v = false.
Proof. intros Hp. unfold validate_config. rewrite Hp. eauto. Qed.

(** A verdict is returned only where [ast.parse] returns a tree or
    raises [SyntaxError]. *)
Lemma validate_config_returned dir code c v :
  fst (validate_config dir code c) = Return v →
  (∃ e, ast_parse code = inl (SyntaxError e))
  ∨ ∃ tree, ast_parse code = inr tree.
Proof.
  destruct (ast_parse code) as [e|tree] eqn:Hp; [|by eauto].
  destruct e; try (by eauto);
    unfold validate_config; by rewrite Hp.
Qed.

(** The registry [validate_config] leaves: untouched on a text that
    does not parse, loaded otherwise. *)
Lemma validate_config_registry dir code c :
  snd (validate_config dir code c)
  = match ast_parse code with
    | inl _ => c
    | inr _ => snd (load_api_whitelist dir c)
    end.
Proof.
  destruct (ast_parse code) as [e|tree] eqn:Hp.
  - unfold validate_config. rewrite Hp. by destruct e.
  - by rewrite (validate_config_parsed _ _ _ _ Hp).
Qed.

Lemma validate_config_again dir dir' code c :
  validate_config dir' code (snd (validate_config dir code c))
  = validate_config dir code c.
Proof.
  rewrite validate_config_registry.
  destruct (ast_parse code) as [e|tree] eqn:Hp.
  - unfold validate_config. by rewrite Hp.
  - rewrite !(validate_config_parsed _ _ _ _ Hp).
    by rewrite load_api_whitelist_again.
Qed.

(** X3: a verdict is reproducible: validating the same text again
    with the registry the first call left gives the same outcome
    and the same registry, whatever the reference directory has
    become in between. *)
Theorem validate_config_reproducible dir dir' code c :
  validate_config dir' code (snd (validate_config dir code c))
  = validate_config dir code c.
Proof. apply validate_config_again. Qed.

(** The verdict on a text that parses. *)
Lemma validate_config_errors dir code c tree v :
  ast_parse code = inr tree →
  fst (validate_config dir code c) = Return v →
  errors v = errors_of tree code (fst (load_api_whitelist dir c))
  ∧ is_valid v = bool_decide (errors v = []).
Proof.
  intros Hp Hv. rewrite (validate_config_parsed _ _ _ _ Hp) in Hv.
  cbn [fst] in Hv. destruct (weight_loop _ _) as [ws|e]; [|done].
  by injection Hv as <-.
Qed.

(** *** What each check looks for *)

Lemma existsb_elem {A} (f : A → bool) (l : list A) :
  existsb f l = true ↔ ∃ x, x ∈ l ∧ f x = true.
Proof.
  rewrite List.existsb_exists. split; intros (x & Hx & Hf); exists x;
    (split; [by apply list_elem_of_In|done]).
Qed.

Lemma class_check (p : text) (nodes : list node) :
  existsb (contains p) (omap class_name nodes) = true
  ↔ ∃ name body, ClassDef name body ∈ nodes ∧ contains p name = true.
Proof.
  rewrite existsb_elem. split.
  - intros (name & Hin & Hc). apply list_elem_of_omap in Hin as (n & Hn & Hname).
    destruct n; try done. injection Hname as ->. eauto.
  - intros (name & body & Hin & Hc). exists name. split; [|done].
    apply list_elem_of_omap. by exists (ClassDef name body).
Qed.

Lemma method_check (m : text) (nodes : list node) :
  m ∈ omap method_name nodes ↔ ∃ body, FunctionDef m body ∈ nodes.
Proof.
  rewrite list_elem_of_omap. split.
  - intros (n & Hn & Hname). destruct n; try done. injection Hname as ->. eauto.
  - intros (body & Hin). by exists (FunctionDef m body).
Qed.

Lemma import_step_isaac b n :
  import_step b n = b || isaac_import n.
Proof.
  destruct n as [| |names|module names| | | | | |]; simpl;
    rewrite ?orb_false_r; try done.
  - destruct (existsb is_isaac names); by rewrite ?orb_true_r, ?orb_false_r.
  - destruct module as [module|]; [|by rewrite orb_false_r].
    destruct (is_isaac module); by rewrite ?orb_true_r, ?orb_false_r.
Qed.

Lemma import_check b (nodes : list node) :
  foldl import_step b nodes = true
  ↔ b = true ∨ ∃ n, n ∈ nodes ∧ isaac_import n = true.
Proof.
  revert b. induction nodes as [|n nodes IH]; intros b.
  - simpl. split; [by left|]. intros [?|(n & Hn & _)]; [done|].
    by apply elem_of_nil in Hn.
  - cbn [foldl]. rewrite IH, import_step_isaac, orb_true_iff. split.
    + intros [[?|Hn]|(n' & Hin & Hn')]; [by left| |].
      * right. exists n. split; [by left|done].
      * right. exists n'. split; [by right|done].
    + intros [?|(n' & [->|Hin]%elem_of_cons & Hn')]; [by left; left| |].
      * left. by right.
      * right. by exists n'.
Qed.

(** The whitelist check passes exactly when every name read on the
    alias is in the whitelist. *)
Lemma symbol_check whitelist tree :
  unknown_message whitelist <$> unknown_names whitelist tree = []
  ↔ ∀ n, n ∈ accessed tree → n ∈ whitelist.
Proof.
  split.
  - intros Hnil n Hn. apply fmap_nil_inv in Hnil.
    destruct (decide (n ∈ whitelist)) as [|Hw]; [done|].
    assert (n ∈ unknown_names whitelist tree) as Hu
      by by apply unknown_names_elem.
    rewrite Hnil in Hu. by apply elem_of_nil in Hu.
  - intros Hall. destruct (unknown_names whitelist tree) as [|n l] eqn:Hu;
      [done|].
    assert (n ∈ unknown_names whitelist tree) as Hn by (rewrite Hu; by left).
    apply unknown_names_elem in Hn as [Hn Hw]. by apply Hall in Hn.
Qed.

(** Every message of the whitelist check starts in the same way. *)
Lemma symbol_message whitelist (names : list text) e :
  e ∈ unknown_message whitelist <$> names →
  starts_with (py "Unknown MDP function") e = true.
Proof.
  intros (n & -> & _)%list_elem_of_fmap.
  unfold unknown_message.
  change (py "Unknown MDP function: mdp.")
    with (py "Unknown MDP function" ++ py ": mdp.").
  rewrite <- !app_assoc. apply starts_with_app.
Qed.

Lemma if_nil {A} (b : bool) (x : A) : (if b then [] else [x]) = [] ↔ b = true.
Proof. by destruct b. Qed.

Lemma errors_of_nil tree code whitelist :
  errors_of tree code whitelist = []
  ↔ existsb (contains (py "EnvCfg")) (omap class_name (walk tree)) = true
    ∧ existsb (contains (py "RewardsCfg")) (omap class_name (walk tree)) = true
    ∧ bool_decide (py "__post_init__" ∈ omap method_name (walk tree)) = true
    ∧ foldl import_step false (walk tree) = true
    ∧ (whitelist = ∅
       ∨ unknown_message whitelist <$> unknown_names whitelist tree = [])
    ∧ has_literal_path code = false.
Proof.
  unfold errors_of. rewrite !app_nil, !if_nil.
  assert ((if bool_decide (whitelist ≠ ∅)
           then unknown_message whitelist <$> unknown_names whitelist tree
           else []) = []
          ↔ whitelist = ∅
            ∨ unknown_message whitelist <$> unknown_names whitelist tree = [])
    as ->.
  { destruct (bool_decide_reflect (whitelist ≠ ∅)) as [Hne|He].
    - split; [by right|]. by intros [?|?].
    - split; [|done]. intros _. left.
      by destruct (decide (whitelist = ∅)). }
  assert ((if has_literal_path code then [literal_path] else []) = []
          ↔ has_literal_path code = false) as ->
    by by destruct (has_literal_path code).
  tauto.
Qed.

(** X4: what a valid verdict means.  The verdict [validate_config]
    returns is valid exactly when the text parses, its tree holds a
    class whose name contains [EnvCfg], a class whose name contains
    [RewardsCfg], a method [__post_init__] and an import whose module
    name contains [isaaclab] or [omni.isaac], every name read on the
    alias is in the whitelist (or the whitelist is empty), and the
    text holds [ISAACLAB_NUCLEUS_DIR/] after neither a double nor a
    single quote.  No warning bears on it. *)
Theorem validate_config_valid_iff dir code c v :
  fst (validate_config dir code c) = Return v →
  is_valid v = true ↔
    ∃ tree, ast_parse code = inr tree
      ∧ (∃ name body, ClassDef name body ∈ walk tree
                      ∧ contains (py "EnvCfg") name = true)
      ∧ (∃ name body, ClassDef name body ∈ walk tree
                      ∧ contains (py "RewardsCfg") name = true)
      ∧ (∃ body, FunctionDef (py "__post_init__") body ∈ walk tree)
      ∧ (∃ n, n ∈ walk tree ∧ isaac_import n = true)
      ∧ (fst (load_api_whitelist dir c) = ∅
         ∨ ∀ n, n ∈ accessed tree → n ∈ fst (load_api_whitelist dir c))
      ∧ has_literal_path code = false.
Proof.
  intros Hv.
  destruct (validate_config_returned dir code c v Hv) as [[e Hp]|[tree Hp]].
  - destruct (validate_config_unparsed dir code c e Hp) as (_ & v' & Hv' & Hf).
    rewrite Hv in Hv'. injection Hv' as <-. rewrite Hf.
    split; [done|]. intros (tree & ? & _). congruence.
  - destruct (validate_config_errors dir code c tree v Hp Hv) as [He ->].
    rewrite bool_decide_eq_true, He, errors_of_nil.
    rewrite !class_check, bool_decide_eq_true, method_check, import_check.
    rewrite symbol_check. split.
    + intros (H1 & H2 & H3 & [?|H4] & H5 & H6); [done|].
      exists tree. tauto.
    + intros (tree' & Hp' & H1 & H2 & H3 & H4 & H5 & H6).
      rewrite Hp in Hp'. injection Hp' as <-. tauto.
Qed.
End Verdicts.

End VerdictFacts.

(** ** The class the generator registers *)

Module FinderFacts.
Import Re Validator Verdict Generator TextFacts SymbolFacts VerdictFacts.

Section Finder.
Context `{Unicode} `{Str.UnicodeData} `{PyLib}.

Lemma first_env_cfg_class_none (nodes : list node) :
  first_env_cfg_class nodes = None
  ↔ existsb (contains (py "EnvCfg")) (omap class_name nodes) = false.
Proof.
  induction nodes as [|n nodes IH]; [done|].
  destruct n as [name body| | | | | | | | |]; cbn [first_env_cfg_class omap list_omap class_name];
    try exact IH.
  fold (omap class_name nodes). cbn [existsb].
  destruct (contains (py "EnvCfg") name); [done|]. exact IH.
Qed.

Lemma first_env_cfg_class_some (nodes : list node) name :
  first_env_cfg_class nodes = Some name →
  contains (py "EnvCfg") name = true
  ∧ ∃ body, ClassDef name body ∈ nodes.
Proof.
  induction nodes as [|n nodes IH]; [done|].
  destruct n as [name' body| | | | | | | | |]; cbn [first_env_cfg_class];
    try (intros Hf; destruct (IH Hf) as (? & body' & ?); split; [done|];
         exists body'; by right).
  destruct (contains (py "EnvCfg") name') eqn:Hc.
  - intros [= <-]. split; [done|]. exists body. by left.
  - intros Hf; destruct (IH Hf) as (? & body' & ?); split; [done|].
    exists body'. by right.
Qed.

Lemma text_ne (a b : text) : bool_decide (a = b) = false → a ≠ b.
Proof. by intros ?%bool_decide_eq_false. Qed.

Ltac other_message Hin :=
  apply list_elem_of_singleton in Hin; exfalso; revert Hin;
  apply text_ne; vm_compute; reflexivity.

(** The message of the class check is the message of no other
    check. *)
Lemma missing_env_cfg_elem tree code whitelist :
  missing_env_cfg ∈ errors_of tree code whitelist
  ↔ existsb (contains (py "EnvCfg")) (omap class_name (walk tree)) = false.
Proof.
  unfold errors_of. rewrite !elem_of_app. split.
  - intros [Hin|[Hin|[Hin|[Hin|[Hin|Hin]]]]].
    + destruct (existsb _ _); [by apply elem_of_nil in Hin|done].
    + destruct (existsb (contains (py "RewardsCfg")) _);
        [by apply elem_of_nil in Hin|].
      other_message Hin.
    + destruct (bool_decide _); [by apply elem_of_nil in Hin|].
      other_message Hin.
    + destruct (foldl import_step false _); [by apply elem_of_nil in Hin|].
      other_message Hin.
    + destruct (bool_decide _); [|by apply elem_of_nil in Hin].
      apply symbol_message in Hin. by vm_compute in Hin.
    + destruct (has_literal_path code); [|by apply elem_of_nil in Hin].
      other_message Hin.
  - intros ->. left. by left.
Qed.

(** X5: the class finder of the generator and the class check of
    the validator agree.  On a text for which [validate_config]
    returns a verdict, [_find_env_cfg_class] returns too; it returns
    [None] exactly when [ast.parse] raises [SyntaxError] or the
    verdict holds the error of the missing configuration class; a
    name it returns contains [EnvCfg]; so on a text whose verdict is
    valid it returns a name and the registration never falls back on
    the default. *)
Theorem find_env_cfg_class_agrees dir code c v :
  fst (validate_config dir code c) = Return v →
  (∃ found, _find_env_cfg_class code = Return found)
  ∧ (_find_env_cfg_class code = Return None
     ↔ (∃ e, ast_parse code = inl (SyntaxError e))
       ∨ missing_env_cfg ∈ errors v)
  ∧ (∀ name, _find_env_cfg_class code = Return (Some name) →
             contains (py "EnvCfg") name = true)
  ∧ (is_valid v = true →
     ∃ name, _find_env_cfg_class code = Return (Some name)).
Proof.
  intros Hv. unfold _find_env_cfg_class.
  destruct (validate_config_returned dir code c v Hv) as [[e Hp]|[tree Hp]];
    rewrite Hp.
  - destruct (validate_config_unparsed dir code c e Hp) as (_ & v' & Hv' & Hf).
    rewrite Hv in Hv'. injection Hv' as <-.
    split; [by eexists|]. split; [split; eauto|]. split; [done|].
    by rewrite Hf.
  - destruct (validate_config_errors dir code c tree v Hp Hv) as [He Hval].
    assert (first_env_cfg_class (walk tree) = None
            ↔ missing_env_cfg ∈ errors v) as Hiff.
    { by rewrite He, missing_env_cfg_elem, first_env_cfg_class_none. }
    split; [by eexists|]. split; [|split].
    + split.
      * intros [= Hn]. right. by apply Hiff.
      * intros [[e ?]|Hm]; [done|]. f_equal. by apply Hiff.
    + intros name [= Hf]. by apply first_env_cfg_class_some in Hf as [? _].
    + intros Hvalid. rewrite Hvalid in Hval. symmetry in Hval.
      apply bool_decide_eq_true in Hval.
      destruct (first_env_cfg_class (walk tree)) as [name|]; [by eexists|].
      destruct Hiff as [Hiff _]. specialize (Hiff eq_refl).
      rewrite Hval in Hiff. by apply elem_of_nil in Hiff.
Qed.
End Finder.

End FinderFacts.

(** ** When the validator raises *)

Module RaiseFacts.
Import Re Validator Verdict ValidateFacts VerdictFacts.

Section Raises.
Context `{Unicode} `{PyLib}.

End Raises.

End RaiseFacts.

(** ** The whitelist hint of a repair request *)

Module HintFacts.
Import Re Validator Verdict Generator Cli TextFacts ScanFacts SymbolFacts
       VerdictFacts.

(** The order of [str] is total, which makes [sorted] sort. *)
Lemma text_leb_total (a b : text) : text_leb a b = true ∨ text_leb b a = true.
Proof.
  revert b. induction a as [|x a IH]; intros [|y b]; simpl; auto.
  destruct (N.ltb_spec x y) as [Hxy|Hxy]; [by left|].
  destruct (N.ltb_spec y x) as [Hyx|Hyx]; [by right|].
  assert (x = y) as -> by lia. rewrite N.eqb_refl. simpl. apply IH.
Qed.

Lemma text_le_total : Total text_le.
Proof. intros a b. apply text_leb_total. Qed.

Lemma join_elem (sep x : text) (l : list text) :
  x ∈ l → ∃ a b, join sep l = a ++ x ++ b.
Proof.
  induction l as [|y l IH]; [by intros ?%elem_of_nil|].
  intros [->|Hin]%elem_of_cons.
  - exists []. destruct l as [|z l]; simpl.
    + exists []. by rewrite app_nil_r.
    + by eexists.
  - destruct (IH Hin) as (a & b & Hj). destruct l as [|z l];
      [by apply elem_of_nil in Hin|].
    exists (y ++ sep ++ a), b. cbn [join] in *. rewrite Hj.
    by rewrite <- !app_assoc.
Qed.

Lemma sorted_elem (s : gset text) (x : text) : x ∈ sorted s ↔ x ∈ s.
Proof. unfold sorted. by rewrite merge_sort_Permutation, elem_of_elements. Qed.

Section Hint.
Context `{Unicode} `{PyLib}.
Variable dir : api_dir.

(** X7: what the hint holds.  When some error reports an unknown
    function, the hint is the header line followed by the symbols
    of the registry, each once, in ascending order, separated by a
    comma and a space; so every symbol of the registry can be read
    in it. *)
Theorem whitelist_hint_lists_registry (errors : list text) (c : cache) :
  existsb (contains (py "Unknown MDP function")) errors = true →
  ∃ names,
    fst (_build_whitelist_hint dir errors c)
      = hint_header ++ [NL] ++ join (py ", ") names
    ∧ Sorted text_le names
    ∧ NoDup names
    ∧ (∀ n, n ∈ names ↔ n ∈ fst (load_api_whitelist dir c))
    ∧ (∀ n, n ∈ fst (load_api_whitelist dir c) →
            contains n (fst (_build_whitelist_hint dir errors c)) = true).
Proof.
  intros He. unfold _build_whitelist_hint. rewrite He. cbn [negb].
  destruct (load_api_whitelist dir c) as [whitelist c']. cbn [fst].
  exists (sorted whitelist). split; [done|].
  split; [apply (@Sorted_merge_sort _ text_le _ text_le_total)|].
  split; [unfold sorted; rewrite merge_sort_Permutation; apply NoDup_elements|].
  split; [apply sorted_elem|].
  intros n Hn. apply sorted_elem in Hn.
  destruct (join_elem (py ", ") n _ Hn) as (a & b & ->).
  rewrite (app_assoc _ [NL]), (app_assoc _ a). apply contains_app.
Qed.

Lemma hint_nil errors c :
  fst (_build_whitelist_hint dir errors c) = []
  ↔ existsb (contains (py "Unknown MDP function")) errors = false.
Proof.
  unfold _build_whitelist_hint.
  destruct (existsb _ errors); cbn [negb]; [|done].
  destruct (load_api_whitelist dir c) as [whitelist c']. done.
Qed.

Lemma existsb_app_false {A} (f : A → bool) l1 l2 :
  existsb f (l1 ++ l2) = false ↔ existsb f l1 = false ∧ existsb f l2 = false.
Proof. rewrite List.existsb_app. apply orb_false_iff. Qed.

Lemma symbol_messages_flagged whitelist (names : list text) :
  existsb (contains (py "Unknown MDP function"))
          (unknown_message whitelist <$> names) = false
  ↔ unknown_message whitelist <$> names = [].
Proof.
  split; [|by intros ->].
  destruct (unknown_message whitelist <$> names) as [|e l] eqn:Hc; [done|].
  assert (e ∈ unknown_message whitelist <$> names) as Hin
    by (rewrite Hc; by left).
  apply symbol_message, contains_starts in Hin. cbn [existsb].
  by rewrite Hin.
Qed.

(** X8: a repair request carries the whitelist exactly when the
    verdict reports an unknown symbol.  For the verdict of a text
    that parses, the hint is empty if and only if the whitelist is
    empty or every name read on the alias is in it. *)
Theorem whitelist_hint_iff_unknown_symbol code c c' tree v :
  ast_parse code = inr tree →
  fst (validate_config dir code c) = Return v →
  fst (_build_whitelist_hint dir (errors v) c') = []
  ↔ fst (load_api_whitelist dir c) = ∅
    ∨ ∀ n, n ∈ accessed tree → n ∈ fst (load_api_whitelist dir c).
Proof.
  intros Hp Hv.
  destruct (validate_config_errors dir code c tree v Hp Hv) as [He _].
  rewrite hint_nil, He. unfold errors_of.
  rewrite !existsb_app_false, <- symbol_check.
  set (whitelist := fst (load_api_whitelist dir c)).
  assert (∀ (b : bool) m,
            contains (py "Unknown MDP function") m = false →
            existsb (contains (py "Unknown MDP function"))
                    (if b then [] else [m]) = false) as Hc.
  { intros [] m Hm; [done|]. cbn [existsb]. by rewrite Hm. }
  split.
  - intros (_ & _ & _ & _ & H5 & _).
    destruct (bool_decide_reflect (whitelist ≠ ∅)) as [Hne|Hem].
    + right. by apply symbol_messages_flagged.
    + left. by destruct (decide (whitelist = ∅)).
  - intros Hw. repeat split; try (apply Hc; vm_compute; reflexivity).
    + destruct (bool_decide_reflect (whitelist ≠ ∅)) as [Hne|Hem]; [|done].
      apply symbol_messages_flagged. by destruct Hw.
    + destruct (has_literal_path code); [|done].
      vm_compute. reflexivity.
Qed.
End Hint.

End HintFacts.

(** ** The repair orchestrator: what it sends and what it returns *)

Module PipelineFacts.
Import Re Validator Generator Cli Pipeline AutoCorrectFacts VerdictFacts
       RaiseFacts CliFacts.

Section Orchestrator.
Context `{Unicode} `{PyLib} `{Collaborator}.
Variable dir : api_dir.

Lemma auto_corrected (x : text) :
  auto_correct_code (fst (auto_correct_code x))
  = (fst (auto_correct_code x), []).
Proof. apply auto_correct_with_idempotent, common_corrections_ok. Qed.

Lemma verdict_of_validated code c result c' :
  validate_config dir code c = (Return result, c') →
  verdict_of code result c'.
Proof.
  intros Hv dir'. pose proof (validate_config_again dir dir' code c) as Ha.
  by rewrite Hv in Ha.
Qed.

(** The loop, from a text that is auto-corrected and has its
    verdict. *)
Lemma repair_loop_spec attempts best_code result w :
  auto_correct_code best_code = (best_code, []) →
  verdict_of best_code result (registry w) →
  ∃ new,
    requests (snd (repair_loop dir attempts best_code result w))
      = requests w ++ new
    ∧ (length new ≤ length attempts)%nat
    ∧ Forall (sound_request dir) new
    ∧ ∀ code' result',
        fst (repair_loop dir attempts best_code result w)
          = Return (code', result') →
        auto_correct_code code' = (code', [])
        ∧ verdict_of code' result'
            (registry (snd (repair_loop dir attempts best_code result w)))
        ∧ (is_valid result' = false → length new = length attempts).
Proof.
  revert best_code result w.
  induction attempts as [|attempt attempts IH]; intros best_code result w Hac Hv.
  - exists []. cbn [repair_loop fst snd]. rewrite app_nil_r.
    split; [done|]. split; [done|]. split; [constructor|].
    by intros ? ? [= <- <-].
  - cbn [repair_loop]. destruct (is_valid result) eqn:Hvalid.
    { exists []. cbn [fst snd]. rewrite app_nil_r.
      split; [done|]. split; [simpl; lia|]. split; [constructor|].
      intros ? ? [= <- <-]. split; [done|]. split; [done|]. congruence. }
    destruct (_build_whitelist_hint dir (errors result) (registry w))
      as [hint c] eqn:Hhint.
    set (req := {| original_code := best_code; error_list := errors result;
                   whitelist_hint := hint |}).
    assert (sound_request dir req) as Hreq.
    { split; [done|]. split; [by exists (registry w), result|].
      exists (registry w). cbn [whitelist_hint error_list req].
      by rewrite Hhint. }
    destruct (repair_config (requests w) req) as [repaired_code|e].
    2: { exists [req]. cbn [fst snd requests].
         split; [done|]. split; [simpl; lia|].
         split; [by constructor; [|constructor]|]. done. }
    pose proof (auto_corrected repaired_code) as Hac'.
    destruct (auto_correct_code repaired_code)
      as [best_code' cs]. cbn [fst] in Hac'. cbn [registry requests].
    destruct (validate_config dir best_code' c) as [[result'|e] c2] eqn:Hval.
    + destruct (IH best_code' result'
                  {| registry := c2; requests := requests w ++ [req] |} Hac')
        as (new & Hnew & Hlen & Hall & Hret).
      { cbn [registry]. by eapply verdict_of_validated. }
      exists (req :: new). cbn [requests] in Hnew. rewrite Hnew.
      split; [by rewrite <- app_assoc|]. split; [simpl; lia|].
      split; [by constructor|].
      intros code' r' Hr. destruct (Hret code' r' Hr) as (? & ? & Hl).
      split; [done|]. split; [done|]. intros Hf. simpl. by rewrite Hl.
    + exists [req]. cbn [fst snd requests].
      split; [done|]. split; [simpl; lia|]. split; [by constructor; [|constructor]|].
      done.
Qed.

(** X9: what the orchestrator sends.  It appends at most
    [MAX_REPAIR_ATTEMPTS] requests to the log, whether it returns
    or raises, and each of them is about a text that the
    auto-corrector leaves alone and whose verdict is invalid, with
    the errors of that verdict and the hint built from them. *)
Theorem run_repair_requests generated category w :
  ∃ new,
    requests (snd (run_repair dir generated category w)) = requests w ++ new
    ∧ (length new ≤ MAX_REPAIR_ATTEMPTS)%nat
    ∧ Forall (sound_request dir) new.
Proof.
  unfold run_repair.
  pose proof (auto_corrected generated) as Hac.
  destruct (auto_correct_code generated) as [best_code cs]. cbn [fst] in Hac.
  destruct (validate_config dir best_code (registry w)) as [[result|e] c]
    eqn:Hval.
  - destruct (repair_loop_spec (seq 0 MAX_REPAIR_ATTEMPTS) best_code result
                {| registry := c; requests := requests w |} Hac)
      as (new & Hnew & Hlen & Hall & _).
    { cbn [registry]. by eapply verdict_of_validated. }
    exists new. rewrite length_seq in Hlen. cbn [requests] in Hnew.
    destruct (repair_loop _ _ _ _ _) as [[[best_code' result']|e] w'];
      cbn [snd] in *; done.
  - exists []. cbn [snd requests]. rewrite app_nil_r.
    split; [done|]. split; [simpl; lia|constructor].
Qed.

(** X10: what the orchestrator returns.  The code it ends with is
    left alone by the auto-corrector, the verdict it reports is the
    verdict of that code under the registry it leaves, and the
    configuration text is the normalisation of that code; and when
    the verdict it reports is invalid, it has sent all of its
    [MAX_REPAIR_ATTEMPTS] requests. *)
Theorem run_repair_result generated category w r :
  fst (run_repair dir generated category w) = Return r →
  auto_correct_code (final_code r) = (final_code r, [])
  ∧ verdict_of (final_code r) (final_result r)
      (registry (snd (run_repair dir generated category w)))
  ∧ env_cfg r = fst (post_process_env_cfg (final_code r) category)
  ∧ (is_valid (final_result r) = false →
     length (requests (snd (run_repair dir generated category w)))
     = (length (requests w) + MAX_REPAIR_ATTEMPTS)%nat).
Proof.
  unfold run_repair.
  pose proof (auto_corrected generated) as Hac.
  destruct (auto_correct_code generated) as [best_code cs]. cbn [fst] in Hac.
  destruct (validate_config dir best_code (registry w)) as [[result|e] c]
    eqn:Hval; [|done].
  destruct (repair_loop_spec (seq 0 MAX_REPAIR_ATTEMPTS) best_code result
              {| registry := c; requests := requests w |} Hac)
    as (new & Hnew & Hlen & Hall & Hret).
  { cbn [registry]. by eapply verdict_of_validated. }
  rewrite length_seq in Hret. cbn [requests] in Hnew.
  destruct (repair_loop _ _ _ _ _) as [[[best_code' result']|e] w'];
    cbn [fst snd] in *; [|done].
  intros [= <-]. cbn [final_code final_result env_cfg].
  destruct (Hret best_code' result' eq_refl) as (? & ? & Hl).
  split; [done|]. split; [done|]. split; [done|].
  intros Hf. rewrite Hnew, length_app, (Hl Hf). done.
Qed.

(** X11: a valid artifact is returned as it is.  When the verdict
    of the generated text, once auto-corrected, is valid, the
    orchestrator returns that text with that verdict and sends no
    repair request, whatever the generator would answer. *)
Theorem run_repair_valid_at_once generated category w v :
  fst (validate_config dir (fst (auto_correct_code generated)) (registry w))
  = Return v →
  is_valid v = true →
  ∃ r, fst (run_repair dir generated category w) = Return r
       ∧ final_code r = fst (auto_correct_code generated)
       ∧ final_result r = v
       ∧ requests (snd (run_repair dir generated category w)) = requests w.
Proof.
  intros Hv Hvalid. unfold run_repair.
  destruct (auto_correct_code generated) as [best_code cs]. cbn [fst] in Hv.
  destruct (validate_config dir best_code (registry w)) as [[result|e] c];
    cbn [fst] in Hv; [|done].
  injection Hv as ->. cbn [seq MAX_REPAIR_ATTEMPTS repair_loop].
  rewrite Hvalid. by eexists.
Qed.
End Orchestrator.

End PipelineFacts.

(** ** The normaliser reports what it rewrites *)

Module NormaliserFacts.
Import Re Generator Reporting.

Section Fixes.
Context `{Unicode}.

Lemma reports_after step st (s0 : text) (l0 : list text) :
  reports step →
  (∃ new, snd st = l0 ++ new ∧ (new = [] → fst st = s0)) →
  ∃ new, snd (step st) = l0 ++ new ∧ (new = [] → fst (step st) = s0).
Proof.
  intros Hstep (n1 & Hl1 & Hs1). destruct (Hstep st) as (n2 & Hl2 & Hs2).
  exists (n1 ++ n2). split.
  - by rewrite Hl2, Hl1, app_assoc.
  - intros [-> ->]%app_nil. by rewrite Hs2, Hs1.
Qed.

Ltac quiet := exists []; by rewrite app_nil_r.
Ltac noted := eexists; split; [done|discriminate].

Lemma replace_task_import_reports : reports replace_task_import.
Proof.
  intros [result fixes]. unfold replace_task_import.
  destruct (search _ result); cbn [fst snd]; [noted|quiet].
Qed.

Lemma replace_from_import_reports pattern note :
  reports (replace_from_import pattern note).
Proof.
  intros [result fixes]. unfold replace_from_import.
  destruct (search _ result); cbn [fst snd]; [noted|quiet].
Qed.

Lemma inject_robot_import_reports robot_cfg :
  reports (inject_robot_import robot_cfg).
Proof.
  intros [result fixes]. unfold inject_robot_import.
  destruct robot_cfg as [cfg|]; [|quiet].
  destruct (negb _); [|quiet].
  destruct (_ <? _)%nat; cbn [fst snd]; [noted|quiet].
Qed.

Lemma replace_inline_robot_reports robot_cfg :
  reports (replace_inline_robot robot_cfg).
Proof.
  intros [result fixes]. unfold replace_inline_robot.
  destruct robot_cfg as [cfg|]; [|quiet].
  destruct (search _ result) as [m|]; [|quiet].
  destruct (negb _); cbn [fst snd]; [noted|quiet].
Qed.

Lemma note_literal_nucleus_reports : reports note_literal_nucleus.
Proof.
  intros [result fixes]. unfold note_literal_nucleus.
  destruct (search _ result); cbn [fst snd]; [|quiet].
  eexists. split; [done|]. done.
Qed.

(** X12: the normaliser reports every rewrite: when
    [post_process_env_cfg] returns an empty list of fixes, the text
    it returns is the text it was given, for every category. *)
Theorem post_process_silent_is_identity (code category : text) :
  snd (post_process_env_cfg code category) = [] →
  fst (post_process_env_cfg code category) = code.
Proof.
  intros Hnil.
  assert (∃ new, snd (post_process_env_cfg code category) = [] ++ new
                 ∧ (new = [] → fst (post_process_env_cfg code category) = code))
    as (new & Hl & Hs).
  { unfold post_process_env_cfg. cbv zeta.
    apply (reports_after note_literal_nucleus);
      [apply note_literal_nucleus_reports|].
    apply (reports_after (replace_inline_robot _));
      [apply replace_inline_robot_reports|].
    apply (reports_after (inject_robot_import _));
      [apply inject_robot_import_reports|].
    apply (reports_after (replace_from_import _ _));
      [apply replace_from_import_reports|].
    apply (reports_after (replace_from_import _ _));
      [apply replace_from_import_reports|].
    apply (reports_after replace_task_import);
      [apply replace_task_import_reports|].
    by exists []. }
  apply Hs. rewrite Hnil in Hl. done.
Qed.
End Fixes.

End NormaliserFacts.

(** ** Module names and task identifiers *)

Module NameFacts.
Import Re Str Analyzer Generator NameShape.

Section Names.
Context `{Unicode} `{UnicodeData}.

(** Removing the matches of a one-character class keeps the other
    characters. *)
Lemma sub_class_keeps (p : N → bool) pos prev (s : text) :
  Forall (λ c, p c = false) (sub_go (Cls p) [] 0 pos prev s).
Proof.
  revert pos prev. induction s as [|d s IH]; intros pos prev; [constructor|].
  cbn [sub_go match_here run]. destruct (p d) eqn:Hp.
  - cbn [m_end app]. replace (S pos - pos)%nat with 1%nat by lia. apply IH.
  - constructor; [done|apply IH].
Qed.

Lemma sub_class_id (p : N → bool) pos prev (s : text) :
  Forall (λ c, p c = false) s → sub_go (Cls p) [] 0 pos prev s = s.
Proof.
  revert pos prev. induction s as [|d s IH]; intros pos prev Hs; [done|].
  apply Forall_cons in Hs as [Hd Hs].
  cbn [sub_go match_here run]. rewrite Hd. f_equal. by apply IH.
Qed.

Ltac unbool H :=
  rewrite ?orb_true_iff, ?andb_true_iff, ?orb_false_iff, ?andb_false_iff,
    ?N.leb_le, ?N.eqb_eq, ?N.ltb_lt, ?N.leb_gt, ?N.eqb_neq, ?N.ltb_ge in H.

Lemma module_char_ascii c : module_char c = true → (c <? 128) = true.
Proof. unfold module_char. intros Hc. unbool Hc. apply N.ltb_lt. lia. Qed.

Lemma module_char_lower c : module_char c = true → ascii_lower c = c.
Proof.
  unfold module_char, ascii_lower. intros Hc. unbool Hc.
  destruct ((65 <=? c) && (c <=? 90)) eqn:Hu; [|done]. unbool Hu. lia.
Qed.

Lemma lower_go_module whole i (s : text) :
  Forall (λ c, module_char c = true) s → lower_go whole i s = s.
Proof.
  revert i. induction s as [|c s IH]; intros i Hs; [done|].
  apply Forall_cons in Hs as [Hc Hs]. cbn [lower_go].
  rewrite (module_char_ascii _ Hc), (module_char_lower _ Hc). simpl.
  f_equal. by apply IH.
Qed.

Lemma replace_char_module a b (s : text) :
  module_char a = false →
  Forall (λ c, module_char c = true) s → replace_char a b s = s.
Proof.
  intros Ha Hs. unfold replace_char. induction Hs as [|c s Hc Hs IH]; [done|].
  cbn [fmap list_fmap]. fold (replace_char a b s).
  destruct (N.eqb_spec c a) as [->|_]; [congruence|]. by f_equal.
Qed.

Lemma not_module_char_false (s : text) :
  Forall (λ c, negb (module_char c) = false) s
  ↔ Forall (λ c, module_char c = true) s.
Proof. apply Forall_proper; [|done]. intros c. by destruct (module_char c). Qed.

Lemma sanitize_module_name_sanitized name :
  sanitized (sanitize_module_name name).
Proof.
  unfold sanitize_module_name, sub.
  pose proof (sub_class_keeps (λ c, negb (module_char c)) 0 None
                (replace_char 32 95 (replace_char 45 95 (lower name)))) as Hk.
  apply not_module_char_false in Hk. unfold not_module_char.
  destruct (sub_go _ _ _ _ _ _) as [|c s]; [done|].
  destruct (isdigit c) eqn:Hd.
  - split; [by constructor|]. by intros ? [= <-].
  - split; [done|]. by intros ? [= <-].
Qed.

Lemma sanitize_module_name_fixed (s : text) :
  sanitized s → sanitize_module_name s = s.
Proof.
  intros [Hs Hh]. unfold sanitize_module_name, lower.
  rewrite (lower_go_module _ _ _ Hs).
  rewrite (replace_char_module 45 95 s), (replace_char_module 32 95 s)
    by done.
  unfold sub, not_module_char. rewrite sub_class_id
    by by apply not_module_char_false.
  destruct s as [|c s]; [done|]. by rewrite (Hh c).
Qed.

(** X13: [sanitize_module_name] returns, for every text, a text
    made of the characters [[a-z0-9_]] only, which is empty or
    starts with a lower-case letter or an underscore: never with a
    digit, never with an upper-case letter, a hyphen or a space. *)
Theorem sanitize_module_name_shape (name : text) :
  forallb module_char (sanitize_module_name name) = true
  ∧ match sanitize_module_name name with
    | [] => True
    | c :: _ => (97 <= c <= 122) ∨ c = 95
    end.
Proof.
  destruct (sanitize_module_name_sanitized name) as [Hs Hh]. split.
  - apply List.forallb_forall. intros c Hin%list_elem_of_In.
    rewrite Forall_forall in Hs. by apply Hs.
  - destruct (sanitize_module_name name) as [|c s]; [done|].
    apply Forall_cons in Hs as [Hc _]. specialize (Hh c eq_refl).
    unfold isdigit in Hh. rewrite (module_char_ascii _ Hc) in Hh.
    unfold module_char in Hc. unbool Hc. unbool Hh. lia.
Qed.

(** X14: [sanitize_module_name] is idempotent: a name it returns is
    returned unchanged. *)
Theorem sanitize_module_name_idempotent (name : text) :
  sanitize_module_name (sanitize_module_name name)
  = sanitize_module_name name.
Proof. apply sanitize_module_name_fixed, sanitize_module_name_sanitized. Qed.

(** X15: for every task specification, the task name is the value
    of the robot, an underscore and the category without its first
    word; it is not empty, starts with a lower-case letter and holds
    lower-case letters and underscores only, so that it is a module
    name. *)
Theorem make_task_name_is_module_name (task_spec : TaskSpec) :
  _make_task_name task_spec
  = robot_value (robot task_spec) ++ py "_"
    ++ List.last (split_once 95 (category_value (category task_spec))) []
  ∧ ∃ c rest, _make_task_name task_spec = c :: rest
              ∧ 97 <= c <= 122
              ∧ forallb (λ c, ((97 <=? c) && (c <=? 122)) || (c =? 95)) rest
                = true.
Proof.
  destruct task_spec as [cat rob ? ? ? ? ?]. cbn [category robot].
  destruct cat, rob; (split; [vm_compute; reflexivity|]);
    vm_compute; (eexists _, _; split; [reflexivity|]);
    (split; [split; discriminate|reflexivity]).
Qed.

(** X16: for every task specification, the task identifier starts
    with [RoboSpec-], ends with [-v0] and holds no brace; and two
    specifications with the same identifier have the same
    category. *)
Theorem make_task_id_shape (task_spec : TaskSpec) :
  starts_with (py "RoboSpec-") (_make_task_id task_spec) = true
  ∧ starts_with (reverse (py "-v0")) (reverse (_make_task_id task_spec)) = true
  ∧ forallb (λ c, negb ((c =? 123) || (c =? 125))) (_make_task_id task_spec)
    = true
  ∧ ∀ other, _make_task_id other = _make_task_id task_spec →
             category other = category task_spec.
Proof.
  destruct task_spec as [cat rob ? ? ? ? ?]. unfold _make_task_id.
  cbn [category robot].
  split; [destruct cat, rob; vm_compute; reflexivity|].
  split; [destruct cat, rob; vm_compute; reflexivity|].
  split; [destruct cat, rob; vm_compute; reflexivity|].
  intros [cat' rob' ? ? ? ? ?]. cbn [category robot].
  destruct cat, rob, cat', rob'; vm_compute; intros Heq;
    first [reflexivity | discriminate Heq].
Qed.
End Names.

End NameFacts.

(** ** Code fences *)

Module FenceFacts.
Import Re ReSplit Str Generator ReFacts TextFacts ScanFacts.

(** *** White space at the ends *)

Lemma lstrip_with_length (p : N → bool) (s : text) :
  lstrip_with p s = s ∨ (length (lstrip_with p s) < length s)%nat.
Proof.
  induction s as [|c s IH]; [by left|]. cbn [lstrip_with].
  destruct (p c); [|by left]. right. simpl. destruct IH as [->|?]; lia.
Qed.

Lemma rstrip_with_length (p : N → bool) (s : text) :
  rstrip_with p s = s ∨ (length (rstrip_with p s) < length s)%nat.
Proof.
  unfold rstrip_with.
  destruct (lstrip_with_length p (reverse s)) as [->|Hlt].
  - left. apply reverse_involutive.
  - right. by rewrite length_reverse, <- (length_reverse s).
Qed.

(** A text that [strip] returns as it is has no white space at
    either end. *)
Lemma strip_fixed (s : text) :
  strip s = s → lstrip s = s ∧ rstrip s = s.
Proof.
  unfold strip, lstrip, rstrip. intros Hs.
  destruct (lstrip_with_length is_space s) as [Hl|Hl].
  - split; [done|]. by rewrite Hl in Hs.
  - exfalso.
    destruct (rstrip_with_length is_space (lstrip_with is_space s)) as [Hr|Hr].
    + rewrite Hr in Hs. rewrite Hs in Hl. lia.
    + rewrite Hs in Hr. lia.
Qed.

Lemma rstrip_with_snoc (p : N → bool) (s : text) (c : N) :
  p c = true → rstrip_with p (s ++ [c]) = rstrip_with p s.
Proof.
  intros Hc. unfold rstrip_with. rewrite reverse_snoc. cbn [lstrip_with].
  by rewrite Hc.
Qed.

Lemma strip_line (s : text) :
  s ≠ [] → strip s = s → strip (s ++ [NL]) = s.
Proof.
  intros Hne [Hl Hr]%strip_fixed. unfold strip.
  assert (lstrip (s ++ [NL]) = s ++ [NL]) as ->.
  { destruct s as [|c s]; [done|]. unfold lstrip in *.
    cbn [app lstrip_with] in *. destruct (is_space c) eqn:Hc; [|done].
    destruct (lstrip_with_length is_space s) as [He|Hlt].
    - rewrite He in Hl. apply (f_equal length) in Hl. simpl in Hl. lia.
    - rewrite Hl in Hlt. simpl in Hlt. lia. }
  unfold rstrip in *. by rewrite rstrip_with_snoc.
Qed.

Lemma rstrip_with_spaces (p : N → bool) (s gap : text) :
  Forall (λ c, p c = true) gap → rstrip_with p (s ++ gap) = rstrip_with p s.
Proof.
  induction gap as [|c gap IH] using rev_ind; intros Hg.
  - by rewrite app_nil_r.
  - apply Forall_app in Hg as [Hg Hc]. apply Forall_cons in Hc as [Hc _].
    rewrite app_assoc, (rstrip_with_snoc _ _ _ Hc). by apply IH.
Qed.

Lemma rstrip_with_keep (p : N → bool) (s : text) (c : N) :
  p c = false → rstrip_with p (s ++ [c]) = s ++ [c].
Proof.
  intros Hc. unfold rstrip_with. rewrite reverse_snoc. cbn [lstrip_with].
  rewrite Hc. by rewrite reverse_cons, reverse_involutive.
Qed.

(** A text that [rstrip] returns as it is ends with a character that
    is kept. *)
Lemma rstrip_with_fixed (p : N → bool) (s : text) :
  s ≠ [] → rstrip_with p s = s → ∃ s' c, s = s' ++ [c] ∧ p c = false.
Proof.
  intros Hne Hs. destruct s as [|c s _] using rev_ind; [done|].
  exists s, c. split; [done|]. destruct (p c) eqn:Hc; [|done].
  rewrite rstrip_with_snoc in Hs by done.
  destruct (rstrip_with_length p s) as [He|Hlt].
  - rewrite He in Hs. apply (f_equal length) in Hs.
    rewrite length_app in Hs. simpl in Hs. lia.
  - rewrite Hs, length_app in Hlt. simpl in Hlt. lia.
Qed.

Lemma lstrip_with_fixed (p : N → bool) (c : N) (s : text) :
  lstrip_with p (c :: s) = c :: s → p c = false.
Proof.
  cbn [lstrip_with]. destruct (p c) eqn:Hc; [|done]. intros Hs.
  destruct (lstrip_with_length p s) as [He|Hlt].
  - rewrite He in Hs. apply (f_equal length) in Hs. simpl in Hs. lia.
  - rewrite Hs in Hlt. simpl in Hlt. lia.
Qed.

Lemma space_first (c x : N) (p s : text) :
  is_space c = true → is_space x = false →
  starts_with (x :: p) (c :: s) = false.
Proof.
  intros Hc Hx. cbn [starts_with].
  destruct (N.eqb_spec x c) as [->|_]; [congruence|done].
Qed.

Section Fences.
Context `{Unicode} `{UnicodeData} `{Validator.PyLib}.

Lemma py_fence : py "```" = [96; 96; 96].
Proof. reflexivity. Qed.

Ltac first_letters :=
  change (py "python") with (112 :: py "ython");
  change (py "bash") with (98 :: py "ash");
  change (py "sh") with (115 :: py "h").

(** *** A text without fences *)

Lemma opening_fence_needs pos prev (s : text) :
  is_Some (match_here opening_fence pos prev s) →
  starts_with (py "```") s = true.
Proof.
  unfold match_here, opening_fence. cbn [run].
  assert (∀ R (k : cont R),
            is_Some (lit (py "```") pos prev s None k) →
            starts_with (py "```") s = true) as Hlit.
  { intros R k. rewrite lit_starts by done.
    destruct (starts_with _ s); [done|by intros [? ?]]. }
  destruct prev as [c|]; [destruct (c =? NL)|]; try apply Hlit.
  by intros [? ?].
Qed.

Lemma closing_fence_needs pos prev (s : text) :
  is_Some (match_here closing_fence pos prev s) →
  contains (py "```") s = true.
Proof.
  unfold match_here, closing_fence. cbn [run].
  assert (∀ R (k : cont R) pos prev (s : text) g,
            is_Some (lit (py "```") pos prev s g k) →
            starts_with (py "```") s = true) as Hlit.
  { intros R k pos' prev' s' g. rewrite lit_starts by done.
    destruct (starts_with _ s'); [done|by intros [? ?]]. }
  destruct s as [|d s]; cbn [lit].
  - intros Hs%Hlit. done.
  - destruct (NL =? d).
    + match goal with
      | |- is_Some (match ?x with _ => _ end) → _ => destruct x eqn:Hx
      end.
      * intros _. cbn [contains]. apply orb_true_iff. right.
        apply contains_starts. eapply Hlit. by rewrite Hx.
      * intros Hs%Hlit. by apply contains_starts.
    + intros Hs%Hlit. by apply contains_starts.
Qed.

Lemma no_opening_fence pos prev (s : text) :
  contains (py "```") s = false →
  search_go opening_fence pos prev s = None.
Proof.
  apply search_go_needs. intros pos' prev' s' Hm.
  by apply contains_starts, (opening_fence_needs pos' prev').
Qed.

Lemma no_closing_fence pos prev (s : text) :
  contains (py "```") s = false →
  search_go closing_fence pos prev s = None.
Proof. apply search_go_needs, closing_fence_needs. Qed.

(** X17: on a text that holds no three backquotes in a row,
    [_strip_code_fences] only strips the white space at both
    ends. *)
Theorem strip_code_fences_without_fence (code : text) :
  contains (py "```") code = false →
  _strip_code_fences code = strip code.
Proof.
  intros Hc. unfold _strip_code_fences, sub.
  rewrite (sub_go_none opening_fence) by by apply no_opening_fence.
  by rewrite (sub_go_none closing_fence) by by apply no_closing_fence.
Qed.

(** *** A fenced block *)

(** The opening pattern on three backquotes, a language tag, white
    space and a text that starts with no white space. *)
Lemma opening_fence_match pos prev (lang ws rest : text) :
  prev = None ∨ prev = Some NL →
  lang ∈ [[]; py "python"; py "bash"; py "sh"] →
  Forall (λ c, is_space c = true) ws →
  match rest with [] => True | c :: _ => is_space c = false end →
  (lang = [] → ws ≠ [] ∨ rest = []) →
  match_here opening_fence pos prev (py "```" ++ lang ++ ws ++ rest)
  = Some (RMatch pos (pos + 3 + length lang + length ws) None).
Proof.
  intros Hprev Hlang Hws Hrest Hbare.
  unfold match_here, opening_fence.
  set (final := λ (pos' : nat) (_ : option N) (_ : text) g,
                  Some (RMatch pos pos' g)).
  assert (∀ pos' prev',
    run (Seq (Star is_space) (Opt (Lit [NL]))) pos' prev' (ws ++ rest) None final
    = Some (RMatch pos (pos' + length ws) None)) as Hstar.
  { intros pos' prev'. cbn [run]. apply star_greedy; [done|done|].
    intros prev1. destruct rest as [|c rest]; [done|]. cbn [lit].
    destruct (N.eqb_spec NL c) as [<-|_]; [by vm_compute in Hrest|done]. }
  assert (run (Seq (Lit (py "```"))
                (Seq (Opt (Alt (Lit (py "python"))
                               (Alt (Lit (py "bash")) (Lit (py "sh")))))
                     (Seq (Star is_space) (Opt (Lit [NL])))))
            pos prev (py "```" ++ lang ++ ws ++ rest) None final
          = Some (RMatch pos (pos + 3 + length lang + length ws) None)) as Hm;
    [cbn [run] in Hstar |- *|].
  { rewrite lit_starts by done. rewrite starts_with_app.
    rewrite drop_app_length.
    rewrite !lit_starts by done.
    repeat (apply elem_of_cons in Hlang as [->|Hlang]).
    - cbn [app length].
      assert (starts_with (py "python") (ws ++ rest) = false
              ∧ starts_with (py "bash") (ws ++ rest) = false
              ∧ starts_with (py "sh") (ws ++ rest) = false) as (-> & -> & ->).
      { destruct (Hbare eq_refl) as [Hne| ->].
        - destruct ws as [|c ws]; [done|]. apply Forall_cons in Hws as [Hc _].
          cbn [app]. first_letters.
          repeat split; by apply space_first.
        - destruct ws as [|c ws]; [by repeat split|].
          apply Forall_cons in Hws as [Hc _].
          cbn [app]. first_letters.
          repeat split; by apply space_first. }
      rewrite Hstar. first [reflexivity | (f_equal; f_equal; simpl; lia)].
    - rewrite starts_with_app. rewrite drop_app_length.
      rewrite Hstar. first [reflexivity | (f_equal; f_equal; simpl; lia)].
    - assert (starts_with (py "python") (py "bash" ++ ws ++ rest) = false) as ->
        by done.
      rewrite starts_with_app. rewrite drop_app_length.
      rewrite Hstar. first [reflexivity | (f_equal; f_equal; simpl; lia)].
    - assert (starts_with (py "python") (py "sh" ++ ws ++ rest) = false) as ->
        by done.
      assert (starts_with (py "bash") (py "sh" ++ ws ++ rest) = false) as ->
        by done.
      rewrite starts_with_app. rewrite drop_app_length.
      rewrite Hstar. first [reflexivity | (f_equal; f_equal; simpl; lia)].
    - by apply elem_of_nil in Hlang. }
  cbn [run] in Hm |- *. destruct Hprev as [->| ->]; [exact Hm|].
  rewrite N.eqb_refl. exact Hm.
Qed.

Lemma fence_not_across (t u : text) :
  starts_with (py "```") (t ++ NL :: u) = true →
  starts_with (py "```") t = true.
Proof.
  apply starts_with_across. rewrite py_fence.
  intros Hin. repeat (apply elem_of_cons in Hin as [Hin|Hin]; [done|]).
  by apply elem_of_nil in Hin.
Qed.

(** No opening fence starts in the body or at the line feed after
    it. *)
Lemma no_opening_in_body (body a1 a2 : text) pos prev :
  contains (py "```") body = false →
  body ++ [NL] = a1 ++ a2 → a2 ≠ [] →
  match_here opening_fence pos prev (a2 ++ py "```") = None.
Proof.
  intros Hc Hsplit Hne.
  destruct (match_here opening_fence pos prev (a2 ++ py "```")) eqn:Hm;
    [|done].
  exfalso.
  assert (starts_with (py "```") (a2 ++ py "```") = true) as Hs.
  { apply (opening_fence_needs pos prev). by rewrite Hm. }
  destruct (decide (a2 = [])) as [|_]; [done|].
  assert (∃ t, a2 = t ++ [NL] ∧ body = a1 ++ t) as (t & -> & ->).
  { destruct a2 as [|x a2' _] using rev_ind; [done|].
    rewrite app_assoc in Hsplit. apply app_inj_tail in Hsplit as [-> <-].
    by exists a2'. }
  rewrite <- app_assoc in Hs. cbn [app] in Hs.
  apply fence_not_across, contains_starts in Hs.
  apply (contains_suffix _ a1) in Hs. congruence.
Qed.

Lemma sub_opening_fenced (lang body : text) :
  lang ∈ [[]; py "python"; py "bash"; py "sh"] →
  contains (py "```") body = false →
  body ≠ [] → lstrip body = body →
  sub opening_fence [] (py "```" ++ lang ++ [NL] ++ body ++ [NL] ++ py "```")
  = body ++ [NL].
Proof.
  intros Hlang Hc Hne Hl. unfold sub.
  assert (match body ++ [NL] ++ py "```" with
          | [] => True
          | c :: _ => is_space c = false
          end) as Hhead.
  { destruct body as [|b0 body']; [done|]. unfold lstrip in Hl.
    cbn [lstrip_with app] in *. destruct (is_space b0) eqn:Hb; [|done].
    destruct (lstrip_with_length is_space body') as [He|Hlt].
    - rewrite He in Hl. apply (f_equal length) in Hl. simpl in Hl. lia.
    - rewrite Hl in Hlt. simpl in Hlt. lia. }
  replace (py "```" ++ lang ++ [NL] ++ body ++ [NL] ++ py "```")
    with ((py "```" ++ lang ++ [NL]) ++ (body ++ [NL]) ++ py "```")
    by by rewrite <- !app_assoc.
  erewrite (sub_go_match opening_fence [] (py "```" ++ lang ++ [NL]));
    [|done| |].
  2:{ rewrite <- !app_assoc.
      apply (opening_fence_match 0 None lang [NL]
               (body ++ [NL] ++ py "```")); auto. }
  2:{ cbn [m_end]. rewrite !length_app. simpl. lia. }
  cbn [app].
  rewrite (sub_go_copy opening_fence [] (body ++ [NL]) (py "```"))
    by (intros a1 a2 pos' prev' Hsplit Hne2;
        by apply (no_opening_in_body body a1 a2)).
  rewrite last_snoc. cbn [from_option].
  match goal with
  | |- context [sub_go opening_fence [] 0 ?p (Some NL) (py "```")] =>
      pose proof (sub_go_match opening_fence [] (py "```") [] p (Some NL)
                    (RMatch p (p + 3 + 0 + 0) None)) as Hend;
      pose proof (opening_fence_match p (Some NL) [] [] []) as Hm
  end.
  rewrite app_nil_r in Hend. rewrite Hend.
  - cbn [app sub_go]. by rewrite app_nil_r.
  - done.
  - apply Hm; auto. by left.
  - cbn [m_end]. simpl. lia.
Qed.

(** X18: a fenced block is unwrapped.  For a body without three
    backquotes in a row and without white space at its ends,
    [_strip_code_fences] turns the block made of the opening fence
    (bare, or tagged [python], [bash] or [sh]), the body on its own
    lines and the closing fence into the body. *)
Theorem strip_code_fences_fenced (lang body : text) :
  lang ∈ [[]; py "python"; py "bash"; py "sh"] →
  contains (py "```") body = false →
  strip body = body →
  _strip_code_fences (py "```" ++ lang ++ [NL] ++ body ++ [NL] ++ py "```")
  = body.
Proof.
  intros Hlang Hc Hs. destruct (decide (body = [])) as [->|Hne].
  - repeat (apply elem_of_cons in Hlang as [->|Hlang]);
      [vm_compute; reflexivity..|by apply elem_of_nil in Hlang].
  - pose proof (strip_fixed _ Hs) as [Hl Hr].
    unfold _strip_code_fences.
    rewrite (sub_opening_fenced lang body Hlang Hc Hne Hl).
    unfold sub. rewrite (sub_go_none closing_fence).
    + by apply strip_line.
    + apply no_closing_fence.
      destruct (contains (py "```") (body ++ [NL])) eqn:Hc'; [|done].
      apply contains_snoc in Hc'; [congruence|done|].
      rewrite py_fence. intros Hin.
      repeat (apply elem_of_cons in Hin as [Hin|Hin]; [done|]).
      by apply elem_of_nil in Hin.
Qed.
End Fences.

End FenceFacts.

(** ** Responses of the generator *)

Module ResponseFacts.
Import Re ReSplit Str Generator ResponseFormat ReFacts TextFacts ScanFacts
       FenceFacts.

Section Responses.
Context `{Unicode} `{UnicodeData} `{Validator.PyLib}.

Lemma dict_get_head (k v : text) (files : list (text * text)) :
  dict_get k ((k, v) :: files) = Some v.
Proof. cbn [dict_get]. by rewrite bool_decide_eq_true_2. Qed.

Lemma split_without_marker (response : text) :
  search file_marker response = None →
  split file_marker response = [response].
Proof. intros Hs. unfold split. by rewrite split_go_none. Qed.

(** X19: a response without file marker is the configuration.
    When the pattern of the marker is found nowhere in the
    response, [_parse_response] returns one file, named after the
    task, and [_extract_env_cfg] returns the response without its
    code fences, whatever the task name. *)
Theorem extract_env_cfg_without_marker (response task_name : text) :
  search file_marker response = None →
  _parse_response response task_name
  = [(task_name ++ py "_env_cfg.py", _strip_code_fences response)]
  ∧ _extract_env_cfg response task_name = _strip_code_fences response.
Proof.
  intros Hs.
  assert (_parse_response response task_name
          = [(task_name ++ py "_env_cfg.py", _strip_code_fences response)])
    as Hp.
  { unfold _parse_response. by rewrite split_without_marker. }
  split; [done|]. unfold _extract_env_cfg. rewrite Hp.
  cbn [fmap list_fmap fst]. rewrite filter_cons, filter_nil.
  destruct (decide _); cbn [head]; [|done].
  destruct (task_name ++ py "_env_cfg.py") as [|c k] eqn:Hk; [done|].
  by rewrite dict_get_head.
Qed.

(** *** A response with files *)

Lemma py_hashes : py "###" = [35; 35; 35].
Proof. reflexivity. Qed.

(** Three number signs read across the end of a text that does not
    end with one are read inside it. *)
Lemma hashes_across (x y : text) :
  last x ≠ Some 35 →
  starts_with (py "###") (x ++ y) = true →
  x = [] ∨ starts_with (py "###") x = true.
Proof.
  rewrite py_hashes. intros Hl.
  destruct x as [|c1 [|c2 [|c3 x]]]; cbn [app starts_with last];
    [by left|..]; cbn [last] in Hl.
  - intros [Heq%N.eqb_eq _]%andb_true_iff. by subst.
  - intros [_ [Heq%N.eqb_eq _]%andb_true_iff]%andb_true_iff. by subst.
  - intros Hs. right.
    apply andb_true_iff in Hs as [-> Hs].
    apply andb_true_iff in Hs as [-> Hs].
    apply andb_true_iff in Hs as [-> _]. done.
Qed.

Lemma contains_app_false (p x y : text) :
  contains p (x ++ y) = false → contains p y = false.
Proof.
  intros Hc. destruct (contains p y) eqn:Hy; [|done].
  by rewrite (contains_suffix p x y Hy) in Hc.
Qed.

Lemma hash_free_app (x y : text) :
  hash_free x → hash_free y → y ≠ [] → hash_free (x ++ y).
Proof.
  intros [Hx Hlx] [Hy Hly] Hne. split.
  - clear Hly Hne. induction x as [|c x IH]; [done|].
    cbn [app contains]. apply orb_false_iff. split.
    + destruct (starts_with (py "###") (c :: x ++ y)) eqn:Hs; [|done].
      change (c :: x ++ y) with ((c :: x) ++ y) in Hs.
      apply hashes_across in Hs as [?|Hs]; [done| |done].
      apply contains_starts in Hs. congruence.
    + cbn [contains] in Hx. apply orb_false_iff in Hx as [_ Hx].
      apply IH; [done|].
      destruct x as [|d x]; [done|]. by rewrite last_cons_cons in Hlx.
  - rewrite last_app. destruct (last y) eqn:Hl; [done|].
    by apply last_None in Hl.
Qed.

(** The pattern of the marker needs three number signs. *)
Lemma file_marker_needs pos prev (s : text) :
  is_Some (match_here file_marker pos prev s) →
  starts_with (py "###") s = true.
Proof.
  unfold match_here, file_marker. cbn [run]. rewrite lit_starts by done.
  destruct (starts_with _ s); [done|by intros [? ?]].
Qed.

(** No marker starts in a text without three number signs that is
    followed by a marker. *)
Lemma no_marker_before (a a1 a2 rest : text) pos prev :
  hash_free a → a = a1 ++ a2 → a2 ≠ [] →
  match_here file_marker pos prev (a2 ++ rest) = None.
Proof.
  intros [Hc Hl] -> Hne.
  destruct (match_here file_marker pos prev (a2 ++ rest)) eqn:Hm; [|done].
  exfalso.
  assert (starts_with (py "###") (a2 ++ rest) = true) as Hs.
  { apply (file_marker_needs pos prev). by rewrite Hm. }
  apply hashes_across in Hs as [?|Hs]; [done| |].
  - apply contains_starts, (contains_suffix _ a1) in Hs. congruence.
  - rewrite last_app in Hl. destruct (last a2) eqn:Hl2; [done|].
    by apply last_None in Hl2.
Qed.

(** The marker before a name is matched whole. *)
Lemma file_marker_match pos prev (rest : text) :
  match rest with [] => True | c :: _ => is_space c = false end →
  match_here file_marker pos prev (marker ++ rest)
  = Some (RMatch pos (pos + length marker) None).
Proof.
  intros Hrest. unfold match_here, file_marker. cbn [run].
  rewrite lit_starts by done.
  change marker with (py "###" ++ [32] ++ py "FILE:" ++ [32]).
  rewrite <- !app_assoc, starts_with_app, drop_app_length.
  apply star_greedy; [by repeat constructor|done|].
  intros prev1. rewrite lit_starts by done.
  rewrite starts_with_app, drop_app_length.
  rewrite (star_greedy is_space [32] rest _ _ _ _
             (RMatch pos (pos + length (py "###") + length [32%N]
                          + length (py "FILE:") + length [32%N]) None));
    [|by repeat constructor|done|done].
  f_equal. f_equal. rewrite !length_app. simpl. lia.
Qed.

Lemma spaces_hash_free (gap : text) :
  Forall (λ c, is_space c = true) gap → hash_free gap.
Proof.
  intros Hg. split.
  - induction Hg as [|c gap Hc Hg IH]; [done|].
    cbn [contains]. rewrite IH, orb_false_r. rewrite py_hashes.
    cbn [starts_with]. destruct (N.eqb_spec 35 c) as [<-|_]; [|done].
    by vm_compute in Hc.
  - intros Hl. apply last_Some_elem_of in Hl.
    rewrite Forall_forall in Hg. apply Hg in Hl. by vm_compute in Hl.
Qed.

Lemma plain_name_head (n : text) :
  plain_name n → ∃ c n', n = c :: n' ∧ is_space c = false.
Proof.
  intros (Hne & Hs & _). destruct n as [|c n']; [done|].
  exists c, n'. split; [done|].
  apply strip_fixed in Hs as [Hl _]. by apply lstrip_with_fixed in Hl.
Qed.

Lemma body_of_hash_free (f : file_section) :
  plain_section f → hash_free (body_of f).
Proof.
  intros ((Hne & Hs & Hnl & Hcolon & Hh) & Hb & Hr & Hbh & Hg).
  unfold body_of.
  assert (hash_free (file_name f ++ [NL])) as Hn.
  { split; [|by rewrite last_snoc].
    destruct (contains (py "###") (file_name f ++ [NL])) eqn:Hc; [|done].
    apply contains_snoc in Hc; [congruence|done|].
    rewrite py_hashes. intros Hin.
    repeat (apply elem_of_cons in Hin as [Hin|Hin]; [done|]).
    by apply elem_of_nil in Hin. }
  rewrite !app_assoc.
  destruct (gap f) as [|c g] eqn:Hgap.
  - rewrite app_nil_r. by apply hash_free_app.
  - apply hash_free_app; [by apply hash_free_app|by apply spaces_hash_free|done].
Qed.

(** The texts between the markers. *)
Lemma split_sections (sections : list file_section) (a piece : text)
    pos prev :
  hash_free a → Forall plain_section sections →
  split_go file_marker 0 pos prev (a ++ concat (render <$> sections)) piece
  = (piece ++ a) :: (body_of <$> sections).
Proof.
  revert a piece pos prev.
  induction sections as [|f sections IH]; intros a piece pos prev Ha Hs.
  - cbn [fmap list_fmap concat]. rewrite app_nil_r.
    apply split_go_none, search_go_needs with (p := py "###"); [|apply Ha].
    intros pos' prev' s Hm.
    by apply contains_starts, (file_marker_needs pos' prev').
  - apply Forall_cons in Hs as [Hf Hs].
    cbn [fmap list_fmap concat]. unfold render at 1.
    rewrite split_go_copy
      by (intros a1 a2 pos' prev' Hsplit Hne;
          by apply (no_marker_before a a1 a2)).
    rewrite <- app_assoc.
    destruct (plain_name_head _ (proj1 Hf)) as (c & n' & Hn & Hc).
    erewrite split_go_match; [|done| |].
    2:{ apply file_marker_match. unfold body_of. by rewrite Hn. }
    2:{ done. }
    f_equal. rewrite IH; [done|by apply body_of_hash_free|done].
Qed.

Lemma split_once_line (n rest : text) :
  NL ∉ n → split_once NL (n ++ NL :: rest) = [n; rest].
Proof.
  induction n as [|c n IH]; intros Hn.
  - cbn [app split_once]. by rewrite N.eqb_refl.
  - cbn [app split_once].
    destruct (N.eqb_spec c NL) as [->|_]; [exfalso; apply Hn; by left|].
    rewrite IH; [done|]. intros ?. apply Hn. by right.
Qed.

(** One part: the name on the first line, the text after it. *)
Lemma parse_part_section (files : list (text * text)) (f : file_section) :
  plain_section f →
  parse_part files (body_of f)
  = dict_set (file_name f) (_strip_code_fences (block f)) files.
Proof.
  intros Hf.
  destruct (plain_name_head _ (proj1 Hf)) as (c & n' & Hn & Hc).
  destruct Hf as ((Hne & Hs & Hnl & Hcolon & Hh) & Hb & Hr & Hbh & Hg).
  unfold parse_part.
  assert (strip (body_of f) = file_name f ++ NL :: block f) as ->.
  { unfold strip, body_of.
    assert (lstrip (file_name f ++ [NL] ++ block f ++ gap f)
            = file_name f ++ [NL] ++ block f ++ gap f) as ->.
    { rewrite Hn. unfold lstrip. cbn [app lstrip_with]. by rewrite Hc. }
    unfold rstrip in *. rewrite !app_assoc.
    rewrite rstrip_with_spaces by done.
    destruct (rstrip_with_fixed is_space (block f) Hb Hr) as (b' & d & Hbd & Hd).
    rewrite Hbd, app_assoc. rewrite rstrip_with_keep by done.
    by rewrite <- !app_assoc. }
  rewrite split_once_line by done.
  rewrite Hs.
  assert (rstrip_chars (py ":") (file_name f) = file_name f) as ->.
  { apply last_is_Some in Hne as [x Hx]. apply last_Some in Hx as [n Hx].
    rewrite Hx in Hcolon |- *. rewrite last_snoc in Hcolon.
    unfold rstrip_chars. apply rstrip_with_keep.
    change (py ":") with [58]. cbn [existsb].
    destruct (N.eqb_spec x 58) as [->|_]; done. }
  done.
Qed.

Lemma dict_set_fresh (k v : text) (files : list (text * text)) :
  k ∉ files.*1 → dict_set k v files = files ++ [(k, v)].
Proof.
  induction files as [|[k' v'] files IH]; intros Hk; [done|].
  cbn [dict_set app]. cbn [fmap list_fmap fst] in Hk.
  apply not_elem_of_cons in Hk as [Hne Hk].
  rewrite bool_decide_eq_false_2 by done. by rewrite IH.
Qed.

Lemma parse_parts (files : list (text * text)) (sections : list file_section) :
  Forall plain_section sections →
  NoDup (files.*1 ++ (file_name <$> sections)) →
  foldl parse_part files (body_of <$> sections)
  = files ++ ((λ f, (file_name f, _strip_code_fences (block f))) <$> sections).
Proof.
  revert files. induction sections as [|f sections IH]; intros files Hs Hnd.
  - by rewrite app_nil_r.
  - apply Forall_cons in Hs as [Hf Hs]. cbn [fmap list_fmap foldl].
    rewrite parse_part_section by done.
    cbn [fmap list_fmap] in Hnd.
    rewrite dict_set_fresh.
    + rewrite IH; [by rewrite <- app_assoc|done|].
      rewrite fmap_app. cbn [fmap list_fmap fst]. by rewrite <- app_assoc.
    + apply NoDup_app in Hnd as (_ & Hnd & _). intros Hin.
      apply (Hnd _ Hin). by left.
Qed.

(** X20: the parser inverts the format of a response with files.
    A response made of a preamble and of files, each introduced by
    the marker and its name on one line and followed by white space
    only, with distinct names, is parsed into these files in their
    order: each name with its text without code fences.  (The
    preamble and the texts hold no three number signs in a row and
    do not end with one; a name has no white space at its ends and
    no colon at its end; a text does not end with white space.) *)
Theorem parse_response_sections (pre : text) (sections : list file_section)
    (task_name : text) :
  hash_free pre →
  sections ≠ [] →
  Forall plain_section sections →
  NoDup (file_name <$> sections) →
  _parse_response (pre ++ concat (render <$> sections)) task_name
  = (λ f, (file_name f, _strip_code_fences (block f))) <$> sections.
Proof.
  intros Hpre Hne Hs Hnd. unfold _parse_response, split.
  rewrite split_sections by done. cbn [length tail app].
  destruct sections as [|f sections]; [done|].
  cbn [fmap list_fmap length]. cbn [Nat.leb].
  change (body_of f :: (body_of <$> sections))
    with (body_of <$> f :: sections).
  by rewrite parse_parts.
Qed.
End Responses.

End ResponseFacts.

(** ** Headings of the reference documents *)

Module HeadingFacts.
Import Re Validator HeadingShape ReFacts TextFacts ScanFacts.

Section Headings.
Context `{Unicode}.

Lemma py_hashes3 : py "###" = [35; 35; 35].
Proof. reflexivity. Qed.

(** *** What a repetition has read *)

Lemma star_inv {R} (p : N → bool) pos prev (s : text) g (k : cont R) r :
  star p pos prev s g k = Some r →
  ∃ ws rest prev',
    s = ws ++ rest ∧ Forall (λ c, p c = true) ws
    ∧ k (pos + length ws)%nat prev' rest g = Some r.
Proof.
  revert pos prev. induction s as [|d s IH]; intros pos prev; cbn [star].
  - intros Hk. exists [], [], prev. by rewrite Nat.add_0_r.
  - destruct (p d) eqn:Hd.
    + destruct (star p (S pos) (Some d) s g k) as [r'|] eqn:Hs.
      * intros [= <-]. destruct (IH _ _ Hs) as (ws & rest & prev' & -> & Hws & Hk).
        exists (d :: ws), rest, prev'. split; [done|].
        split; [by constructor|].
        rewrite <- Hk. f_equal. simpl. lia.
      * intros Hk. exists [], (d :: s), prev. by rewrite Nat.add_0_r.
    + intros Hk. exists [], (d :: s), prev. by rewrite Nat.add_0_r.
Qed.

Lemma plus_inv {R} (p : N → bool) pos prev (s : text) g (k : cont R) r :
  run (Plus p) pos prev s g k = Some r →
  ∃ ws rest prev',
    s = ws ++ rest ∧ ws ≠ [] ∧ Forall (λ c, p c = true) ws
    ∧ k (pos + length ws)%nat prev' rest g = Some r.
Proof.
  cbn [run]. destruct s as [|d s]; [done|]. destruct (p d) eqn:Hd; [|done].
  intros (ws & rest & prev' & -> & Hws & Hk)%star_inv.
  exists (d :: ws), rest, prev'. split; [done|]. split; [done|].
  split; [by constructor|]. rewrite <- Hk. f_equal. simpl. lia.
Qed.

Lemma lit_inv {R} (l : text) pos prev (s : text) g (k : cont R) r :
  l ≠ [] →
  lit l pos prev s g k = Some r →
  ∃ rest, s = l ++ rest
          ∧ k (pos + length l)%nat (last l) rest g = Some r.
Proof.
  intros Hl. rewrite lit_starts by done.
  destruct (starts_with l s) eqn:Hs; [|done]. intros Hk.
  exists (drop (length l) s). split; [|done].
  clear Hk Hl. revert s Hs. induction l as [|c l IH]; intros s Hs; [done|].
  destruct s as [|d s]; [done|]. cbn [starts_with] in Hs.
  apply andb_true_iff in Hs as [->%N.eqb_eq Hs]. cbn [length drop app].
  f_equal. by apply IH.
Qed.

(** *** What a heading pattern matches *)

Lemma not_hash_space (ws : text) :
  Forall (λ c, is_space c = true) ws → Forall (λ c, c ≠ 35) ws.
Proof.
  intros Hall. eapply Forall_impl; [exact Hall|].
  intros c Hc ->. by vm_compute in Hc.
Qed.

Lemma not_hash_word (w : text) :
  Forall (λ c, is_word c = true) w → Forall (λ c, c ≠ 35) w.
Proof.
  intros Hall. eapply Forall_impl; [exact Hall|].
  intros c Hc ->. by vm_compute in Hc.
Qed.

Lemma function_heading_shaped : heading_shaped function_heading.
Proof.
  intros pos prev s m. unfold match_here, function_heading.
  rewrite run_Seq, run_Bol.
  assert (∀ prev',
            run (Seq (Lit (py "###")) (Seq (Plus is_space)
                   (Seq (Lit (py "mdp.")) (Group (Plus is_word)))))
                pos prev' s None
                (λ pos' _ _ g, Some (RMatch pos pos' g)) = Some m →
            ∃ M rest, s = py "###" ++ M ++ rest ∧ Forall (λ c, c ≠ 35) M
                      ∧ m_end m = (pos + 3 + length M)%nat) as Hshape.
  { intros prev'. rewrite run_Seq, run_Lit.
    intros (s1 & -> & Hk)%lit_inv; [|done]. rewrite run_Seq in Hk.
    apply plus_inv in Hk as (ws & s2 & prev2 & -> & _ & Hws & Hk).
    rewrite run_Seq, run_Lit in Hk.
    apply lit_inv in Hk as (s3 & -> & Hk); [|done]. rewrite run_Group in Hk.
    apply plus_inv in Hk as (w & s4 & prev4 & -> & _ & Hw & Hk).
    injection Hk as <-. cbn [m_end].
    exists (ws ++ py "mdp." ++ w), s4. split; [by rewrite <- !app_assoc|].
    split.
    - apply Forall_app. split; [by apply not_hash_space|].
      apply Forall_app. split; [|by apply not_hash_word].
      by repeat constructor.
    - rewrite !length_app. simpl. lia. }
  destruct prev as [c|]; [destruct (c =? NL)|]; try apply Hshape. done.
Qed.

Lemma class_heading_shaped : heading_shaped class_heading.
Proof.
  intros pos prev s m. unfold match_here, class_heading.
  rewrite run_Seq, run_Bol.
  assert (∀ prev',
            run (Seq (Lit (py "###")) (Seq (Plus is_space)
                   (Group (Seq (Cls is_upper_AZ) (Plus is_word)))))
                pos prev' s None
                (λ pos' _ _ g, Some (RMatch pos pos' g)) = Some m →
            ∃ M rest, s = py "###" ++ M ++ rest ∧ Forall (λ c, c ≠ 35) M
                      ∧ m_end m = (pos + 3 + length M)%nat) as Hshape.
  { intros prev'. rewrite run_Seq, run_Lit.
    intros (s1 & -> & Hk)%lit_inv; [|done]. rewrite run_Seq in Hk.
    apply plus_inv in Hk as (ws & s2 & prev2 & -> & _ & Hws & Hk).
    rewrite run_Group, run_Seq, run_Cls in Hk.
    destruct s2 as [|u s2]; [done|].
    destruct (is_upper_AZ u) eqn:Hu; [|done].
    apply plus_inv in Hk as (w & s4 & prev4 & -> & _ & Hw & Hk).
    injection Hk as <-. cbn [m_end].
    exists (ws ++ [u] ++ w), s4. split; [by rewrite <- !app_assoc|].
    split.
    - apply Forall_app. split; [by apply not_hash_space|].
      apply Forall_app. split; [|by apply not_hash_word].
      constructor; [|constructor]. intros ->. by vm_compute in Hu.
    - rewrite !length_app. simpl. lia. }
  destruct prev as [c|]; [destruct (c =? NL)|]; try apply Hshape. done.
Qed.

(** *** No match runs into the next heading *)

Lemma prefix_without (c : N) (a u M rest : text) :
  a ++ c :: u = M ++ rest → Forall (λ d, d ≠ c) M →
  (length M ≤ length a)%nat.
Proof.
  revert M. induction a as [|x a IH]; intros M Heq HM.
  - destruct M as [|y M]; [done|]. cbn [app] in Heq.
    injection Heq as <- _. by apply Forall_cons in HM as [? _].
  - destruct M as [|y M]; [simpl; lia|]. cbn [app] in Heq.
    injection Heq as <- Heq. apply Forall_cons in HM as [_ HM].
    simpl. apply le_n_S. by apply IH.
Qed.

(** A match that starts in a text which ends with a line feed and
    is followed by a number sign ends in that text. *)
Lemma heading_within (r : regex) (a u : text) pos prev m :
  heading_shaped r →
  a ≠ [] → last a = Some NL →
  match_here r pos prev (a ++ 35 :: u) = Some m →
  (m_end m - pos ≤ length a)%nat.
Proof.
  intros Hr Hne Hl (M & rest & Heq & HM & ->)%Hr. rewrite py_hashes3 in Heq.
  destruct a as [|x [|y [|z a]]]; [done|..].
  - injection Heq as -> _. done.
  - injection Heq as _ -> _. done.
  - injection Heq as _ _ _ Heq.
    apply prefix_without in Heq; [|done]. simpl. lia.
Qed.

(** The heading at the start of a line is among the matches. *)
Lemma finditer_go_finds (r : regex) (u : text) (found : nat → rmatch) :
  heading_shaped r →
  (∀ pos prev, prev = None ∨ prev = Some NL →
               match_here r pos prev (35 :: u) = Some (found pos)) →
  ∀ (pre : text) skip pos prev,
    (skip ≤ length pre)%nat →
    (pre = [] → prev = None ∨ prev = Some NL) →
    (pre ≠ [] → last pre = Some NL) →
    found (pos + length pre)%nat ∈ finditer_go r skip pos prev (pre ++ 35 :: u).
Proof.
  intros Hr Hhit. induction pre as [|c pre IH]; intros skip pos prev Hskip Hp Hl.
  - destruct skip; [|simpl in Hskip; lia]. cbn [app finditer_go].
    rewrite (Hhit pos prev) by by apply Hp. rewrite Nat.add_0_r. by left.
  - assert (pre = [] → Some c = None ∨ Some c = Some NL) as Hp'.
    { intros ->. right. by rewrite <- (Hl ltac:(done)). }
    assert (pre ≠ [] → last pre = Some NL) as Hl'.
    { intros Hne. rewrite <- (Hl ltac:(done)).
      destruct pre; [done|]. by rewrite last_cons_cons. }
    replace (pos + length (c :: pre))%nat with (S pos + length pre)%nat
      by (simpl; lia).
    destruct skip as [|skip]; cbn [app finditer_go].
    + destruct (match_here r pos prev (c :: pre ++ 35 :: u)) as [m|] eqn:Hm.
      * right. apply IH; [|done|done].
        change (c :: pre ++ 35 :: u) with ((c :: pre) ++ 35 :: u) in Hm.
        apply heading_within in Hm; [|done|done|by apply Hl].
        simpl in Hm. lia.
      * apply IH; [lia|done|done].
    + apply IH; [simpl in Hskip; lia|done|done].
Qed.

(** *** The heading is matched *)

Lemma word_run {R} (w post : text) pos prev g (k : cont R) r :
  w ≠ [] → Forall (λ c, is_word c = true) w →
  is_wordo (head post) = false →
  (∀ prev', k (pos + length w)%nat prev' post g = Some r) →
  run (Plus is_word) pos prev (w ++ post) g k = Some r.
Proof.
  intros Hne Hw Hpost Hk. apply plus_greedy; [done|done| |done].
  by destruct post.
Qed.

Lemma upper_not_space (c : N) : is_upper_AZ c = true → is_space c = false.
Proof.
  unfold is_upper_AZ. intros [H1%N.leb_le H2%N.leb_le]%andb_true_iff.
  unfold is_space.
  repeat match goal with
         | |- context [(?a <=? ?b)] => destruct (N.leb_spec a b); try lia
         end;
    repeat match goal with
           | |- context [(?a =? ?b)] => destruct (N.eqb_spec a b); try lia
           end;
    reflexivity.
Qed.

Lemma function_heading_match (name post : text) pos prev :
  prev = None ∨ prev = Some NL →
  name ≠ [] → Forall (λ c, is_word c = true) name →
  is_wordo (head post) = false →
  match_here function_heading pos prev (py "### mdp." ++ name ++ post)
  = Some (RMatch pos (pos + 8 + length name)
            (Some ((pos + 8)%nat, (pos + 8 + length name)%nat))).
Proof.
  intros Hprev Hne Hw Hpost. unfold match_here, function_heading.
  rewrite run_Seq, run_Bol.
  assert (∀ prev',
            run (Seq (Lit (py "###")) (Seq (Plus is_space)
                   (Seq (Lit (py "mdp.")) (Group (Plus is_word)))))
                pos prev' (py "### mdp." ++ name ++ post) None
                (λ pos' _ _ g, Some (RMatch pos pos' g))
            = Some (RMatch pos (pos + 8 + length name)
                      (Some ((pos + 8)%nat, (pos + 8 + length name)%nat))))
    as Hm.
  { intros prev'. rewrite run_Seq, run_Lit, lit_starts by done.
    change (py "### mdp.") with (py "###" ++ 32 :: 109 :: py "dp.").
    rewrite <- app_assoc, starts_with_app, drop_app_length.
    rewrite run_Seq.
    apply (plus_greedy is_space [32] ((109 :: py "dp.") ++ name ++ post));
      [done|by repeat constructor|done|].
    intros prev1. rewrite run_Seq, run_Lit, lit_starts by done.
    change (109 :: py "dp.") with (py "mdp.").
    rewrite starts_with_app, drop_app_length, run_Group.
    apply word_run; [done|done|done|]. intros prev2.
    f_equal. f_equal; [simpl; lia|]. f_equal. f_equal; simpl; lia. }
  destruct Hprev as [->| ->]; [apply Hm|]. rewrite N.eqb_refl. apply Hm.
Qed.

Lemma class_heading_match (c : N) (w post : text) pos prev :
  prev = None ∨ prev = Some NL →
  is_upper_AZ c = true → w ≠ [] → Forall (λ d, is_word d = true) w →
  is_wordo (head post) = false →
  match_here class_heading pos prev (py "### " ++ (c :: w) ++ post)
  = Some (RMatch pos (pos + 4 + length (c :: w))
            (Some ((pos + 4)%nat, (pos + 4 + length (c :: w))%nat))).
Proof.
  intros Hprev Hc Hne Hw Hpost. unfold match_here, class_heading.
  rewrite run_Seq, run_Bol.
  assert (∀ prev',
            run (Seq (Lit (py "###")) (Seq (Plus is_space)
                   (Group (Seq (Cls is_upper_AZ) (Plus is_word)))))
                pos prev' (py "### " ++ (c :: w) ++ post) None
                (λ pos' _ _ g, Some (RMatch pos pos' g))
            = Some (RMatch pos (pos + 4 + length (c :: w))
                      (Some ((pos + 4)%nat, (pos + 4 + length (c :: w))%nat))))
    as Hm.
  { intros prev'. rewrite run_Seq, run_Lit, lit_starts by done.
    change (py "### ") with (py "###" ++ [32]).
    rewrite <- app_assoc, starts_with_app, drop_app_length.
    rewrite run_Seq.
    apply (plus_greedy is_space [32] ((c :: w) ++ post));
      [done|by repeat constructor| |].
    { cbn [app]. by apply upper_not_space. }
    intros prev1. rewrite run_Group, run_Seq, run_Cls. cbn [app]. rewrite Hc.
    apply (word_run w post); [done|done|done|]. intros prev2.
    f_equal. f_equal; [simpl; lia|]. f_equal. f_equal; simpl; lia. }
  destruct Hprev as [->| ->]; [apply Hm|]. rewrite N.eqb_refl. apply Hm.
Qed.

(** *** From a match to the registry *)

Lemma add_headings_mono (pattern : regex) (contents : text)
    (symbols : gset text) (x : text) :
  x ∈ symbols → x ∈ add_headings pattern contents symbols.
Proof.
  unfold add_headings. revert symbols.
  induction (finditer pattern contents) as [|m l IH]; intros symbols Hx;
    [done|].
  cbn [foldl]. apply IH, elem_of_union. by right.
Qed.

Lemma add_headings_elem (pattern : regex) (contents : text)
    (symbols : gset text) (m : rmatch) :
  m ∈ finditer pattern contents →
  group1 m contents ∈ add_headings pattern contents symbols.
Proof.
  unfold add_headings. revert symbols.
  induction (finditer pattern contents) as [|m' l IH]; intros symbols Hm;
    [by apply elem_of_nil in Hm|].
  cbn [foldl]. apply elem_of_cons in Hm as [->|Hm]; [|by apply IH].
  assert (group1 m' contents ∈ {[group1 m' contents]} ∪ symbols) as Hin
    by (apply elem_of_union; left; by apply elem_of_singleton).
  revert Hin. generalize ({[group1 m' contents]} ∪ symbols).
  clear IH. induction l as [|m2 l IH]; intros acc Hin; [done|].
  cbn [foldl]. apply IH, elem_of_union. by right.
Qed.

Lemma scan_file_mono (symbols : gset text) (contents x : text) :
  x ∈ symbols → x ∈ scan_file symbols contents.
Proof. intros Hx. unfold scan_file. by do 2 apply add_headings_mono. Qed.

Lemma scan_files_mono (files : list text) (symbols : gset text) (x : text) :
  x ∈ symbols → x ∈ foldl scan_file symbols files.
Proof.
  revert symbols. induction files as [|f files IH]; intros symbols Hx; [done|].
  cbn [foldl]. by apply IH, scan_file_mono.
Qed.

Lemma scan_files_elem (files : list text) (symbols : gset text)
    (file x : text) :
  file ∈ files → (∀ acc, x ∈ scan_file acc file) →
  x ∈ foldl scan_file symbols files.
Proof.
  revert symbols. induction files as [|f files IH]; intros symbols Hin Hx;
    [by apply elem_of_nil in Hin|].
  cbn [foldl]. apply elem_of_cons in Hin as [->|Hin]; [|by apply IH].
  apply scan_files_mono, Hx.
Qed.

Lemma prev_at_line_start (pre : text) :
  pre = [] ∨ last pre = Some NL →
  (pre = [] → @None N = None ∨ @None N = Some NL)
  ∧ (pre ≠ [] → last pre = Some NL).
Proof. intros [->|Hl]; split; auto; done. Qed.

Lemma function_heading_loaded (files : list text)
    (pre name post : text) :
  pre ++ py "### mdp." ++ name ++ post ∈ files →
  pre = [] ∨ last pre = Some NL →
  name ≠ [] → Forall (λ c, is_word c = true) name →
  is_wordo (head post) = false →
  name ∈ fst (load_api_whitelist (Some files) None).
Proof.
  intros Hfile Hpre Hne Hw Hpost. cbn [load_api_whitelist fst].
  unfold load_api_whitelist_body. apply elem_of_union. left.
  apply (scan_files_elem _ _ _ _ Hfile). intros acc. unfold scan_file.
  apply add_headings_mono.
  set (found := λ pos : nat,
         RMatch pos (pos + 8 + length name)
           (Some ((pos + 8)%nat, (pos + 8 + length name)%nat))).
  destruct (prev_at_line_start pre Hpre) as [Hp Hl].
  pose proof (finditer_go_finds function_heading
                (py "## mdp." ++ name ++ post) found
                function_heading_shaped) as Hfind.
  specialize (Hfind (λ pos prev Hprev,
                function_heading_match name post pos prev Hprev Hne Hw Hpost)).
  specialize (Hfind pre 0%nat 0%nat None (Nat.le_0_l _) Hp Hl).
  change (35 :: py "## mdp." ++ name ++ post)
    with (py "### mdp." ++ name ++ post) in Hfind.
  apply (add_headings_elem function_heading _ acc) in Hfind.
  replace (group1 (found (0 + length pre)%nat)
             (pre ++ py "### mdp." ++ name ++ post)) with name in Hfind;
    [done|].
  symmetry. unfold group1, found. cbn [m_group1].
  transitivity (take (length name)
                  (drop (length (pre ++ py "### mdp."))
                        ((pre ++ py "### mdp.") ++ name ++ post))).
  - f_equal; [lia|].
    f_equal; [rewrite length_app; simpl; lia|by rewrite <- app_assoc].
  - by rewrite drop_app_length, take_app_length.
Qed.

Lemma class_heading_loaded (files : list text)
    (pre : text) (c : N) (w post : text) :
  pre ++ py "### " ++ (c :: w) ++ post ∈ files →
  pre = [] ∨ last pre = Some NL →
  is_upper_AZ c = true → w ≠ [] → Forall (λ d, is_word d = true) w →
  is_wordo (head post) = false →
  c :: w ∈ fst (load_api_whitelist (Some files) None).
Proof.
  intros Hfile Hpre Hc Hne Hw Hpost. cbn [load_api_whitelist fst].
  unfold load_api_whitelist_body. apply elem_of_union. left.
  apply (scan_files_elem _ _ _ _ Hfile). intros acc. unfold scan_file.
  set (found := λ pos : nat,
         RMatch pos (pos + 4 + length (c :: w))
           (Some ((pos + 4)%nat, (pos + 4 + length (c :: w))%nat))).
  destruct (prev_at_line_start pre Hpre) as [Hp Hl].
  pose proof (finditer_go_finds class_heading
                (py "## " ++ (c :: w) ++ post) found
                class_heading_shaped) as Hfind.
  specialize (Hfind (λ pos prev Hprev,
                class_heading_match c w post pos prev Hprev Hc Hne Hw Hpost)).
  specialize (Hfind pre 0%nat 0%nat None (Nat.le_0_l _) Hp Hl).
  change (35 :: py "## " ++ (c :: w) ++ post)
    with (py "### " ++ (c :: w) ++ post) in Hfind.
  apply (add_headings_elem class_heading _
           (add_headings function_heading
              (pre ++ py "### " ++ (c :: w) ++ post) acc)) in Hfind.
  replace (group1 (found (0 + length pre)%nat)
             (pre ++ py "### " ++ (c :: w) ++ post)) with (c :: w) in Hfind;
    [done|].
  symmetry. unfold group1, found. cbn [m_group1].
  transitivity (take (length (c :: w))
                  (drop (length (pre ++ py "### "))
                        ((pre ++ py "### ") ++ (c :: w) ++ post))).
  - f_equal; [lia|].
    f_equal; [rewrite length_app; simpl; lia|by rewrite <- app_assoc].
  - by rewrite drop_app_length, take_app_length.
Qed.

(** X21: a documented function is allowed.  When a reference file
    holds, at the start of a line, the heading made of three number
    signs, a space, the alias [mdp], a dot and a name of word
    characters, the registry loaded from the directory holds that
    name. *)
Theorem function_heading_is_loaded (files : list text)
    (pre name post : text) :
  pre ++ py "### mdp." ++ name ++ post ∈ files →
  pre = [] ∨ last pre = Some NL →
  name ≠ [] → Forall (λ c, is_word c = true) name →
  is_wordo (head post) = false →
  name ∈ fst (load_api_whitelist (Some files) None).
Proof. apply function_heading_loaded. Qed.

(** X22: a documented class is allowed.  When a reference file
    holds, at the start of a line, the heading made of three number
    signs, a space and a name that starts with a capital letter of
    [A-Z] followed by at least one word character, the registry
    loaded from the directory holds that name. *)
Theorem class_heading_is_loaded (files : list text)
    (pre : text) (c : N) (w post : text) :
  pre ++ py "### " ++ (c :: w) ++ post ∈ files →
  pre = [] ∨ last pre = Some NL →
  is_upper_AZ c = true → w ≠ [] → Forall (λ d, is_word d = true) w →
  is_wordo (head post) = false →
  c :: w ∈ fst (load_api_whitelist (Some files) None).
Proof. apply class_heading_loaded. Qed.
End Headings.

End HeadingFacts.

(** ** From the writer of the reference documents to the registry *)

Module ExtractFacts.
Import Re Validator Cli ExtractMdpApi HeadingFacts.

Lemma join_middle (sep : text) (A B : list text) (x : text) :
  A ≠ [] →
  join sep (A ++ x :: B)
  = (join sep A ++ sep) ++ x
    ++ match B with [] => [] | _ :: _ => sep ++ join sep B end.
Proof.
  induction A as [|a A IH]; [done|]. intros _.
  destruct A as [|a' A].
  - cbn [app join]. destruct B; by rewrite ?app_nil_r, <- ?app_assoc.
  - change (join sep ((a :: a' :: A) ++ x :: B))
      with (a ++ sep ++ join sep ((a' :: A) ++ x :: B)).
    rewrite IH by done.
    change (join sep (a :: a' :: A)) with (a ++ sep ++ join sep (a' :: A)).
    by rewrite <- !app_assoc.
Qed.

Lemma function_lines_split (l1 l2 : list function_doc) (func : function_doc) :
  function_lines (l1 ++ func :: l2)
  = function_lines l1
    ++ format_function_md func :: (py "---" ++ [NL]) :: function_lines l2.
Proof. unfold function_lines. by rewrite bind_app, bind_cons. Qed.

Lemma class_lines_split (l1 l2 : list class_doc) (cls : class_doc) :
  class_lines (l1 ++ cls :: l2)
  = class_lines l1
    ++ format_class_md cls :: (py "---" ++ [NL]) :: class_lines l2.
Proof. unfold class_lines. by rewrite bind_app, bind_cons. Qed.

(** The text of a function starts with its heading on a line. *)
Lemma format_function_md_heading (func : function_doc) :
  ∃ rest, format_function_md func = py "### mdp." ++ name func ++ NL :: rest.
Proof.
  unfold format_function_md. destruct (params func); cbn [app join];
    eexists; by rewrite <- !app_assoc.
Qed.

Lemma format_class_md_heading (cls : class_doc) :
  ∃ rest, format_class_md cls = py "### " ++ class_name cls ++ NL :: rest.
Proof.
  unfold format_class_md. destruct (bases cls); cbn [app join];
    eexists; by rewrite <- !app_assoc.
Qed.

(** A written line that is not the first starts a line of the
    page. *)
Lemma page_line (A B : list text) (x : text) :
  A ≠ [] →
  ∃ pre post, join [NL] (A ++ x :: B) = pre ++ x ++ post
              ∧ last pre = Some NL.
Proof.
  intros HA. eexists _, _. split; [by apply join_middle|].
  apply last_snoc.
Qed.

Section Pages.
Context `{Unicode}.

Lemma not_word_line : is_wordo (Some NL) = false.
Proof. reflexivity. Qed.

Lemma written_function_loaded (files : list text) (A B : list text)
    (func : function_doc) :
  A ≠ [] →
  join [NL] (A ++ format_function_md func :: B) ∈ files →
  name func ≠ [] → Forall (λ c, is_word c = true) (name func) →
  name func ∈ fst (load_api_whitelist (Some files) None).
Proof.
  intros HA Hfile Hne Hw.
  destruct (page_line A B (format_function_md func) HA)
    as (pre & post & Hpage & Hpre).
  destruct (format_function_md_heading func) as (rest & Hf).
  rewrite Hpage, Hf in Hfile.
  apply (function_heading_loaded files pre (name func) (NL :: rest ++ post));
    [|by right|done|done|done].
  by rewrite <- !app_assoc in Hfile.
Qed.

Lemma written_class_loaded (files : list text) (A B : list text)
    (cls : class_doc) (c : N) (w : text) :
  A ≠ [] →
  join [NL] (A ++ format_class_md cls :: B) ∈ files →
  class_name cls = c :: w →
  is_upper_AZ c = true → w ≠ [] → Forall (λ d, is_word d = true) w →
  class_name cls ∈ fst (load_api_whitelist (Some files) None).
Proof.
  intros HA Hfile Hname Hc Hne Hw.
  destruct (page_line A B (format_class_md cls) HA)
    as (pre & post & Hpage & Hpre).
  destruct (format_class_md_heading cls) as (rest & Hf).
  rewrite Hpage, Hf, Hname in Hfile. rewrite Hname.
  apply (class_heading_loaded files pre c w (NL :: rest ++ post));
    [|by right|done|done|done|done].
  by rewrite <- !app_assoc in Hfile.
Qed.

(** X23: what the extraction script documents, the validator
    allows.  When the reference directory holds a page that
    [main] writes for a list of functions, the registry loaded from
    it holds the name of every function of the list, provided the
    name is made of word characters. *)
Theorem documented_function_is_loaded (files : list text)
    (category module : text) (functions : list function_doc)
    (func : function_doc) :
  functions_page category module functions ∈ files →
  func ∈ functions →
  name func ≠ [] → Forall (λ c, is_word c = true) (name func) →
  name func ∈ fst (load_api_whitelist (Some files) None).
Proof.
  intros Hfile (l1 & l2 & ->)%list_elem_of_split Hne Hw.
  unfold functions_page in Hfile. rewrite function_lines_split in Hfile.
  eapply (written_function_loaded files
            (_ :: _ :: _ :: _ :: function_lines l1) _ func);
    [done|exact Hfile|done|done].
Qed.

(** X24: the same for the page of the actions: the registry holds
    the name of every class of the page that starts with a capital
    letter of [A-Z] followed by at least one word character, and
    the name of every helper function made of word characters. *)
Theorem documented_action_is_loaded (files : list text)
    (all_classes : list class_doc) (all_functions : list function_doc) :
  actions_page all_classes all_functions ∈ files →
  (∀ cls c w, cls ∈ all_classes → class_name cls = c :: w →
              is_upper_AZ c = true → w ≠ [] →
              Forall (λ d, is_word d = true) w →
              class_name cls ∈ fst (load_api_whitelist (Some files) None))
  ∧ (∀ func, func ∈ all_functions → name func ≠ [] →
             Forall (λ c, is_word c = true) (name func) →
             name func ∈ fst (load_api_whitelist (Some files) None)).
Proof.
  intros Hfile. split.
  - intros cls c w (l1 & l2 & ->)%list_elem_of_split Hname Hc Hne Hw.
    unfold actions_page in Hfile. rewrite class_lines_split in Hfile.
    destruct all_functions as [|f0 fs].
    + eapply (written_class_loaded files
                (_ :: _ :: _ :: _ :: class_lines l1) _ cls c w);
        [done|exact Hfile|done..].
    + rewrite <- !app_assoc in Hfile.
      eapply (written_class_loaded files
                (_ :: _ :: _ :: _ :: class_lines l1) _ cls c w);
        [done|exact Hfile|done..].
  - intros func (l1 & l2 & ->)%list_elem_of_split Hne Hw.
    unfold actions_page in Hfile.
    assert (∃ f0 fs, l1 ++ func :: l2 = f0 :: fs) as (f0 & fs & Heq)
      by (destruct l1; eauto).
    rewrite Heq in Hfile at 1. rewrite function_lines_split in Hfile.
    rewrite !app_assoc in Hfile.
    eapply (written_function_loaded files _ _ func);
      [|exact Hfile|done|done].
    done.
Qed.
End Pages.

End ExtractFacts.

(** ** The approved functions and the corrections table *)

Module ApprovedFacts.
Import Re Literal Validator Generator WordBoundary.

Section Approved.
Context `{Unicode}.

(** The names of every section of every category. *)
Lemma approved_names_clean :
  forallb (λ c : text * list (text * list text),
    forallb (λ s : text * list text,
      forallb (λ n, negb (flagged n) && forallb is_word n) s.2) c.2)
    CATEGORY_APPROVED_FUNCTIONS = true.
Proof. vm_compute. reflexivity. Qed.

Lemma approved_name_clean category secs section names n :
  (category, secs) ∈ CATEGORY_APPROVED_FUNCTIONS →
  (section, names) ∈ secs → n ∈ names →
  flagged n = false ∧ forallb is_word n = true.
Proof.
  intros Hc Hs Hn. pose proof approved_names_clean as Hall.
  rewrite List.forallb_forall in Hall.
  specialize (Hall _ (proj1 (list_elem_of_In _ _) Hc)). cbn [snd] in Hall.
  rewrite List.forallb_forall in Hall.
  specialize (Hall _ (proj1 (list_elem_of_In _ _) Hs)). cbn [snd] in Hall.
  rewrite List.forallb_forall in Hall.
  specialize (Hall _ (proj1 (list_elem_of_In _ _) Hn)).
  apply andb_true_iff in Hall as [Hf Hw]. split; [|done].
  by apply negb_true_iff.
Qed.

(** X25: the auto-corrector leaves the approved functions alone.
    Where the text holds the alias and a dot followed by a name that
    [CATEGORY_APPROVED_FUNCTIONS] lists for some category and
    section, and the name ends there, the corrected text is the
    corrected text before the occurrence, the occurrence unaltered,
    and the corrected text after it. *)
Theorem auto_correct_code_keeps_approved
    (category section : text) secs names (n pre post : text) :
  (category, secs) ∈ CATEGORY_APPROVED_FUNCTIONS →
  (section, names) ∈ secs → n ∈ names →
  is_wordo (head post) = false →
  ∃ pre' post',
    fst (auto_correct_code (pre ++ alias_dot ++ n ++ post))
      = pre' ++ alias_dot ++ n ++ post'
    ∧ fst (auto_correct_code (pre ++ alias_dot)) = pre' ++ alias_dot
    ∧ fst (auto_correct_code (n ++ post)) = n ++ post'.
Proof.
  intros Hc Hs Hn Hpost.
  destruct (approved_name_clean _ _ _ _ _ Hc Hs Hn) as [Hf Hw].
  rewrite !auto_correct_code_text.
  apply pass_occurrence; [apply common_corrections_local| |done|done].
  intros w r. by apply not_flagged_ne.
Qed.
End Approved.

End ApprovedFacts.

(** ** The definitions on concrete inputs *)

Module Runs.
Import Re Literal Validator Generator Cli Verdict Samples.
Import AutoCorrectFacts WordBoundary SymbolFacts ValidateFacts RegistryFacts
       GeneratorFacts CliFacts.

(** *** Texts *)

Example str_of_N_samples :
  str_of_N 0 = py "0" ∧ str_of_N 7 = py "7" ∧ str_of_N 10 = py "10"
  ∧ str_of_N 4096 = py "4096" ∧ str_of_N 1234567890 = py "1234567890".
Proof. vm_compute. repeat split. Qed.

(** *** The auto-corrector *)

Example auto_correct_joint_pos_l2 :
  auto_correct_code (py "x = mdp.joint_pos_l2")
  = (py "x = mdp.joint_pos_target_l2",
     [py "mdp.joint_pos_l2 -> mdp.joint_pos_target_l2"]).
Proof. vm_compute. reflexivity. Qed.

Example auto_correct_two_hits :
  auto_correct_code
    (py "x = mdp.joint_pos_l2" ++ [NL] ++ py "y = mdp.track_ang_vel_z")
  = (py "x = mdp.joint_pos_target_l2" ++ [NL] ++ py "y = mdp.track_ang_vel_z_exp",
     [py "mdp.joint_pos_l2 -> mdp.joint_pos_target_l2";
      py "mdp.track_ang_vel_z -> mdp.track_ang_vel_z_exp"]).
Proof. vm_compute. reflexivity. Qed.

Example auto_correct_keeps_longer_name :
  auto_correct_code (py "x = mdp.track_lin_vel_xy_exp")
  = (py "x = mdp.track_lin_vel_xy_exp", []).
Proof. vm_compute. reflexivity. Qed.

(** A longer name that the table flags as well is rewritten, by its
    own entry. *)
Example auto_correct_flagged_longer_name :
  auto_correct_code (py "x = mdp.position_error_tanh")
  = (py "x = mdp.position_command_error_tanh",
     [py "mdp.position_error_tanh -> mdp.position_command_error_tanh"]).
Proof. vm_compute. reflexivity. Qed.

(** The alias is matched without a boundary before it. *)
Example auto_correct_inside_a_word :
  fst (auto_correct_code (py "xmdp.joint_pos_l2(")) = py "xmdp.joint_pos_target_l2(".
Proof. vm_compute. reflexivity. Qed.

(** A middle dot may follow in an identifier, and is no word
    character: the wrong name ends at a boundary and is rewritten. *)
Lemma auto_correct_identifier_counterexample :
  flagged (py "track_lin_vel_xy") = true
  ∧ forallb latin1_identifier (183 :: py "exp") = true
  ∧ flagged dotted_name = false
  ∧ fst (auto_correct_code (py "x = " ++ alias_dot ++ dotted_name))
    = py "x = " ++ alias_dot ++ py "track_lin_vel_xy_exp" ++ 183 :: py "exp"
  ∧ fst (auto_correct_code (py "x = " ++ alias_dot ++ dotted_name))
    ≠ py "x = " ++ alias_dot ++ dotted_name.
Proof.
  split; [vm_compute; reflexivity|]. split; [vm_compute; reflexivity|].
  split; [vm_compute; reflexivity|]. split; [vm_compute; reflexivity|].
  vm_compute. discriminate.
Qed.

Lemma auto_correct_word_boundary_witness :
  flagged (py "track_lin_vel_xy") = true
  ∧ flagged (py "track_lin_vel_xy" ++ py "_exp") = false
  ∧ ∃ pre' post',
      fst (auto_correct_code
             (py "x = " ++ alias_dot ++ (py "track_lin_vel_xy" ++ py "_exp") ++ []))
        = pre' ++ alias_dot ++ (py "track_lin_vel_xy" ++ py "_exp") ++ post'
      ∧ fst (auto_correct_code (py "x = " ++ alias_dot)) = pre' ++ alias_dot
      ∧ fst (auto_correct_code ((py "track_lin_vel_xy" ++ py "_exp") ++ []))
        = (py "track_lin_vel_xy" ++ py "_exp") ++ post'.
Proof.
  split; [vm_compute; reflexivity|]. split; [vm_compute; reflexivity|].
  apply (auto_correct_word_boundary_safe
           (py "x = ") (py "track_lin_vel_xy") (py "_exp") []).
  - vm_compute. reflexivity.
  - vm_compute. discriminate.
  - vm_compute. reflexivity.
  - vm_compute. reflexivity.
  - reflexivity.
Defined.

(** *** The normaliser *)

Example post_process_rewrites_on_unknown_category :
  post_process_env_cfg src_task_import unknown_category
  = (py "import isaaclab.envs.mdp as mdp",
     [py "Replaced task-specific mdp import with isaaclab.envs.mdp"]).
Proof. vm_compute. reflexivity. Qed.

Lemma post_process_unknown_category_fails_witness :
  CATEGORY_ROBOT_CONFIG !! unknown_category = None
  ∧ ¬ nothing_to_fix src_task_import
  ∧ post_process_env_cfg src_task_import unknown_category ≠ (src_task_import, []).
Proof.
  assert (CATEGORY_ROBOT_CONFIG !! unknown_category = None) as Hc
    by (vm_compute; reflexivity).
  assert (¬ nothing_to_fix src_task_import) as Hx
    by (intros [Hs _]; vm_compute in Hs; discriminate).
  split; [exact Hc|]. split; [exact Hx|].
  exact (post_process_unknown_category_fails src_task_import unknown_category
           Hc Hx).
Defined.

(** [test_unknown_category_is_noop]: a text with nothing to fix. *)
Example post_process_unknown_category_plain :
  post_process_env_cfg src_plain unknown_category = (src_plain, []).
Proof. vm_compute. reflexivity. Qed.

(** The tests of [post_process_env_cfg]. *)

Example post_process_replaces_task_import :
  let '(result, fixes) :=
    post_process_env_cfg src_cartpole_task_import (py "classic_cartpole") in
  contains (py "import isaaclab.envs.mdp as mdp") result = true
  ∧ contains (py "isaaclab_tasks.manager_based") result = false
  ∧ existsb (contains (py "mdp import")) fixes = true.
Proof. vm_compute. repeat split. Qed.

Example post_process_injects_robot_import :
  post_process_env_cfg src_missing_robot (py "classic_cartpole")
  = (lines [
       "from isaaclab.envs import ManagerBasedRLEnvCfg";
       "from isaaclab.utils import configclass";
       "";
       "from isaaclab_assets.robots.cartpole import CARTPOLE_CFG  # isort:skip";
       "";
       "@configclass";
       "class MySceneCfg:" ]%string
     ++ py "    robot: ArticulationCfg = " ++ replace_call "CARTPOLE_CFG" ++ [NL],
     [py "Injected robot config import: CARTPOLE_CFG";
      py "Replaced inline robot definition with CARTPOLE_CFG.replace()"]).
Proof. vm_compute. reflexivity. Qed.

Example post_process_replaces_inline_robot :
  post_process_env_cfg src_inline_robot (py "classic_cartpole")
  = (lines [
       "from isaaclab.envs import ManagerBasedRLEnvCfg";
       "from isaaclab_assets.robots.cartpole import CARTPOLE_CFG  # isort:skip";
       "";
       "class MySceneCfg:" ]%string
     ++ py "    robot: ArticulationCfg = " ++ replace_call "CARTPOLE_CFG" ++ [NL],
     [py "Replaced inline robot definition with CARTPOLE_CFG.replace()"]).
Proof. vm_compute. reflexivity. Qed.

Example post_process_keeps_correct_code :
  post_process_env_cfg src_correct_franka (py "manipulation_reach")
  = (src_correct_franka, []).
Proof. vm_compute. reflexivity. Qed.

(** *** The registry *)

Example load_api_whitelist_scans_headings :
  let symbols := fst (load_api_whitelist (Some [sample_reference]) None) in
  bool_decide (py "is_alive" ∈ symbols) = true
  ∧ bool_decide (py "lin_vel_z_l2" ∈ symbols) = true
  ∧ bool_decide (py "JointEffortActionCfg" ∈ symbols) = true
  ∧ bool_decide (py "not_a_heading" ∈ symbols) = false
  ∧ bool_decide (py "feet_air_time" ∈ symbols) = true
  ∧ size symbols = 15%nat.
Proof. vm_compute. repeat split. Qed.



(** *** The validator *)


Lemma check_api_symbols_unparsed_witness :
  ast_parse src_broken
  = inl (SyntaxError {| lineno := Some 1; msg := py "'(' was never closed" |})
  ∧ check_api_symbols src_broken sample_whitelist = Return []
  ∧ ∀ dir c, ∃ v,
      validate_config dir src_broken c = (Return v, c)
      ∧ is_valid v = false
      ∧ errors v = [py "SyntaxError at line "
                    ++ from_option str_of_N (py "None") (Some 1)
                    ++ py ": " ++ py "'(' was never closed"].
Proof.
  assert (ast_parse src_broken
          = inl (SyntaxError {| lineno := Some 1;
                                msg := py "'(' was never closed" |})) as Hp
    by (vm_compute; reflexivity).
  split; [exact Hp|].
  exact (check_api_symbols_unparsed src_broken sample_whitelist _ Hp).
Defined.

(** A lone surrogate does not parse, and [ast.parse] raises
    [UnicodeEncodeError] on it: the whitelist check raises. *)
Lemma check_api_symbols_unparsed_counterexample :
  ast_parse src_surrogate = inl UnicodeEncodeError
  ∧ check_api_symbols src_surrogate sample_whitelist = Raise UnicodeEncodeError
  ∧ check_api_symbols src_surrogate sample_whitelist ≠ Return [].
Proof.
  split; [vm_compute; reflexivity|]. split; [vm_compute; reflexivity|].
  vm_compute. discriminate.
Qed.

Lemma accessed_twice : accessed tree_twice = [py "fake_func"; py "fake_func"].
Proof. vm_compute. reflexivity. Qed.

Lemma fake_func_unknown : py "fake_func" ∉ sample_whitelist.
Proof.
  unfold sample_whitelist. rewrite not_elem_of_singleton.
  vm_compute. discriminate.
Qed.

Lemma check_api_symbols_once_witness :
  ast_parse src_twice = inr tree_twice
  ∧ check_api_symbols src_twice sample_whitelist
    = Return [unknown_message sample_whitelist (py "fake_func")].
Proof.
  assert (ast_parse src_twice = inr tree_twice) as Hp by (vm_compute; reflexivity).
  split; [exact Hp|].
  destruct (check_api_symbols_once src_twice sample_whitelist tree_twice Hp)
    as (names & _ & _ & _ & _ & _ & Hone).
  apply Hone.
  - rewrite accessed_twice. by left.
  - exact fake_func_unknown.
  - intros n'. rewrite accessed_twice. intros Hin _.
    apply elem_of_cons in Hin as [?|Hin]; [done|].
    apply elem_of_cons in Hin as [?|Hin]; [done|].
    by apply elem_of_nil in Hin.
Defined.

Lemma validate_config_syntax_error_witness :
  ast_parse src_broken_late
  = inl (SyntaxError {| lineno := Some 12; msg := py "'(' was never closed" |})
  ∧ ∃ line,
      validate_config None src_broken_late None
      = (Return {| is_valid := false;
                   errors := [py "SyntaxError at line " ++ line
                              ++ py ": " ++ py "'(' was never closed"];
                   warnings := [];
                   corrections := [] |}, None)
      ∧ names_line line (Some 12).
Proof.
  assert (ast_parse src_broken_late
          = inl (SyntaxError {| lineno := Some 12;
                                msg := py "'(' was never closed" |})) as Hp
    by (vm_compute; reflexivity).
  split; [exact Hp|].
  exact (validate_config_syntax_error None src_broken_late None _ Hp).
Defined.

Example validate_config_syntax_error_texts :
  fst (validate_config None src_broken None)
  = Return {| is_valid := false;
              errors := [py "SyntaxError at line 1: '(' was never closed"];
              warnings := []; corrections := [] |}
  ∧ fst (validate_config None src_broken_late None)
    = Return {| is_valid := false;
                errors := [py "SyntaxError at line 12: '(' was never closed"];
                warnings := []; corrections := [] |}.
Proof. vm_compute. split; reflexivity. Qed.

(** A lone surrogate and a null character do not parse, and
    [ast.parse] raises [UnicodeEncodeError] and [ValueError] on
    them: [validate_config] raises and returns no verdict. *)
Lemma validate_config_unparsed_counterexample :
  ast_parse src_surrogate = inl UnicodeEncodeError
  ∧ validate_config None src_surrogate None = (Raise UnicodeEncodeError, None)
  ∧ ast_parse src_null = inl ValueError
  ∧ validate_config None src_null None = (Raise ValueError, None)
  ∧ ∀ v, fst (validate_config None src_surrogate None) ≠ Return v.
Proof.
  split; [vm_compute; reflexivity|]. split; [vm_compute; reflexivity|].
  split; [vm_compute; reflexivity|]. split; [vm_compute; reflexivity|].
  intros v. vm_compute. discriminate.
Qed.

Lemma validate_config_coherent_witness :
  fst (validate_config None src_fake None) = Return verdict_fake
  ∧ (is_valid verdict_fake = false ↔ errors verdict_fake ≠ []).
Proof.
  assert (fst (validate_config None src_fake None) = Return verdict_fake) as Hv
    by (vm_compute; reflexivity).
  split; [exact Hv|].
  exact (validate_config_coherent None src_fake None verdict_fake Hv).
Defined.

(** The walk of the tree of [f(weight=-'a')]: the module, the
    statement, the call, the name, the keyword, the context of the
    name, the negation, its operator, the constant. *)
Example walk_tree_weight :
  walk tree_weight
  = [tree_weight;
     Other [Other [Name (py "f");
                   keyword (Some (py "weight"))
                           (UnaryOp USub (Constant (CStr (py "a"))))]];
     Other [Name (py "f");
            keyword (Some (py "weight")) (UnaryOp USub (Constant (CStr (py "a"))))];
     Name (py "f");
     keyword (Some (py "weight")) (UnaryOp USub (Constant (CStr (py "a"))));
     leaf;
     UnaryOp USub (Constant (CStr (py "a")));
     leaf;
     Constant (CStr (py "a"))].
Proof. vm_compute. reflexivity. Qed.

(** No other keyword of that tree raises. *)
Lemma tree_weight_only_bad :
  Forall (λ n, weight_raise n = None ∨ bad_weight n = true) (walk tree_weight).
Proof.
  rewrite walk_tree_weight.
  repeat (constructor;
          [first [left; vm_compute; reflexivity|right; vm_compute; reflexivity]|]).
  constructor.
Qed.

Lemma validate_config_raises_witness :
  ast_parse src_weight = inr tree_weight
  ∧ existsb bad_weight (walk tree_weight) = true
  ∧ fst (validate_config None src_weight None) = Raise TypeError.
Proof.
  assert (ast_parse src_weight = inr tree_weight) as Hp by (vm_compute; reflexivity).
  assert (existsb bad_weight (walk tree_weight) = true) as Hb
    by (vm_compute; reflexivity).
  split; [exact Hp|]. split; [exact Hb|].
  exact (proj2 (validate_config_raises None src_weight None tree_weight Hp Hb)
           tree_weight_only_bad).
Defined.

(** The f-string raises on an integer of more than 4300 digits. *)
Example validate_config_huge_weight :
  fst (validate_config None src_weight_huge None) = Raise ValueError.
Proof. vm_compute. reflexivity. Qed.

(** The branch for a plain constant tests the type before [abs]:
    the same string, not negated, raises nothing. *)
Example validate_config_plain_string_weight :
  fst (validate_config None src_weight_str None) = Return verdict_fake.
Proof. vm_compute. reflexivity. Qed.

Example validate_config_large_weight :
  fst (validate_config None src_weight_50 None)
  = Return {| is_valid := false; errors := errors verdict_fake;
              warnings := [py "Unusually large reward weight: 50"];
              corrections := [] |}
  ∧ fst (validate_config None src_weight_minus_50 None)
    = Return {| is_valid := false; errors := errors verdict_fake;
                warnings := [py "Unusually large reward weight: -50"];
                corrections := [] |}.
Proof. vm_compute. split; reflexivity. Qed.

Example validate_config_valid :
  fst (validate_config None src_valid None) = Return fresh_result.
Proof. vm_compute. reflexivity. Qed.

(** The message of a name with a close match. *)
Example unknown_message_with_suggestion :
  @unknown_message suggesting_lib sample_whitelist (py "action_rate_l3")
  = py "Unknown MDP function: mdp.action_rate_l3. Did you mean: mdp.action_rate_l2?".
Proof. vm_compute. reflexivity. Qed.

(** With a registry, the unknown name is reported once. *)
Example validate_config_unknown_symbol :
  fst (validate_config (Some [sample_reference]) src_twice None)
  = Return {| is_valid := false;
              errors := errors verdict_fake
                        ++ [py "Unknown MDP function: mdp.fake_func."];
              warnings := [];
              corrections := [] |}.
Proof. vm_compute. reflexivity. Qed.

(** *** The orchestrator *)

Lemma run_repair_raises_witness :
  ast_parse (fst (auto_correct_code src_weight)) = inr tree_weight
  ∧ existsb bad_weight (walk tree_weight) = true
  ∧ fst (run_repair None src_weight unknown_category empty_world) = Raise TypeError
  ∧ requests (snd (run_repair None src_weight unknown_category empty_world)) = [].
Proof.
  assert (ast_parse (fst (auto_correct_code src_weight)) = inr tree_weight) as Hp
    by (vm_compute; reflexivity).
  assert (existsb bad_weight (walk tree_weight) = true) as Hb
    by (vm_compute; reflexivity).
  split; [exact Hp|]. split; [exact Hb|].
  destruct (run_repair_raises None src_weight unknown_category empty_world
              tree_weight Hp Hb) as (_ & Hty & Hq).
  split; [exact (Hty tree_weight_only_bad)|exact Hq].
Defined.

(** The text becomes valid after one repair: the loop leaves at its
    second turn, one request sent. *)
Example run_repair_accepts_after_one_request :
  let '(r, w) := @run_repair _ _ helpful_generator None src_fake
                   unknown_category empty_world in
  r = Return {| final_code := src_valid;
                final_result := fresh_result;
                env_cfg := src_valid |}
  ∧ length (requests w) = 1%nat.
Proof. vm_compute. split; reflexivity. Qed.

(** The text stays invalid: after two requests the loop ends and the
    last text is returned with its errors. *)
Example run_repair_best_effort :
  let '(r, w) := @run_repair _ _ stubborn_generator None src_fake
                   unknown_category empty_world in
  r = Return {| final_code := src_fake;
                final_result := verdict_fake;
                env_cfg := src_fake |}
  ∧ (original_code <$> requests w) = [src_fake; src_fake]
  ∧ (error_list <$> requests w) = [errors verdict_fake; errors verdict_fake].
Proof. vm_compute. repeat split; reflexivity. Qed.

(** The same when the text comes from the generator: the first
    request is answered with [f(weight=-'a')], and the re-validation
    raises. *)
Example run_repair_raises_after_one_request :
  fst (run_repair None src_fake unknown_category empty_world) = Raise TypeError
  ∧ length (requests (snd (run_repair None src_fake unknown_category empty_world))) = 1%nat.
Proof. vm_compute. split; reflexivity. Qed.

(** Without an API key the first request raises, and so does the
    orchestrator. *)
Example run_repair_without_key :
  fst (@run_repair _ _ keyless_generator None src_fake unknown_category
         empty_world) = Raise RuntimeError
  ∧ length (requests (snd (@run_repair _ _ keyless_generator None src_fake
                             unknown_category empty_world))) = 1%nat.
Proof. vm_compute. split; reflexivity. Qed.

End Runs.

(** ** More runs: the tests of the generator and the samples of the
    properties *)

Module MoreRuns.
Import Re Literal ReSplit Str Analyzer Validator Generator Cli ExtractMdpApi.
Import Verdict Pipeline ResponseFormat Samples MoreSamples.
Import ReportFacts VerdictFacts FinderFacts RaiseFacts HintFacts PipelineFacts
       NormaliserFacts NameFacts FenceFacts ResponseFacts HeadingFacts
       ExtractFacts ApprovedFacts.

(** *** Names *)

Example sanitize_module_name_tests :
  sanitize_module_name (py "franka-panda-reach") = py "franka_panda_reach"
  ∧ sanitize_module_name (py "my task name") = py "my_task_name"
  ∧ sanitize_module_name (py "FrankaReach") = py "frankareach"
  ∧ sanitize_module_name (py "task@#$name!") = py "taskname"
  ∧ sanitize_module_name (py "3d_task") = py "_3d_task"
  ∧ sanitize_module_name (py "My-Task 2!") = py "my_task_2".
Proof. vm_compute. repeat split. Qed.

(** Nothing is left of a name without a letter, a digit or an
    underscore. *)
Example sanitize_module_name_empty :
  sanitize_module_name (py "!!!") = [] ∧ sanitize_module_name [] = [].
Proof. vm_compute. split; reflexivity. Qed.

Example make_task_name_tests :
  _make_task_name sample_task = py "anymal_d_flat"
  ∧ _make_task_id sample_task = py "RoboSpec-Velocity-Flat-Anymal-D-v0".
Proof. vm_compute. split; reflexivity. Qed.

(** *** Fences and responses *)

Example strip_code_fences_tests :
  _strip_code_fences (fenced (py "python") src_hello) = src_hello
  ∧ _strip_code_fences src_hello = src_hello
  ∧ _strip_code_fences (fenced (py "bash") (py "echo hi")) = py "echo hi".
Proof. vm_compute. repeat split. Qed.

(** A second pass can strip more. *)
Example strip_code_fences_twice :
  _strip_code_fences (py "x``````") = py "x```"
  ∧ _strip_code_fences (py "x```") = py "x".
Proof. vm_compute. split; reflexivity. Qed.

Lemma strip_code_fences_without_fence_witness :
  contains (py "```") src_hello = false
  ∧ _strip_code_fences src_hello = strip src_hello.
Proof.
  assert (contains (py "```") src_hello = false) as Hc
    by (vm_compute; reflexivity).
  split; [exact Hc|].
  exact (strip_code_fences_without_fence src_hello Hc).
Defined.

Lemma strip_code_fences_fenced_witness :
  py "python" ∈ [[]; py "python"; py "bash"; py "sh"]
  ∧ contains (py "```") src_hello = false
  ∧ strip src_hello = src_hello
  ∧ _strip_code_fences (py "```" ++ py "python" ++ [NL] ++ src_hello
                        ++ [NL] ++ py "```") = src_hello.
Proof.
  assert (py "python" ∈ [[]; py "python"; py "bash"; py "sh"]) as Hl
    by (right; left).
  assert (contains (py "```") src_hello = false) as Hc
    by (vm_compute; reflexivity).
  assert (strip src_hello = src_hello) as Hs by (vm_compute; reflexivity).
  split; [exact Hl|]. split; [exact Hc|]. split; [exact Hs|].
  exact (strip_code_fences_fenced (py "python") src_hello Hl Hc Hs).
Defined.

Example parse_response_tests :
  _parse_response (concat (render <$> response_files)) (py "franka_reach")
  = [(py "reach_env_cfg.py", src_reach); (py "__init__.py", py "import gym");
     (py "train.sh", py "python train.py")]
  ∧ _parse_response response_plain (py "franka_reach")
    = [(py "franka_reach_env_cfg.py", response_plain)]
  ∧ _extract_env_cfg (concat (render <$> response_files)) (py "franka_reach")
    = src_reach.
Proof. vm_compute. repeat split. Qed.

Lemma extract_env_cfg_without_marker_witness :
  search file_marker response_plain = None
  ∧ _parse_response response_plain (py "franka_reach")
    = [(py "franka_reach" ++ py "_env_cfg.py", _strip_code_fences response_plain)]
  ∧ _extract_env_cfg response_plain (py "franka_reach")
    = _strip_code_fences response_plain.
Proof.
  assert (search file_marker response_plain = None) as Hs
    by (vm_compute; reflexivity).
  split; [exact Hs|].
  exact (extract_env_cfg_without_marker response_plain (py "franka_reach") Hs).
Defined.

Lemma plain_reach : plain_section file_reach.
Proof.
  repeat split;
    first [ vm_compute; congruence
          | apply (bool_decide_unpack _); vm_compute; exact I
          | vm_compute; by repeat constructor ].
Qed.

Lemma plain_init : plain_section file_init.
Proof.
  repeat split;
    first [ vm_compute; congruence
          | apply (bool_decide_unpack _); vm_compute; exact I
          | vm_compute; by repeat constructor ].
Qed.

Lemma plain_train : plain_section file_train.
Proof.
  repeat split;
    first [ vm_compute; congruence
          | apply (bool_decide_unpack _); vm_compute; exact I
          | vm_compute; by repeat constructor ].
Qed.

Lemma parse_response_sections_witness :
  hash_free (py "Here are the files." ++ [NL])
  ∧ response_files ≠ []
  ∧ Forall plain_section response_files
  ∧ NoDup (file_name <$> response_files)
  ∧ _parse_response
      ((py "Here are the files." ++ [NL]) ++ concat (render <$> response_files))
      (py "franka_reach")
    = (λ f, (file_name f, _strip_code_fences (block f))) <$> response_files.
Proof.
  assert (hash_free (py "Here are the files." ++ [NL])) as Hp
    by (split; vm_compute; congruence).
  assert (response_files ≠ []) as Hne by discriminate.
  assert (Forall plain_section response_files) as Hs.
  { constructor; [apply plain_reach|]. constructor; [apply plain_init|].
    constructor; [apply plain_train|]. constructor. }
  assert (NoDup (file_name <$> response_files)) as Hnd
    by (apply (bool_decide_unpack _); vm_compute; exact I).
  split; [exact Hp|]. split; [exact Hne|]. split; [exact Hs|].
  split; [exact Hnd|].
  exact (parse_response_sections _ response_files (py "franka_reach")
           Hp Hne Hs Hnd).
Defined.

(** *** The verdict *)

Lemma validate_config_valid_iff_witness :
  fst (validate_config None src_valid None) = Return fresh_result
  ∧ (is_valid fresh_result = true ↔
       ∃ tree, ast_parse src_valid = inr tree
         ∧ (∃ name body, ClassDef name body ∈ walk tree
                         ∧ contains (py "EnvCfg") name = true)
         ∧ (∃ name body, ClassDef name body ∈ walk tree
                         ∧ contains (py "RewardsCfg") name = true)
         ∧ (∃ body, FunctionDef (py "__post_init__") body ∈ walk tree)
         ∧ (∃ n, n ∈ walk tree ∧ isaac_import n = true)
         ∧ (fst (load_api_whitelist None None) = ∅
            ∨ ∀ n, n ∈ accessed tree → n ∈ fst (load_api_whitelist None None))
         ∧ has_literal_path src_valid = false).
Proof.
  assert (fst (validate_config None src_valid None) = Return fresh_result) as Hv
    by (vm_compute; reflexivity).
  split; [exact Hv|].
  exact (validate_config_valid_iff None src_valid None fresh_result Hv).
Defined.

Example find_env_cfg_class_tests :
  _find_env_cfg_class src_valid = Return (Some (py "MyEnvCfg"))
  ∧ _find_env_cfg_class src_fake = Return None
  ∧ _find_env_cfg_class src_broken = Return None
  ∧ _find_env_cfg_class src_surrogate = Raise UnicodeEncodeError.
Proof. vm_compute. repeat split. Qed.

Lemma find_env_cfg_class_agrees_witness :
  fst (validate_config None src_fake None) = Return verdict_fake
  ∧ (∃ found, _find_env_cfg_class src_fake = Return found)
  ∧ (_find_env_cfg_class src_fake = Return None
     ↔ (∃ e, ast_parse src_fake = inl (SyntaxError e))
       ∨ missing_env_cfg ∈ errors verdict_fake)
  ∧ (∀ name, _find_env_cfg_class src_fake = Return (Some name) →
             contains (py "EnvCfg") name = true)
  ∧ (is_valid verdict_fake = true →
     ∃ name, _find_env_cfg_class src_fake = Return (Some name)).
Proof.
  assert (fst (validate_config None src_fake None) = Return verdict_fake) as Hv
    by (vm_compute; reflexivity).
  split; [exact Hv|].
  exact (find_env_cfg_class_agrees None src_fake None verdict_fake Hv).
Defined.

(** *** The hint *)

Lemma whitelist_hint_lists_registry_witness :
  existsb (contains (py "Unknown MDP function")) [unknown_fake] = true
  ∧ ∃ names,
      fst (_build_whitelist_hint (Some [sample_reference]) [unknown_fake] None)
        = hint_header ++ [NL] ++ join (py ", ") names
      ∧ Sorted text_le names
      ∧ NoDup names
      ∧ (∀ n, n ∈ names
              ↔ n ∈ fst (load_api_whitelist (Some [sample_reference]) None))
      ∧ (∀ n, n ∈ fst (load_api_whitelist (Some [sample_reference]) None) →
              contains n (fst (_build_whitelist_hint (Some [sample_reference])
                                 [unknown_fake] None)) = true).
Proof.
  assert (existsb (contains (py "Unknown MDP function")) [unknown_fake] = true)
    as He by (vm_compute; reflexivity).
  split; [exact He|].
  exact (whitelist_hint_lists_registry (Some [sample_reference]) [unknown_fake]
           None He).
Defined.

(** The names of the hint come in the order of the code points:
    capitals first. *)
Example whitelist_hint_sample :
  fst (_build_whitelist_hint (Some [sample_reference]) [unknown_fake] None)
  = hint_header ++ [NL]
    ++ py "JointEffortActionCfg, NullCommandCfg, UniformPoseCommandCfg, UniformVelocityCommandCfg, feet_air_time, is_alive, joint_pos_target_l2, lin_vel_z_l2, modify_reward_weight, orientation_command_error, position_command_error, position_command_error_tanh, randomize_rigid_body_mass, randomize_rigid_body_material, terrain_levels_vel".
Proof. vm_compute. reflexivity. Qed.

Lemma whitelist_hint_iff_unknown_symbol_witness :
  ast_parse src_fake = inr tree_fake
  ∧ fst (validate_config (Some [sample_reference]) src_fake None)
    = Return {| is_valid := false;
                errors := errors verdict_fake ++ [unknown_fake];
                warnings := [];
                corrections := [] |}
  ∧ (fst (_build_whitelist_hint (Some [sample_reference])
            (errors verdict_fake ++ [unknown_fake]) None) = []
     ↔ fst (load_api_whitelist (Some [sample_reference]) None) = ∅
       ∨ ∀ n, n ∈ accessed tree_fake →
              n ∈ fst (load_api_whitelist (Some [sample_reference]) None)).
Proof.
  assert (ast_parse src_fake = inr tree_fake) as Hp by (vm_compute; reflexivity).
  assert (fst (validate_config (Some [sample_reference]) src_fake None)
          = Return {| is_valid := false;
                      errors := errors verdict_fake ++ [unknown_fake];
                      warnings := [];
                      corrections := [] |}) as Hv
    by (vm_compute; reflexivity).
  split; [exact Hp|]. split; [exact Hv|].
  exact (whitelist_hint_iff_unknown_symbol (Some [sample_reference]) src_fake
           None None tree_fake _ Hp Hv).
Defined.

(** *** The orchestrator *)

Lemma run_repair_result_witness :
  fst (@run_repair _ _ helpful_generator None src_fake unknown_category
         empty_world)
  = Return {| final_code := src_valid; final_result := fresh_result;
              env_cfg := src_valid |}
  ∧ auto_correct_code src_valid = (src_valid, [])
  ∧ verdict_of src_valid fresh_result
      (registry (snd (@run_repair _ _ helpful_generator None src_fake
                        unknown_category empty_world)))
  ∧ src_valid = fst (post_process_env_cfg src_valid unknown_category)
  ∧ (is_valid fresh_result = false →
     length (requests (snd (@run_repair _ _ helpful_generator None src_fake
                              unknown_category empty_world)))
     = (length (requests empty_world) + MAX_REPAIR_ATTEMPTS)%nat).
Proof.
  assert (fst (@run_repair _ _ helpful_generator None src_fake unknown_category
                 empty_world)
          = Return {| final_code := src_valid; final_result := fresh_result;
                      env_cfg := src_valid |}) as Hr
    by (vm_compute; reflexivity).
  split; [exact Hr|].
  exact (@run_repair_result _ _ helpful_generator None src_fake unknown_category
           empty_world _ Hr).
Defined.

(** The budget is spent before an invalid verdict is reported. *)
Example run_repair_spends_budget :
  let '(r, w) := @run_repair _ _ stubborn_generator None src_fake
                   unknown_category empty_world in
  (∃ a, r = Return a ∧ is_valid (final_result a) = false)
  ∧ length (requests w) = MAX_REPAIR_ATTEMPTS.
Proof. vm_compute. split; [eexists; split; reflexivity|reflexivity]. Qed.

Lemma run_repair_valid_at_once_witness :
  fst (validate_config None (fst (auto_correct_code src_valid))
         (registry empty_world)) = Return fresh_result
  ∧ is_valid fresh_result = true
  ∧ ∃ r, fst (@run_repair _ _ keyless_generator None src_valid
                unknown_category empty_world) = Return r
         ∧ final_code r = fst (auto_correct_code src_valid)
         ∧ final_result r = fresh_result
         ∧ requests (snd (@run_repair _ _ keyless_generator None src_valid
                            unknown_category empty_world))
           = requests empty_world.
Proof.
  assert (fst (validate_config None (fst (auto_correct_code src_valid))
                 (registry empty_world)) = Return fresh_result) as Hv
    by (vm_compute; reflexivity).
  split; [exact Hv|]. split; [reflexivity|].
  exact (@run_repair_valid_at_once _ _ keyless_generator None src_valid
           unknown_category empty_world fresh_result Hv eq_refl).
Defined.

(** *** The normaliser *)

Lemma post_process_silent_is_identity_witness :
  snd (post_process_env_cfg src_correct_franka (py "manipulation_reach")) = []
  ∧ fst (post_process_env_cfg src_correct_franka (py "manipulation_reach"))
    = src_correct_franka.
Proof.
  assert (snd (post_process_env_cfg src_correct_franka (py "manipulation_reach"))
          = []) as Hs by (vm_compute; reflexivity).
  split; [exact Hs|].
  exact (post_process_silent_is_identity src_correct_franka
           (py "manipulation_reach") Hs).
Defined.

(** *** Headings and pages *)

Lemma function_heading_is_loaded_witness :
  (py "# Rewards" ++ [NL]) ++ py "### mdp." ++ py "is_alive"
    ++ ([NL] ++ py "Alive bonus." ++ [NL])
    ∈ [py "# Rewards" ++ [NL] ++ py "### mdp.is_alive" ++ [NL]
       ++ py "Alive bonus." ++ [NL]]
  ∧ (py "# Rewards" ++ [NL] = [] ∨ last (py "# Rewards" ++ [NL]) = Some NL)
  ∧ py "is_alive" ≠ []
  ∧ Forall (λ c, is_word c = true) (py "is_alive")
  ∧ is_wordo (head ([NL] ++ py "Alive bonus." ++ [NL])) = false
  ∧ py "is_alive"
    ∈ fst (load_api_whitelist
             (Some [py "# Rewards" ++ [NL] ++ py "### mdp.is_alive" ++ [NL]
                    ++ py "Alive bonus." ++ [NL]]) None).
Proof.
  assert ((py "# Rewards" ++ [NL]) ++ py "### mdp." ++ py "is_alive"
            ++ ([NL] ++ py "Alive bonus." ++ [NL])
          ∈ [py "# Rewards" ++ [NL] ++ py "### mdp.is_alive" ++ [NL]
             ++ py "Alive bonus." ++ [NL]]) as Hf
    by (apply list_elem_of_singleton; vm_compute; reflexivity).
  assert (py "# Rewards" ++ [NL] = [] ∨ last (py "# Rewards" ++ [NL]) = Some NL)
    as Hp by (right; vm_compute; reflexivity).
  assert (py "is_alive" ≠ []) as Hne by (vm_compute; discriminate).
  assert (Forall (λ c, is_word c = true) (py "is_alive")) as Hw
    by (vm_compute; repeat constructor).
  assert (is_wordo (head ([NL] ++ py "Alive bonus." ++ [NL])) = false) as Hpost
    by (vm_compute; reflexivity).
  split; [exact Hf|]. split; [exact Hp|]. split; [exact Hne|].
  split; [exact Hw|]. split; [exact Hpost|].
  exact (function_heading_is_loaded _ _ _ _ Hf Hp Hne Hw Hpost).
Defined.

Lemma class_heading_is_loaded_witness :
  [] ++ py "### " ++ (74 :: py "ointEffortActionCfg") ++ [NL]
    ∈ [py "### JointEffortActionCfg" ++ [NL]]
  ∧ (@nil N = [] ∨ last (@nil N) = Some NL)
  ∧ is_upper_AZ 74 = true
  ∧ py "ointEffortActionCfg" ≠ []
  ∧ Forall (λ d, is_word d = true) (py "ointEffortActionCfg")
  ∧ is_wordo (head [NL]) = false
  ∧ 74 :: py "ointEffortActionCfg"
    ∈ fst (load_api_whitelist (Some [py "### JointEffortActionCfg" ++ [NL]]) None).
Proof.
  assert ([] ++ py "### " ++ (74 :: py "ointEffortActionCfg") ++ [NL]
          ∈ [py "### JointEffortActionCfg" ++ [NL]]) as Hf
    by (apply list_elem_of_singleton; vm_compute; reflexivity).
  assert (@nil N = [] ∨ last (@nil N) = Some NL) as Hp by (left; reflexivity).
  assert (is_upper_AZ 74 = true) as Hc by (vm_compute; reflexivity).
  assert (py "ointEffortActionCfg" ≠ []) as Hne by (vm_compute; discriminate).
  assert (Forall (λ d, is_word d = true) (py "ointEffortActionCfg")) as Hw
    by (vm_compute; repeat constructor).
  assert (is_wordo (head [NL]) = false) as Hpost by (vm_compute; reflexivity).
  split; [exact Hf|]. split; [exact Hp|]. split; [exact Hc|].
  split; [exact Hne|]. split; [exact Hw|]. split; [exact Hpost|].
  exact (class_heading_is_loaded _ _ _ _ _ Hf Hp Hc Hne Hw Hpost).
Defined.

(** A heading in the middle of a line, or with four number signs,
    is not read. *)
Example load_api_whitelist_ignores_other_lines :
  (py "not_a_heading" ∉ fst (load_api_whitelist (Some [sample_reference]) None))
  ∧ (py "hidden"
     ∉ fst (load_api_whitelist (Some [py "text ### mdp.hidden" ++ [NL]]) None)).
Proof. split; apply (bool_decide_unpack _); vm_compute; exact I. Qed.

Example format_function_md_sample :
  format_function_md doc_is_alive
  = py "### mdp.is_alive" ++ [NL; NL]
    ++ py "**Signature:** `is_alive(env: ManagerBasedRLEnv) -> torch.Tensor`"
    ++ [NL; NL] ++ py "**Description:** Reward for being alive." ++ [NL; NL]
    ++ py "**Parameters:**" ++ [NL] ++ py "- `env`: ManagerBasedRLEnv" ++ [NL].
Proof. vm_compute. reflexivity. Qed.

Lemma documented_function_is_loaded_witness :
  functions_page (py "Rewards") (py "rewards") [doc_is_alive; doc_action_l2]
    ∈ [functions_page (py "Rewards") (py "rewards") [doc_is_alive; doc_action_l2]]
  ∧ doc_action_l2 ∈ [doc_is_alive; doc_action_l2]
  ∧ name doc_action_l2 ≠ []
  ∧ Forall (λ c, is_word c = true) (name doc_action_l2)
  ∧ name doc_action_l2
    ∈ fst (load_api_whitelist
             (Some [functions_page (py "Rewards") (py "rewards")
                      [doc_is_alive; doc_action_l2]]) None).
Proof.
  assert (functions_page (py "Rewards") (py "rewards") [doc_is_alive; doc_action_l2]
          ∈ [functions_page (py "Rewards") (py "rewards")
               [doc_is_alive; doc_action_l2]]) as Hf
    by (apply list_elem_of_singleton; reflexivity).
  assert (doc_action_l2 ∈ [doc_is_alive; doc_action_l2]) as Hin
    by (right; left).
  assert (name doc_action_l2 ≠ []) as Hne by (vm_compute; discriminate).
  assert (Forall (λ c, is_word c = true) (name doc_action_l2)) as Hw
    by (vm_compute; repeat constructor).
  split; [exact Hf|]. split; [exact Hin|]. split; [exact Hne|].
  split; [exact Hw|].
  exact (documented_function_is_loaded _ _ _ _ _ Hf Hin Hne Hw).
Defined.

Lemma documented_action_is_loaded_witness :
  actions_page [doc_joint_effort] [doc_action_l2]
    ∈ [actions_page [doc_joint_effort] [doc_action_l2]]
  ∧ class_name doc_joint_effort
    ∈ fst (load_api_whitelist
             (Some [actions_page [doc_joint_effort] [doc_action_l2]]) None)
  ∧ name doc_action_l2
    ∈ fst (load_api_whitelist
             (Some [actions_page [doc_joint_effort] [doc_action_l2]]) None).
Proof.
  assert (actions_page [doc_joint_effort] [doc_action_l2]
          ∈ [actions_page [doc_joint_effort] [doc_action_l2]]) as Hf
    by (apply list_elem_of_singleton; reflexivity).
  split; [exact Hf|].
  destruct (documented_action_is_loaded _ _ _ Hf) as [Hc Hfun]. split.
  - apply (Hc doc_joint_effort 74 (py "ointEffortActionCfg"));
      [by left|reflexivity|reflexivity|vm_compute; discriminate|].
    vm_compute. repeat constructor.
  - apply (Hfun doc_action_l2); [by left|vm_compute; discriminate|].
    vm_compute. repeat constructor.
Defined.
(** *** The approved functions *)

Lemma auto_correct_code_keeps_approved_witness :
  (py "classic_cartpole", cartpole_functions) ∈ CATEGORY_APPROVED_FUNCTIONS
  ∧ (py "rewards",
     py <$> ["is_alive"; "is_terminated"; "joint_pos_target_l2";
             "joint_vel_l1"; "joint_vel_l2"; "action_l2"]%string)
    ∈ cartpole_functions
  ∧ ∃ pre' post',
      fst (auto_correct_code
             (py "func=" ++ alias_dot ++ py "joint_vel_l1" ++ py ", weight=-0.01"))
        = pre' ++ alias_dot ++ py "joint_vel_l1" ++ post'
      ∧ fst (auto_correct_code (py "func=" ++ alias_dot)) = pre' ++ alias_dot
      ∧ fst (auto_correct_code (py "joint_vel_l1" ++ py ", weight=-0.01"))
        = py "joint_vel_l1" ++ post'.
Proof.
  assert ((py "classic_cartpole", cartpole_functions)
          ∈ CATEGORY_APPROVED_FUNCTIONS) as Hc by (right; left).
  assert ((py "rewards",
           py <$> ["is_alive"; "is_terminated"; "joint_pos_target_l2";
                   "joint_vel_l1"; "joint_vel_l2"; "action_l2"]%string)
          ∈ cartpole_functions) as Hs by left.
  split; [exact Hc|]. split; [exact Hs|].
  apply (auto_correct_code_keeps_approved _ _ _ _ (py "joint_vel_l1")
           (py "func=") (py ", weight=-0.01") Hc Hs).
  - do 3 right. left.
  - reflexivity.
Defined.
End MoreRuns.
